(** * Scroll-driven frame animation of script.js ([ScrollFrameAnimation])

    A shallow embedding of the [ScrollFrameAnimation] class: the preload
    callbacks, [drawFrame], the resize handler and [handleScroll], over an
    explicit model of the pieces of the browser the class talks to (the
    canvas bitmap and its 2D context, the styled elements, the timer queue).

    Numbers.  JavaScript numbers are modelled by [number]: a rational, one
    of the two infinities, or NaN.  Division by zero, the NaN-propagation
    of [Math.min]/[Math.max], comparisons with NaN and truthiness follow
    ECMAScript, and a zero is always the positive zero.  The operations of
    [Num] are exact; [B64] rounds their results to the nearest double, and
    is used where the rounding decides what the code computes: the frame
    index of [handleScroll] ([targetFrame]) and the cover fit of
    [drawFrame] ([coverFit]).  Elsewhere finite results are left exact: the
    arithmetic on the integers of the layout (exact in binary64 as well),
    the progress, which is compared with 0, 0.05 and 1 and written on the
    bar as a rational, the size of the bitmap, and the rectangle of the
    image on the bitmap ([exactFit]).

    Browser.  The canvas and the hero container exist (the constructor
    would throw otherwise); every other element may be missing.  The
    elements are distinct.  The bitmap of the canvas is a colour per device
    pixel; a paint operation colours the pixels whose centre lies in the
    image of its rectangle under the current transformation. *)

From Stdlib Require Import QArith Qround Qpower Qabs Lqa ZArith Lia Bool Ascii.
From stdpp Require Import gmap strings list pretty.

Local Open Scope Z_scope.

(** ** JavaScript numbers *)

Inductive number : Type :=
  | NaN
  | NegInf
  | Fin (q : Q)
  | PosInf.

Module Num.

Definition of_Z (z : Z) : number := Fin (inject_Z z).
Definition of_N (n : N) : number := Fin (inject_Z (Z.of_N n)).
Definition of_nat (n : nat) : number := Fin (inject_Z (Z.of_nat n)).

Definition zero : number := Fin 0%Q.
Definition one : number := Fin 1%Q.

(** Unary minus. *)
Definition neg (a : number) : number :=
  match a with
  | NaN => NaN
  | NegInf => PosInf
  | Fin q => Fin (- q)%Q
  | PosInf => NegInf
  end.

(** [a + b]. *)
Definition add (a b : number) : number :=
  match a, b with
  | NaN, _ | _, NaN => NaN
  | PosInf, NegInf | NegInf, PosInf => NaN
  | PosInf, _ | _, PosInf => PosInf
  | NegInf, _ | _, NegInf => NegInf
  | Fin x, Fin y => Fin (x + y)%Q
  end.

(** [a - b]. *)
Definition sub (a b : number) : number := add a (neg b).

(** Sign of a rational as a comparison with zero. *)
Definition sgn (q : Q) : comparison := (q ?= 0)%Q.

(** An infinity of the given sign ([Lt] negative, [Gt] positive). *)
Definition inf_of (c : comparison) : number :=
  match c with
  | Lt => NegInf
  | Eq => NaN
  | Gt => PosInf
  end.

Definition sgn_of (a : number) : comparison :=
  match a with
  | NaN => Eq
  | NegInf => Lt
  | Fin q => sgn q
  | PosInf => Gt
  end.

Definition sgn_mul (c d : comparison) : comparison :=
  match c, d with
  | Eq, _ | _, Eq => Eq
  | Lt, Lt | Gt, Gt => Gt
  | _, _ => Lt
  end.

(** [a * b]: an infinity times zero is NaN. *)
Definition mul (a b : number) : number :=
  match a, b with
  | NaN, _ | _, NaN => NaN
  | Fin x, Fin y => Fin (x * y)%Q
  | _, _ => inf_of (sgn_mul (sgn_of a) (sgn_of b))
  end.

(** [a / b]: a finite non-zero number over zero is an infinity of the sign
    of the dividend, zero over zero and infinity over infinity are NaN. *)
Definition div (a b : number) : number :=
  match a, b with
  | NaN, _ | _, NaN => NaN
  | Fin x, Fin y =>
      match sgn y with
      | Eq => inf_of (sgn x)
      | _ => Fin (x / y)%Q
      end
  | Fin _, _ => zero
  | _, Fin y =>
      match sgn y with
      | Lt => neg a
      | _ => a
      end
  | _, _ => NaN
  end.

(** [a < b]; false as soon as one side is NaN. *)
Definition ltb (a b : number) : bool :=
  match a, b with
  | NaN, _ | _, NaN => false
  | _, NegInf => false
  | NegInf, _ => true
  | PosInf, _ => false
  | Fin _, PosInf => true
  | Fin x, Fin y => match (x ?= y)%Q with Lt => true | _ => false end
  end.

(** [a > b]. *)
Definition gtb (a b : number) : bool := ltb b a.

(** [a === b] on numbers. *)
Definition eqb (a b : number) : bool :=
  match a, b with
  | NegInf, NegInf | PosInf, PosInf => true
  | Fin x, Fin y => Qeq_bool x y
  | _, _ => false
  end.

(** [a >= b]. *)
Definition geb (a b : number) : bool := gtb a b || eqb a b.

(** [Math.max(a, b)] and [Math.min(a, b)]: NaN as soon as one argument is. *)
Definition max (a b : number) : number :=
  match a, b with
  | NaN, _ | _, NaN => NaN
  | _, _ => if ltb a b then b else a
  end.

Definition min (a b : number) : number :=
  match a, b with
  | NaN, _ | _, NaN => NaN
  | _, _ => if ltb b a then b else a
  end.

(** [Math.floor]. *)
Definition floor (a : number) : number :=
  match a with
  | Fin q => of_Z (Qfloor q)
  | _ => a
  end.

(** ToBoolean on a number: NaN and zero are falsy. *)
Definition truthy (a : number) : bool :=
  match a with
  | NaN => false
  | Fin q => negb (Qeq_bool q 0)
  | _ => true
  end.

(** [a || b] on numbers. *)
Definition or (a b : number) : number := if truthy a then a else b.

Definition is_finite (a : number) : bool :=
  match a with Fin _ => true | _ => false end.

(** The index of an array element named by a number: a non-negative
    integer names a slot, anything else (NaN, a fraction, a negative
    number) names a property no array slot has. *)
Definition array_index (a : number) : option nat :=
  match a with
  | Fin q =>
      if Qeq_bool (inject_Z (Qfloor q)) q && (0 <=? Qfloor q)
      then Some (Z.to_nat (Qfloor q)) else None
  | _ => None
  end.

(** The number is a rational of the closed unit interval. *)
Definition in_unit (a : number) : Prop :=
  exists q, a = Fin q /\ (0 <= q <= 1)%Q.

End Num.

(** ** Rounding to binary64

    The result of an operation on doubles is the exact result rounded to
    the nearest double, a tie going to the double with an even last digit.
    [rnd] does this on rationals, with the 53 digits and the gradual
    underflow of binary64; [round] adds the overflow to an infinity. *)

Module B64.

(** [2^z]. *)
Definition pow2 (z : Z) : Q := (2 ^ z)%Q.

(** The binary logarithm of a positive rational, rounded down. *)
Definition lg (a : Q) : Z :=
  let k := (Z.log2 (Qnum a) - Z.log2 (Z.pos (Qden a)))%Z in
  if Qle_bool (pow2 k) a then k else (k - 1)%Z.

(** The nearest integer, a tie going to the even one. *)
Definition nearest_even (t : Q) : Z :=
  let f := Qfloor t in
  match (t - inject_Z f ?= 1 # 2)%Q with
  | Lt => f
  | Gt => (f + 1)%Z
  | Eq => if Z.even f then f else (f + 1)%Z
  end.

(** The spacing of the doubles around a positive rational: 52 binary
    digits below its leading one, and [2^-1074] for the subnormal ones. *)
Definition quantum (a : Q) : Q := pow2 (Z.max (lg a) (-1022) - 52).

Definition rnd_pos (a : Q) : Q :=
  Qred (inject_Z (nearest_even (a / quantum a)) * quantum a).

(** The rational rounded to precision 53, before the test of overflow. *)
Definition rnd (x : Q) : Q :=
  match (x ?= 0)%Q with
  | Eq => 0%Q
  | Gt => rnd_pos x
  | Lt => (- rnd_pos (- x))%Q
  end.

(** A double, in rational form: an integer of at most 53 bits times a
    power of two no smaller than the smallest subnormal. *)
Definition representable (x : Q) : Prop :=
  exists m k : Z,
    (x == inject_Z m * pow2 k)%Q /\ (Z.abs m < 2 ^ 53)%Z /\ (-1074 <= k)%Z.

(** The double nearest to a number. *)
Definition round (a : number) : number :=
  match a with
  | Fin x =>
      if Qle_bool (pow2 1024) (rnd x) then PosInf
      else if Qle_bool (rnd x) (- pow2 1024) then NegInf
      else Fin (rnd x)
  | _ => a
  end.

(** The operations of the code whose results need not be doubles. *)
Definition add (a b : number) : number := round (Num.add a b).
Definition sub (a b : number) : number := round (Num.sub a b).
Definition mul (a b : number) : number := round (Num.mul a b).
Definition div (a b : number) : number := round (Num.div a b).

End B64.

(** ** The browser objects the class uses *)

(** A pixel is transparent (a cleared bitmap) or carries a colour. *)
Inductive Color : Type :=
  | Transparent
  | Paint (css : string).

(** Source-over compositing of a source pixel on a destination pixel. *)
Definition over (src dst : Color) : Color :=
  match src with
  | Transparent => dst
  | Paint _ => src
  end.

(** A decoded image: its reported dimensions and its texels, addressed in
    image coordinates. *)
Record Image : Type := mkImage {
  img_src : string;
  img_width : N;
  img_height : N;
  img_texel : Q -> Q -> Color
}.

(** The current transformation matrix of a 2D context,
    [(x, y) |-> (a x + c y + e, b x + d y + f)]. *)
Record Matrix : Type := mkMatrix {
  m_a : number; m_b : number; m_c : number;
  m_d : number; m_e : number; m_f : number
}.

Record Context2D : Type := mkContext2D {
  transform : Matrix;
  fillStyle : string
}.

(** The canvas element: the size of its bitmap, the bitmap, and the 2D
    context ([getContext('2d')] may have returned null). *)
Record Canvas : Type := mkCanvas {
  cv_width : Z;
  cv_height : Z;
  bitmap : Z -> Z -> Color;
  ctx : option Context2D
}.

Module Canvas2D.

Definition identity : Matrix :=
  mkMatrix Num.one Num.zero Num.zero Num.one Num.zero Num.zero.

(** [ctx.setTransform(a, b, c, d, e, f)]. *)
Definition setTransform (a b c d e f : number) (cx : Context2D) : Context2D :=
  mkContext2D (mkMatrix a b c d e f) (fillStyle cx).

(** [ctx.scale(sx, sy)]. *)
Definition scale (sx sy : number) (cx : Context2D) : Context2D :=
  let m := transform cx in
  mkContext2D
    (mkMatrix (Num.mul (m_a m) sx) (Num.mul (m_b m) sx)
              (Num.mul (m_c m) sy) (Num.mul (m_d m) sy)
              (m_e m) (m_f m))
    (fillStyle cx).

(** [ctx.fillStyle = css]. *)
Definition set_fillStyle (css : string) (cx : Context2D) : Context2D :=
  mkContext2D (transform cx) css.

Definition leb (a b : number) : bool := Num.ltb a b || Num.eqb a b.

(** The pixel belongs to the bitmap. *)
Definition in_bitmap (cv : Canvas) (px py : Z) : bool :=
  (0 <=? px) && (px <? cv_width cv) && (0 <=? py) && (py <? cv_height cv).

(** The point of user space that the matrix sends to the centre of a
    device pixel. *)
Definition user_point (m : Matrix) (px py : Z) : number * number :=
  let cx := Num.sub (Fin (inject_Z px + (1 # 2))%Q) (m_e m) in
  let cy := Num.sub (Fin (inject_Z py + (1 # 2))%Q) (m_f m) in
  let det := Num.sub (Num.mul (m_a m) (m_d m)) (Num.mul (m_b m) (m_c m)) in
  (Num.div (Num.sub (Num.mul (m_d m) cx) (Num.mul (m_c m) cy)) det,
   Num.div (Num.sub (Num.mul (m_a m) cy) (Num.mul (m_b m) cx)) det).

(** The user-space point lies in the rectangle [(x, y, w, h)]. *)
Definition in_rect (x y w h : number) (u : number * number) : bool :=
  leb x (fst u) && Num.ltb (fst u) (Num.add x w)
  && leb y (snd u) && Num.ltb (snd u) (Num.add y h).

(** The pixel is painted by an operation on the rectangle under the
    matrix. *)
Definition hits (cv : Canvas) (m : Matrix) (x y w h : number) (px py : Z) : bool :=
  in_bitmap cv px py && in_rect x y w h (user_point m px py).

Definition with_bitmap (cv : Canvas) (b : Z -> Z -> Color) : Canvas :=
  mkCanvas (cv_width cv) (cv_height cv) b (ctx cv).

Definition with_ctx (cv : Canvas) (cx : Context2D) : Canvas :=
  mkCanvas (cv_width cv) (cv_height cv) (bitmap cv) (Some cx).

(** [ctx.clearRect(x, y, w, h)]. *)
Definition clearRect (x y w h : number) (cx : Context2D) (cv : Canvas) : Canvas :=
  with_bitmap cv (fun px py =>
    if hits cv (transform cx) x y w h px py then Transparent
    else bitmap cv px py).

(** [ctx.fillRect(x, y, w, h)]. *)
Definition fillRect (x y w h : number) (cx : Context2D) (cv : Canvas) : Canvas :=
  with_bitmap cv (fun px py =>
    if hits cv (transform cx) x y w h px py
    then over (Paint (fillStyle cx)) (bitmap cv px py)
    else bitmap cv px py).

(** [ctx.drawImage(img, dx, dy, dw, dh)]: the whole image, stretched on
    the destination rectangle. *)
Definition drawImage (img : Image) (dx dy dw dh : number)
    (cx : Context2D) (cv : Canvas) : Canvas :=
  with_bitmap cv (fun px py =>
    if hits cv (transform cx) dx dy dw dh px py
    then
      let u := user_point (transform cx) px py in
      match Num.mul (Num.div (Num.sub (fst u) dx) dw) (Num.of_N (img_width img)),
            Num.mul (Num.div (Num.sub (snd u) dy) dh) (Num.of_N (img_height img)) with
      | Fin sx, Fin sy => over (img_texel img sx sy) (bitmap cv px py)
      | _, _ => bitmap cv px py
      end
    else bitmap cv px py).

(** Assigning [canvas.width] or [canvas.height]: the value is converted
    to an unsigned long, the bitmap is cleared and the context reset. *)
Definition to_ulong (a : number) : Z :=
  match a with
  | Fin q => Z.quot (Qnum q) (Z.pos (Qden q)) mod 2 ^ 32
  | _ => 0
  end.

Definition reset (cx : Context2D) : Context2D :=
  mkContext2D identity "#000000".

Definition set_width (w : number) (cv : Canvas) : Canvas :=
  mkCanvas (to_ulong w) (cv_height cv) (fun _ _ => Transparent)
           (option_map reset (ctx cv)).

Definition set_height (h : number) (cv : Canvas) : Canvas :=
  mkCanvas (cv_width cv) (to_ulong h) (fun _ _ => Transparent)
           (option_map reset (ctx cv)).

End Canvas2D.

(** Styled elements. *)
Inductive Position : Type := Absolute | Fixed.

Inductive CssLength : Type :=
  | Px (q : Q)          (* `${q}px` *)
  | Percent (q : Q)     (* `${q}%` *)
  | Unitless0.          (* '0' *)

Record Element : Type := mkElement {
  classList : list string;
  style_position : option Position;
  style_top : option CssLength;
  style_width : option CssLength
}.

Module Dom.

(** [el.classList.add(c)] and [el.classList.remove(c)]. *)
Definition classList_add (c : string) (el : Element) : Element :=
  mkElement
    (if bool_decide (c ∈ classList el) then classList el else classList el ++ [c])
    (style_position el) (style_top el) (style_width el).

Definition classList_remove (c : string) (el : Element) : Element :=
  mkElement
    (filter (fun d => d ≠ c) (classList el))
    (style_position el) (style_top el) (style_width el).

(** [el.style.position = ...]. *)
Definition set_position (p : Position) (el : Element) : Element :=
  mkElement (classList el) (Some p) (style_top el) (style_width el).

(** [el.style.top = '0']. *)
Definition set_top_0 (el : Element) : Element :=
  mkElement (classList el) (style_position el) (Some Unitless0) (style_width el).

(** [el.style.top = `${n}px`]; a declaration that does not parse (the
    text of NaN or of an infinity) is dropped. *)
Definition set_top_px (n : number) (el : Element) : Element :=
  match n with
  | Fin q => mkElement (classList el) (style_position el) (Some (Px q)) (style_width el)
  | _ => el
  end.

(** [el.style.width = `${n}%`]; a declaration that does not parse, or a
    negative width, is dropped. *)
Definition set_width_percent (n : number) (el : Element) : Element :=
  match n with
  | Fin q =>
      if Qle_bool 0 q
      then mkElement (classList el) (style_position el) (style_top el) (Some (Percent q))
      else el
  | _ => el
  end.

End Dom.

(** The elements the class looks up: five by id in the constructor and in
    [preloadImages], the overlay by selector on every scroll.  A lookup
    that finds nothing is [None]. *)
Record Document : Type := mkDocument {
  contentWrapper : option Element;
  scrollIndicator : option Element;
  progressBar : option Element;
  scrollProgress : option Element;
  heroOverlay : option Element;
  preloader : option Element
}.

(** What the layout reports when a handler runs. *)
Record Layout : Type := mkLayout {
  innerWidth : Z;              (* window.innerWidth *)
  innerHeight : Z;             (* window.innerHeight *)
  devicePixelRatio : Q;        (* window.devicePixelRatio *)
  clientWidth : Z;             (* canvas.clientWidth *)
  clientHeight : Z;            (* canvas.clientHeight *)
  hero_top : Q;                (* heroContainer.getBoundingClientRect().top *)
  hero_offsetHeight : Z        (* heroContainer.offsetHeight *)
}.

(** Callbacks handed to [setTimeout], with their delay in milliseconds. *)
Inductive TimerAction : Type :=
  | HidePreloader
  | DelayedResize.

Record Timer : Type := mkTimer {
  delay : nat;
  action : TimerAction
}.

(** ** The player *)

Record Player : Type := mkPlayer {
  canvas : Canvas;
  document : Document;
  timers : list Timer;
  images : gmap nat Image;
  loadedCount : nat;
  currentFrame : number;
  isLoaded : bool;
  isAnimationComplete : bool;
  displayWidth : number;
  displayHeight : number;
  dpr : number
}.

Definition frameCount : nat := 192.

Definition set_canvas (cv : Canvas) (p : Player) : Player :=
  mkPlayer cv (document p) (timers p) (images p) (loadedCount p)
           (currentFrame p) (isLoaded p) (isAnimationComplete p)
           (displayWidth p) (displayHeight p) (dpr p).

Definition set_document (d : Document) (p : Player) : Player :=
  mkPlayer (canvas p) d (timers p) (images p) (loadedCount p)
           (currentFrame p) (isLoaded p) (isAnimationComplete p)
           (displayWidth p) (displayHeight p) (dpr p).

Definition set_timers (t : list Timer) (p : Player) : Player :=
  mkPlayer (canvas p) (document p) t (images p) (loadedCount p)
           (currentFrame p) (isLoaded p) (isAnimationComplete p)
           (displayWidth p) (displayHeight p) (dpr p).

Definition set_images (m : gmap nat Image) (p : Player) : Player :=
  mkPlayer (canvas p) (document p) (timers p) m (loadedCount p)
           (currentFrame p) (isLoaded p) (isAnimationComplete p)
           (displayWidth p) (displayHeight p) (dpr p).

Definition set_loadedCount (n : nat) (p : Player) : Player :=
  mkPlayer (canvas p) (document p) (timers p) (images p) n
           (currentFrame p) (isLoaded p) (isAnimationComplete p)
           (displayWidth p) (displayHeight p) (dpr p).

Definition set_currentFrame (f : number) (p : Player) : Player :=
  mkPlayer (canvas p) (document p) (timers p) (images p) (loadedCount p)
           f (isLoaded p) (isAnimationComplete p)
           (displayWidth p) (displayHeight p) (dpr p).

Definition set_isLoaded (b : bool) (p : Player) : Player :=
  mkPlayer (canvas p) (document p) (timers p) (images p) (loadedCount p)
           (currentFrame p) b (isAnimationComplete p)
           (displayWidth p) (displayHeight p) (dpr p).

Definition set_isAnimationComplete (b : bool) (p : Player) : Player :=
  mkPlayer (canvas p) (document p) (timers p) (images p) (loadedCount p)
           (currentFrame p) (isLoaded p) b
           (displayWidth p) (displayHeight p) (dpr p).

Definition set_display (w h r : number) (p : Player) : Player :=
  mkPlayer (canvas p) (document p) (timers p) (images p) (loadedCount p)
           (currentFrame p) (isLoaded p) (isAnimationComplete p) w h r.

(** [this.images[frameIndex]]: the slot, when the number names one. *)
Definition image_at (p : Player) (frameIndex : number) : option Image :=
  match Num.array_index frameIndex with
  | Some i => images p !! i
  | None => None
  end.

(** The cover fit of [drawFrame] (the four locals [drawWidth],
    [drawHeight], [offsetX], [offsetY]). *)
Record Fit : Type := mkFit {
  drawWidth : number;
  drawHeight : number;
  offsetX : number;
  offsetY : number
}.

Definition two : number := Fin 2%Q.

(** The fit as [drawFrame] computes it, in binary64. *)
Definition coverFit (img : Image) (canvasWidth canvasHeight : number) : Fit :=
  let imgAspect := B64.div (Num.of_N (img_width img)) (Num.of_N (img_height img)) in
  let canvasAspect := B64.div canvasWidth canvasHeight in
  let drawWidth :=
    if Num.gtb canvasAspect imgAspect then canvasWidth
    else B64.mul canvasHeight imgAspect in
  let drawHeight :=
    if Num.gtb canvasAspect imgAspect then B64.div canvasWidth imgAspect
    else canvasHeight in
  mkFit drawWidth drawHeight
        (B64.div (B64.sub canvasWidth drawWidth) two)
        (B64.div (B64.sub canvasHeight drawHeight) two).

(** The same fit without the rounding.  The bitmap is painted with this
    one: the rounded fit misses it by a relative [2^-52] at most, far less
    than the half pixel between a pixel centre and the edge of the fit, and
    reaches the same pixels (lemma [coverFit_reaches_every_pixel]). *)
Definition exactFit (img : Image) (canvasWidth canvasHeight : number) : Fit :=
  let imgAspect := Num.div (Num.of_N (img_width img)) (Num.of_N (img_height img)) in
  let canvasAspect := Num.div canvasWidth canvasHeight in
  let drawWidth :=
    if Num.gtb canvasAspect imgAspect then canvasWidth
    else Num.mul canvasHeight imgAspect in
  let drawHeight :=
    if Num.gtb canvasAspect imgAspect then Num.div canvasWidth imgAspect
    else canvasHeight in
  mkFit drawWidth drawHeight
        (Num.div (Num.sub canvasWidth drawWidth) two)
        (Num.div (Num.sub canvasHeight drawHeight) two).

Definition background : string := "#0f0f0f".

(** The body of [drawFrame] below its first line: what is painted for the
    image of the slot through the context. *)
Definition paintFrame (env : Layout) (img : Image) (cx0 : Context2D) (p : Player) : Canvas :=
  let dpr := Num.or (Num.or (dpr p) (Fin (devicePixelRatio env))) Num.one in
  let canvasWidth := Num.or (displayWidth p) (Num.of_Z (innerWidth env)) in
  let canvasHeight := Num.or (displayHeight p) (Num.of_Z (innerHeight env)) in
  let cv0 := canvas p in
  let cx1 :=
    Canvas2D.setTransform Num.one Num.zero Num.zero Num.one Num.zero Num.zero cx0 in
  let cv1 :=
    Canvas2D.clearRect Num.zero Num.zero
      (Num.of_Z (cv_width cv0)) (Num.of_Z (cv_height cv0)) cx1 cv0 in
  let cx2 := Canvas2D.set_fillStyle background cx1 in
  let cv2 :=
    Canvas2D.fillRect Num.zero Num.zero
      (Num.of_Z (cv_width cv1)) (Num.of_Z (cv_height cv1)) cx2 cv1 in
  let cx3 := Canvas2D.scale dpr dpr cx2 in
  if negb (Num.truthy (Num.of_N (img_width img)))
     || negb (Num.truthy (Num.of_N (img_height img)))
  then Canvas2D.with_ctx cv2 cx3
  else
    let fit := exactFit img canvasWidth canvasHeight in
    let cv3 :=
      Canvas2D.drawImage img (offsetX fit) (offsetY fit)
        (drawWidth fit) (drawHeight fit) cx3 cv2 in
    Canvas2D.with_ctx cv3 cx3.

(** [drawFrame(frameIndex)]: nothing without the image of the slot or
    without a context. *)
Definition drawFrame (env : Layout) (frameIndex : number) (p : Player) : Player :=
  match image_at p frameIndex, ctx (canvas p) with
  | Some img, Some cx0 => set_canvas (paintFrame env img cx0 p) p
  | _, _ => p
  end.

(** The [resize] closure of [setupCanvas]. *)
Definition resize (env : Layout) (p : Player) : Player :=
  let displayWidth := Num.or (Num.of_Z (clientWidth env)) (Num.of_Z (innerWidth env)) in
  let displayHeight := Num.or (Num.of_Z (clientHeight env)) (Num.of_Z (innerHeight env)) in
  let dpr := Num.or (Fin (devicePixelRatio env)) Num.one in
  let cv :=
    Canvas2D.set_height (Num.mul displayHeight dpr)
      (Canvas2D.set_width (Num.mul displayWidth dpr) (canvas p)) in
  let p' := set_display displayWidth displayHeight dpr (set_canvas cv p) in
  if isLoaded p' && bool_decide (is_Some (image_at p' (currentFrame p')))
  then drawFrame env (currentFrame p') p'
  else p'.

(** [firstImage.onload] of [preloadImages]. *)
Definition firstImage_onload (env : Layout) (firstImage : Image) (p : Player) : Player :=
  drawFrame env Num.zero (set_images (<[0%nat := firstImage]> (images p)) p).

(** [img.onload] of the loop of [preloadImages], for the image of index
    [i].  (The local [percent] is computed and never used.) *)
Definition img_onload (env : Layout) (i : nat) (img : Image) (p : Player) : Player :=
  let p1 := set_images (<[i := img]> (images p)) p in
  let p2 := set_loadedCount (S (loadedCount p1)) p1 in
  if Nat.eqb (loadedCount p2) frameCount
  then
    let p3 := set_isLoaded true p2 in
    let p4 := drawFrame env Num.zero p3 in
    set_timers (timers p4 ++ [mkTimer 500 HidePreloader]) p4
  else p2.

(** [img.onerror] of the loop (the warning on the console is not part of
    the state). *)
Definition img_onerror (i : nat) (p : Player) : Player :=
  set_loadedCount (S (loadedCount p)) p.

(** The body of a timer callback. *)
Definition run_timer (env : Layout) (a : TimerAction) (p : Player) : Player :=
  match a with
  | HidePreloader =>
      let d := document p in
      set_document
        (mkDocument (contentWrapper d) (scrollIndicator d) (progressBar d)
                    (scrollProgress d) (heroOverlay d)
                    (option_map (Dom.classList_add "hidden") (preloader d))) p
  | DelayedResize => resize env p
  end.

(** The listener of [orientationchange]: [setTimeout(resize, 100)]. *)
Definition on_orientationchange (p : Player) : Player :=
  set_timers (timers p ++ [mkTimer 100 DelayedResize]) p.

(** The locals of [handleScroll]. *)
Definition hundred : number := Fin 100%Q.
Definition threshold : number := Fin (5 # 100)%Q.

Definition maxScroll (env : Layout) : number :=
  Num.sub (Num.of_Z (hero_offsetHeight env)) (Num.of_Z (innerHeight env)).

(** The quotient [scrolled / maxScroll]. *)
Definition ratio (env : Layout) : number :=
  let scrolled := Num.neg (Fin (hero_top env)) in
  Num.div scrolled (maxScroll env).

Definition progress (env : Layout) : number :=
  Num.min (Num.max (ratio env) Num.zero) Num.one.

(** [Math.floor(progress * (this.frameCount - 1))].  The argument is the
    progress as a rational; the code holds the double nearest to it (the
    rounded quotient, clamped: lemma [round_progress]) and multiplies in
    binary64. *)
Definition targetFrame (progress : number) : number :=
  Num.floor (B64.mul (B64.round progress)
                     (Num.sub (Num.of_nat frameCount) Num.one)).

Definition newFrame (progress : number) : number :=
  Num.min (Num.max (targetFrame progress) Num.zero)
          (Num.sub (Num.of_nat frameCount) Num.one).

(** The positioning written on the overlay and on the content wrapper. *)
Definition pin (env : Layout) (progress : number) (el : Element) : Element :=
  if Num.geb progress Num.one
  then Dom.set_top_px (maxScroll env) (Dom.set_position Absolute el)
  else Dom.set_top_0 (Dom.set_position Fixed el).

(** [handleScroll()]. *)
Definition handleScroll (env : Layout) (p : Player) : Player :=
  if negb (isLoaded p) then p
  else
    let progress := progress env in
    let newFrame := newFrame progress in
    let p1 :=
      if negb (Num.eqb newFrame (currentFrame p))
         && bool_decide (is_Some (image_at p newFrame))
      then drawFrame env newFrame (set_currentFrame newFrame p)
      else p in
    let d := document p1 in
    let progressBar' :=
      option_map (Dom.set_width_percent (Num.mul progress hundred)) (progressBar d) in
    let scrollProgress' :=
      option_map
        (if Num.gtb progress Num.zero && Num.ltb progress Num.one
         then Dom.classList_add "visible"
         else Dom.classList_remove "visible")
        (scrollProgress d) in
    let contentWrapper' :=
      option_map
        (if Num.gtb progress threshold
         then Dom.classList_add "fade-out"
         else Dom.classList_remove "fade-out")
        (contentWrapper d) in
    let scrollIndicator' :=
      option_map
        (if Num.gtb progress threshold
         then Dom.classList_add "hidden"
         else Dom.classList_remove "hidden")
        (scrollIndicator d) in
    let heroOverlay' := option_map (pin env progress) (heroOverlay d) in
    let p2 :=
      match heroOverlay d with
      | Some _ => set_isAnimationComplete (Num.geb progress Num.one) p1
      | None => p1
      end in
    let contentWrapper'' := option_map (pin env progress) contentWrapper' in
    set_document
      (mkDocument contentWrapper'' scrollIndicator' progressBar'
                  scrollProgress' heroOverlay' (preloader d)) p2.

(** The constructor: the fields, then [init()], whose [setupCanvas] runs
    [resize] once; [preloadImages] and [bindEvents] only install callbacks.
    [displayWidth], [displayHeight] and [dpr] are undefined until that first
    [resize]; they start here as NaN, which is falsy as undefined is. *)
Definition blank_canvas (has_ctx : bool) : Canvas :=
  mkCanvas 300 150 (fun _ _ => Transparent)
           (if has_ctx then Some (mkContext2D Canvas2D.identity "#000000") else None).

Definition constructor (env : Layout) (has_ctx : bool) (d : Document) : Player :=
  resize env
    (mkPlayer (blank_canvas has_ctx) d [] ∅ 0%nat Num.zero false false NaN NaN NaN).

(** ** Events *)

Inductive Event : Type :=
  | FirstImageLoaded (img : Image)
  | ImageLoaded (i : nat) (img : Image)
  | ImageFailed (i : nat)
  | Resized
  | OrientationChanged
  | TimerFired (k : nat)    (* the k-th pending timer comes due *)
  | ScrollFrame.

Definition dispatch (env : Layout) (ev : Event) (p : Player) : Player :=
  match ev with
  | FirstImageLoaded img => firstImage_onload env img p
  | ImageLoaded i img => img_onload env i img p
  | ImageFailed i => img_onerror i p
  | Resized => resize env p
  | OrientationChanged => on_orientationchange p
  | TimerFired k =>
      match timers p !! k with
      | Some t => run_timer env (action t) (set_timers (delete k (timers p)) p)
      | None => p
      end
  | ScrollFrame => handleScroll env p
  end.

(** The loop of [preloadImages] creates the images of indices below
    [frameCount] only. *)
Definition well_formed (ev : Event) : Prop :=
  match ev with
  | ImageLoaded i _ | ImageFailed i => (i < frameCount)%nat
  | _ => True
  end.

Inductive reachable : Player -> Prop :=
  | reach_new env has_ctx d : reachable (constructor env has_ctx d)
  | reach_step env ev p :
      reachable p -> well_formed ev -> reachable (dispatch env ev p).

(** Running a list of events, each under the layout of its time. *)
Definition run (evs : list (Layout * Event)) (p : Player) : Player :=
  fold_left (fun q ev => dispatch (fst ev) (snd ev) q) evs p.

(** ** Notions used by the statements *)

(** The aspect ratio of an image, as a rational. *)
Definition aspect (img : Image) : Q :=
  inject_Z (Z.of_N (img_width img)) / inject_Z (Z.of_N (img_height img)).

(** The density factor, the logical size and the zero-dimension test that
    [drawFrame] works with. *)
Definition density (env : Layout) (p : Player) : number :=
  Num.or (Num.or (dpr p) (Fin (devicePixelRatio env))) Num.one.

Definition logicalWidth (env : Layout) (p : Player) : number :=
  Num.or (displayWidth p) (Num.of_Z (innerWidth env)).

Definition logicalHeight (env : Layout) (p : Player) : number :=
  Num.or (displayHeight p) (Num.of_Z (innerHeight env)).

Definition degenerate (img : Image) : bool :=
  negb (Num.truthy (Num.of_N (img_width img)))
  || negb (Num.truthy (Num.of_N (img_height img))).

(** The context that [drawFrame] leaves behind: the identity scaled by the
    density, and the fallback colour as fill style. *)
Definition painted_ctx (r : number) : Context2D :=
  Canvas2D.scale r r
    (Canvas2D.set_fillStyle background
       (mkContext2D Canvas2D.identity background)).

(** The pixel is reached by a paint over the whole bitmap under the
    identity. *)
Definition whole (cv : Canvas) (px py : Z) : bool :=
  Canvas2D.hits cv Canvas2D.identity Num.zero Num.zero
    (Num.of_Z (cv_width cv)) (Num.of_Z (cv_height cv)) px py.

(** The colour that [drawFrame] leaves on a pixel that had colour [c]. *)
Definition repaint (env : Layout) (img : Image) (p : Player)
    (px py : Z) (c : Color) : Color :=
  let base := if whole (canvas p) px py then Paint background else c in
  if degenerate img then base
  else
    let m := transform (painted_ctx (density env p)) in
    let fit := exactFit img (logicalWidth env p) (logicalHeight env p) in
    if Canvas2D.hits (canvas p) m (offsetX fit) (offsetY fit)
         (drawWidth fit) (drawHeight fit) px py
    then
      let u := Canvas2D.user_point m px py in
      match Num.mul (Num.div (Num.sub (fst u) (offsetX fit)) (drawWidth fit))
                    (Num.of_N (img_width img)),
            Num.mul (Num.div (Num.sub (snd u) (offsetY fit)) (drawHeight fit))
                    (Num.of_N (img_height img)) with
      | Fin sx, Fin sy => over (img_texel img sx sy) base
      | _, _ => base
      end
    else base.

Definition is_callback (ev : Event) : Prop :=
  match ev with
  | ImageLoaded _ _ | ImageFailed _ => True
  | _ => False
  end.

(** The invariant on [currentFrame]: it is the initial 0, or the index of
    a loaded slot of the frame set. *)
Definition frame_invariant (p : Player) : Prop :=
  currentFrame p = Num.zero \/
  exists i : nat,
    Num.array_index (currentFrame p) = Some i /\
    (i < frameCount)%nat /\
    is_Some (images p !! i).


(** ** Sample frames, layouts and event schedules *)

(** [getFramePath(index)]: the 1-based frame number on three digits. *)
Definition padStart (n : nat) (c : Ascii.ascii) (s : string) : string :=
  String.concat "" (replicate (n - String.length s) (String c "")) +:+ s.

Definition getFramePath (index : nat) : string :=
  "hero_images/ezgif-frame-" +:+ padStart 3 "0"%char (pretty (index + 1)%nat) +:+ ".jpg".

(** A decoded 1920 x 1080 frame, painted in one colour named after its
    path. *)
Definition frame_image (i : nat) : Image :=
  mkImage (getFramePath i) 1920 1080 (fun _ _ => Paint (getFramePath i)).

(** A frame that decoded with no width and no height. *)
Definition empty_image (i : nat) : Image :=
  mkImage (getFramePath i) 0 0 (fun _ _ => Transparent).

(** A decoded 1400 x 1000 picture. *)
Definition image_1400x1000 : Image :=
  mkImage "1400x1000" 1400 1000 (fun _ _ => Paint "1400x1000").

Definition plain : Element := mkElement [] None None None.

Definition page : Document :=
  mkDocument (Some plain) (Some plain) (Some plain) (Some plain) (Some plain)
             (Some plain).

(** A 1280 x 800 viewport at density 1 over a hero section 991 pixels
    high, so that [maxScroll] is 191 and a top of [-(k + 1/2)] is a
    position in the middle of the range of frame [k]. *)
Definition layout_at (k : Z) : Layout :=
  mkLayout 1280 800 1 1280 800 (- (2 * k + 1) # 2) 991.

(** A hero section exactly as tall as the viewport, with the page at its
    top. *)
Definition layout_flat : Layout :=
  mkLayout 1280 800 1 1280 800 0 800.

(** The callbacks of the loop in index order, the frame [k] failing. *)
Definition callback (k i : nat) : Event :=
  if Nat.eqb i k then ImageFailed i else ImageLoaded i (frame_image i).

Definition in_order_but (k : nat) : list Event :=
  map (callback k) (seq 0 frameCount).

(** The same callbacks, the failure of frame [k] arriving last. *)
Definition failure_last (k : nat) : list Event :=
  List.filter (fun ev => match ev with ImageFailed _ => false | _ => true end)
              (in_order_but k)
  ++ [ImageFailed k].

Definition at_layout (env : Layout) (evs : list Event) : list (Layout * Event) :=
  map (fun ev => (env, ev)) evs.

Definition fresh : Player := constructor (layout_at 0) true page.

(** Frame 50 fails, the others load; the set is ready. *)
Definition ready_without_50 : Player :=
  run (at_layout (layout_at 0) (in_order_but 50)) fresh.

(** The ready player after a scroll to the position of frame 49, and after
    a scroll to the position of frame 51. *)
Definition came_from_49 : Player :=
  dispatch (layout_at 49) ScrollFrame ready_without_50.


(** The same page scrolled by exactly [k] pixels: the quotient [k / 191]
    times 191 is [k] again, but not always in binary64. *)
Definition layout_px (k : Z) : Layout :=
  mkLayout 1280 800 1 1280 800 (inject_Z (- k)) 991.

(** The offsets of that page at which the rounded product falls below
    the integer. *)
Definition one_short : list Z := [7; 14; 28; 56; 101; 103; 112; 121; 123].

(** All the frames load, in index order, frame 10 with no dimensions; the
    set is ready and frame 0 is on the canvas. *)
Definition ready_with_empty_10 : Player :=
  run (at_layout (layout_at 0)
         (map (fun i => ImageLoaded i
                 (if Nat.eqb i 10 then empty_image i else frame_image i))
              (seq 0 frameCount)))
      fresh.

(** ** More notions used by the statements *)

(** The document that a scroll evaluation of a ready player leaves. *)
Definition scrolled_document (env : Layout) (d : Document) : Document :=
  let pr := progress env in
  mkDocument
    (option_map (pin env pr)
       (option_map
          (if Num.gtb pr threshold
           then Dom.classList_add "fade-out"
           else Dom.classList_remove "fade-out")
          (contentWrapper d)))
    (option_map
       (if Num.gtb pr threshold
        then Dom.classList_add "hidden"
        else Dom.classList_remove "hidden")
       (scrollIndicator d))
    (option_map (Dom.set_width_percent (Num.mul pr hundred)) (progressBar d))
    (option_map
       (if Num.gtb pr Num.zero && Num.ltb pr Num.one
        then Dom.classList_add "visible"
        else Dom.classList_remove "visible")
       (scrollProgress d))
    (option_map (pin env pr) (heroOverlay d))
    (preloader d).

(** The two players draw on surfaces of the same size and density, each
    through a context. *)
Definition same_surface (p q : Player) : Prop :=
  cv_width (canvas p) = cv_width (canvas q) /\
  cv_height (canvas p) = cv_height (canvas q) /\
  displayWidth p = displayWidth q /\
  displayHeight p = displayHeight q /\
  dpr p = dpr q /\
  is_Some (ctx (canvas p)) /\
  is_Some (ctx (canvas q)).

(** The timers that hide the preloader, among the pending ones. *)
Definition hide_timers (l : list Timer) : list Timer :=
  List.filter (fun t => match action t with HidePreloader => true | _ => false end) l.

(** The two steps of [handleScroll] on the player itself: the frame, then
    the completion flag. *)
Definition frame_step (env : Layout) (p : Player) : Player :=
  if negb (Num.eqb (newFrame (progress env)) (currentFrame p))
     && bool_decide (is_Some (image_at p (newFrame (progress env))))
  then drawFrame env (newFrame (progress env))
         (set_currentFrame (newFrame (progress env)) p)
  else p.

Definition flag_step (env : Layout) (d : Document) (p : Player) : Player :=
  match heroOverlay d with
  | Some _ => set_isAnimationComplete (Num.geb (progress env) Num.one) p
  | None => p
  end.

(** The preloader element carries the class that hides it. *)
Definition preloader_hidden (p : Player) : Prop :=
  exists el : Element,
    preloader (document p) = Some el /\ "hidden" ∈ classList el.

(** [k] copies of the digit 0, the padding of [padStart]. *)
Definition zeros (k : nat) : string := String.concat "" (replicate k "0").

(** The player as [resize] leaves it before the redraw: the bitmap sized
    to the display size times the density, and the three display fields. *)
Definition resized (env : Layout) (p : Player) : Player :=
  let displayWidth := Num.or (Num.of_Z (clientWidth env)) (Num.of_Z (innerWidth env)) in
  let displayHeight := Num.or (Num.of_Z (clientHeight env)) (Num.of_Z (innerHeight env)) in
  let dpr := Num.or (Fin (devicePixelRatio env)) Num.one in
  set_display displayWidth displayHeight dpr
    (set_canvas
       (Canvas2D.set_height (Num.mul displayHeight dpr)
          (Canvas2D.set_width (Num.mul displayWidth dpr) (canvas p)))
       p).

(** ** [bindEvents]: scroll events and animation frames *)

(** The player with the [ticking] flag of [bindEvents] and the number of
    callbacks waiting in the animation-frame queue. *)
Record Bound : Type := mkBound {
  player : Player;
  ticking : bool;
  queued : nat
}.

(** The listener of [scroll]. *)
Definition on_scroll (b : Bound) : Bound :=
  if negb (ticking b)
  then mkBound (player b) true (S (queued b))
  else b.

(** One callback given to [requestAnimationFrame]. *)
Definition frame_callback (env : Layout) (b : Bound) : Bound :=
  mkBound (handleScroll env (player b)) false (queued b).

(** An animation frame: the browser runs the callbacks that wait. *)
Definition on_frame (env : Layout) (b : Bound) : Bound :=
  let b' := Nat.iter (queued b) (frame_callback env) b in
  mkBound (player b') (ticking b') 0.

Definition bound (p : Player) : Bound := mkBound p false 0.

Inductive BoundEvent : Type :=
  | ScrollEvent
  | AnimationFrame (env : Layout).

Definition bound_step (b : Bound) (ev : BoundEvent) : Bound :=
  match ev with
  | ScrollEvent => on_scroll b
  | AnimationFrame env => on_frame env b
  end.

(** A callback waits exactly while [ticking] is set. *)
Definition throttled (b : Bound) : Prop :=
  queued b = if ticking b then 1%nat else 0%nat.

(** * The rest of the page script

    The other widgets of script.js, each over the state it reads and
    writes.  Indices are JavaScript numbers, as in the player. *)

(** [a % b] and [Math.abs(a)]. *)
Module JsMath.

(** The integer part of a rational, towards zero. *)
Definition trunc (q : Q) : Z := Z.quot (Qnum q) (Z.pos (Qden q)).

(** [a % b]: the remainder has the sign of the dividend; NaN when the
    dividend is not finite or the divisor is zero. *)
Definition rem (a b : number) : number :=
  match a, b with
  | Fin x, Fin y =>
      if Qeq_bool y 0 then NaN
      else Fin (x - y * inject_Z (trunc (x / y)))%Q
  | Fin _, PosInf | Fin _, NegInf => a
  | _, _ => NaN
  end.

(** [a <= b]. *)
Definition leb (a b : number) : bool := Num.ltb a b || Num.eqb a b.

Definition abs (a : number) : number :=
  match a with
  | NaN => NaN
  | Fin q => if Num.ltb a Num.zero then Num.neg a else a
  | _ => PosInf
  end.

End JsMath.

(** The number is the integer [z]. *)
Definition is_int (a : number) (z : Z) : Prop :=
  exists q : Q, a = Fin q /\ (q == inject_Z z)%Q.

(** A string, or [undefined]. *)
Inductive Value : Type :=
  | Undefined
  | Str (s : string).

(** How a handler ends, with the state it leaves: it returns, or it stops
    on a TypeError (a property read on [null] or [undefined]). *)
Inductive Outcome (A : Type) : Type :=
  | Returned (a : A)
  | Threw (a : A).

Arguments Returned {A} a.
Arguments Threw {A} a.

Definition state_of {A : Type} (o : Outcome A) : A :=
  match o with
  | Returned a | Threw a => a
  end.

(** ** The gallery lightbox ([Lightbox]) *)

Module Lightbox.

(** ToBoolean on [item.dataset.src]. *)
Definition truthy (v : Value) : bool :=
  match v with
  | Undefined => false
  | Str s => bool_decide (s <> EmptyString)
  end.

(** The lightbox element and its image exist (the class is constructed
    only with the first, and [open] needs the second). *)
Record State : Type := mk {
  lightbox : Element;            (* elements.lightbox *)
  img_src : Value;               (* the value last assigned to this.img.src *)
  body_overflow : option string; (* document.body.style.overflow *)
  galleryItems : list Value;     (* item.dataset.src of every .gallery-item *)
  currentIndex : number;
  images : list string
}.

(** The loop of [init]: the sources that are set, in document order. *)
Fixpoint sources (items : list Value) : list string :=
  match items with
  | [] => []
  | Undefined :: rest => sources rest
  | Str s :: rest => if truthy (Str s) then s :: sources rest else sources rest
  end.

Definition constructor (lightbox : Element) (img_src : Value)
    (body_overflow : option string) (galleryItems : list Value) : State :=
  mk lightbox img_src body_overflow galleryItems Num.zero (sources galleryItems).

(** [this.images[index]]. *)
Definition image_at (st : State) (index : number) : Value :=
  match Num.array_index index with
  | Some i =>
      match images st !! i with
      | Some s => Str s
      | None => Undefined
      end
  | None => Undefined
  end.

(** [open(index)]. *)
Definition open (index : number) (st : State) : State :=
  mk (Dom.classList_add "active" (lightbox st))
     (image_at st index)
     (Some "hidden")
     (galleryItems st) index (images st).

(** [close()]. *)
Definition close (st : State) : State :=
  mk (Dom.classList_remove "active" (lightbox st))
     (img_src st) (Some "auto") (galleryItems st) (currentIndex st) (images st).

Definition show (index : number) (st : State) : State :=
  mk (lightbox st) (image_at st index) (body_overflow st)
     (galleryItems st) index (images st).

(** [prev()] and [next()]. *)
Definition prev (st : State) : State :=
  let n := Num.of_nat (length (images st)) in
  show (JsMath.rem (Num.add (Num.sub (currentIndex st) Num.one) n) n) st.

Definition next (st : State) : State :=
  let n := Num.of_nat (length (images st)) in
  show (JsMath.rem (Num.add (currentIndex st) Num.one) n) st.

(** The listeners of [init].  An item has a click listener only when its
    source is set, and the listener opens the position of the item among
    all the gallery items. *)
Inductive Event : Type :=
  | ClickItem (k : nat)
  | ClickClose
  | ClickPrev
  | ClickNext
  | ClickBackground
  | KeyDown (key : string).

Definition dispatch (ev : Event) (st : State) : State :=
  match ev with
  | ClickItem k =>
      match galleryItems st !! k with
      | Some v => if truthy v then open (Num.of_nat k) st else st
      | None => st
      end
  | ClickClose | ClickBackground => close st
  | ClickPrev => prev st
  | ClickNext => next st
  | KeyDown key =>
      if negb (bool_decide ("active" ∈ classList (lightbox st))) then st
      else
        let st1 := if bool_decide (key = "Escape") then close st else st in
        let st2 := if bool_decide (key = "ArrowLeft") then prev st1 else st1 in
        if bool_decide (key = "ArrowRight") then next st2 else st2
  end.

End Lightbox.

(** ** The testimonials carousel ([TestimonialsCarousel]) *)

Module Carousel.

(** What the layout reports when a handler runs. *)
Record Env : Type := mkEnv {
  innerWidth : Z;           (* window.innerWidth *)
  card_offsetWidth : Z      (* this.cards[0].offsetWidth, when there is a card *)
}.

Record State : Type := mk {
  n_cards : nat;                (* this.cards.length *)
  currentIndex : number;
  cardsToShow : number;
  track_transform : option Q;   (* track.style.transform, as translateX(q px) *)
  touchStartX : number
}.

Definition getCardsToShow (env : Env) : number :=
  if Num.ltb (Num.of_Z (innerWidth env)) (Num.of_Z 768) then Num.one
  else if Num.ltb (Num.of_Z (innerWidth env)) (Num.of_Z 992) then Fin 2%Q
  else Fin 3%Q.

(** The constructor ([init] only installs the listeners). *)
Definition constructor (env : Env) (n_cards : nat) (track_transform : option Q) : State :=
  mk n_cards Num.zero (getCardsToShow env) track_transform Num.zero.

(** [track.style.transform = `translateX(${offset}px)`]; a declaration
    that does not parse (the text of NaN or of an infinity) is dropped. *)
Definition set_transform (offset : number) (st : State) : State :=
  match offset with
  | Fin q => mk (n_cards st) (currentIndex st) (cardsToShow st) (Some q) (touchStartX st)
  | _ => st
  end.

Definition set_currentIndex (i : number) (st : State) : State :=
  mk (n_cards st) i (cardsToShow st) (track_transform st) (touchStartX st).

(** [goTo(index)]: with no card, [this.cards[0].offsetWidth] stops the
    call after the assignment of [currentIndex]. *)
Definition goTo (env : Env) (index : number) (st : State) : Outcome State :=
  let maxIndex := Num.sub (Num.of_nat (n_cards st)) (cardsToShow st) in
  let st1 := set_currentIndex (Num.max Num.zero (Num.min index maxIndex)) st in
  match n_cards st with
  | O => Threw st1
  | S _ =>
      let cardWidth := Num.add (Num.of_Z (card_offsetWidth env)) (Fin 30%Q) in
      let offset := Num.mul (Num.neg (currentIndex st1)) cardWidth in
      Returned (set_transform offset st1)
  end.

Definition next (env : Env) (st : State) : Outcome State :=
  goTo env (Num.add (currentIndex st) Num.one) st.

Definition prev (env : Env) (st : State) : Outcome State :=
  goTo env (Num.sub (currentIndex st) Num.one) st.

(** [handleSwipe(startX, endX)]. *)
Definition handleSwipe (env : Env) (startX endX : number) (st : State) : Outcome State :=
  let threshold := Fin 50%Q in
  let diff := Num.sub startX endX in
  if Num.gtb (JsMath.abs diff) threshold
  then if Num.gtb diff Num.zero then next env st else prev env st
  else Returned st.

(** The listeners of [init]. *)
Inductive Event : Type :=
  | ClickPrev
  | ClickNext
  | Resize
  | TouchStart (screenX : Q)
  | TouchEnd (screenX : Q).

Definition dispatch (env : Env) (ev : Event) (st : State) : Outcome State :=
  match ev with
  | ClickPrev => prev env st
  | ClickNext => next env st
  | Resize =>
      goTo env Num.zero
        (mk (n_cards st) (currentIndex st) (getCardsToShow env)
            (track_transform st) (touchStartX st))
  | TouchStart x =>
      Returned (mk (n_cards st) (currentIndex st) (cardsToShow st)
                   (track_transform st) (Fin x))
  | TouchEnd x => handleSwipe env (touchStartX st) (Fin x) st
  end.

(** A run of events; the state goes on after a handler that threw. *)
Definition run (evs : list (Env * Event)) (st : State) : State :=
  fold_left (fun s ev => state_of (dispatch (fst ev) (snd ev) s)) evs st.

(** The range of the index: an integer from 0 to the last position that
    still fills the window of [cardsToShow] cards. *)
Definition in_range (st : State) : Prop :=
  exists z show : Z,
    is_int (currentIndex st) z /\
    is_int (cardsToShow st) show /\
    (1 <= show <= 3)%Z /\
    (0 <= z <= Z.max 0 (Z.of_nat (n_cards st) - show))%Z.

End Carousel.

(** ** The accordion *)

Module Accordion.

Record Item : Type := mkItem {
  item : Element;         (* the .accordion-item *)
  has_header : bool       (* it has an .accordion-header *)
}.

Definition set_item (f : Element -> Element) (it : Item) : Item :=
  mkItem (f (item it)) (has_header it).

(** The click listener of the header of the item of position [k]. *)
Definition click (k : nat) (items : list Item) : list Item :=
  match items !! k with
  | Some it =>
      if has_header it
      then
        let isActive := bool_decide ("active" ∈ classList (item it)) in
        let closed := map (set_item (Dom.classList_remove "active")) items in
        if negb isActive
        then alter (set_item (Dom.classList_add "active")) k closed
        else closed
      else items
  | None => items
  end.

(** The item is open. *)
Definition active (it : Item) : Prop := "active" ∈ classList (item it).

End Accordion.

(** ** The header, the navigation links and the button back to the top *)

Module Page.

(** A [section[id]] of the page, with what the layout reports for it. *)
Record Sect : Type := mkSect {
  sect_id : string;       (* section.getAttribute('id') *)
  offsetTop : Z;
  offsetHeight : Z
}.

Record Link : Type := mkLink {
  href : option string;   (* link.getAttribute('href'), null without the attribute *)
  link : Element
}.

Record State : Type := mk {
  header : option Element;       (* elements.header *)
  backToTop : option Element;    (* elements.backToTop *)
  navLinks : list Link;          (* elements.navLinks *)
  lastScroll : number
}.

(** The test of [updateActiveNavLink] on a section. *)
Definition in_band (scrollY : number) (s : Sect) : bool :=
  let sectionHeight := Num.of_Z (offsetHeight s) in
  let sectionTop := Num.sub (Num.of_Z (offsetTop s)) (Fin 100%Q) in
  Num.gtb scrollY sectionTop && JsMath.leb scrollY (Num.add sectionTop sectionHeight).

(** The body of the inner loop, on one link. *)
Definition mark (sectionId : string) (l : Link) : Link :=
  let el := Dom.classList_remove "active" (link l) in
  mkLink (href l)
         (if bool_decide (href l = Some ("#" +:+ sectionId))
          then Dom.classList_add "active" el
          else el).

(** [updateActiveNavLink()], the sections in document order. *)
Definition updateActiveNavLink (sections : list Sect) (scrollY : number)
    (links : list Link) : list Link :=
  fold_left
    (fun ls s => if in_band scrollY s then map (mark (sect_id s)) ls else ls)
    sections links.

(** The scroll listener of the window, at [window.pageYOffset = y].  A
    missing header stops it at its first statement, a missing button after
    the links have been updated. *)
Definition on_scroll (sections : list Sect) (y : Q) (st : State) : Outcome State :=
  let currentScroll := Fin y in
  match header st with
  | None => Threw st
  | Some h =>
      let h' :=
        (if Num.gtb currentScroll (Fin 50%Q)
         then Dom.classList_add "scrolled"
         else Dom.classList_remove "scrolled") h in
      let links := updateActiveNavLink sections currentScroll (navLinks st) in
      match backToTop st with
      | None => Threw (mk (Some h') None links (lastScroll st))
      | Some b =>
          let b' :=
            (if Num.gtb currentScroll (Fin 500%Q)
             then Dom.classList_add "visible"
             else Dom.classList_remove "visible") b in
          Returned (mk (Some h') (Some b') links currentScroll)
      end
  end.

(** The sections whose band holds the scroll position. *)
Definition in_bands (sections : list Sect) (y : Q) : list Sect :=
  List.filter (in_band (Fin y)) sections.

End Page.

(** ** The toast ([showToast]) *)

Module Toast.

(** The toast element and its span exist.  Time is in milliseconds. *)
Record State : Type := mk {
  toast : Element;        (* elements.toast *)
  message : string;       (* the text of its span *)
  pending : list nat;     (* when the timers set by showToast come due *)
  now : nat
}.

(** [showToast(message)]. *)
Definition showToast (msg : string) (st : State) : State :=
  mk (Dom.classList_add "show" (toast st)) msg
     (pending st ++ [(now st + 3000)%nat]) (now st).

(** The clock reaches [t]: the timers due by then have run, each removing
    the class. *)
Definition advance (t : nat) (st : State) : State :=
  let due := List.filter (fun d => (d <=? t)%nat) (pending st) in
  mk (fold_left (fun el _ => Dom.classList_remove "show" el) due (toast st))
     (message st)
     (List.filter (fun d => negb (d <=? t)%nat) (pending st))
     (Nat.max (now st) t).

Definition shown (st : State) : Prop := "show" ∈ classList (toast st).

End Toast.

(** ** The forms ([validateForm]) *)

Module Form.

(** The value of an input is a JavaScript string, a sequence of UTF-16
    code units.  [is_space] is the class [\s] of a regular expression, which
    is also what [trim] removes: WhiteSpace and LineTerminator. *)
Definition white_space : list N :=
  [9; 10; 11; 12; 13; 32; 160; 5760; 8192; 8193; 8194; 8195; 8196; 8197; 8198;
   8199; 8200; 8201; 8202; 8232; 8233; 8239; 8287; 12288; 65279]%N.

Definition is_space (c : N) : bool := existsb (N.eqb c) white_space.

(** The class [\d]. *)
Definition is_digit (c : N) : bool := (48 <=? c)%N && (c <=? 57)%N.

(** Regular expressions over code units, with the derivative that is
    needed to run them.  The two expressions of [validateForm] are anchored
    at both ends and have neither groups nor references, so [test] on them
    says whether the whole string is in the language. *)
Inductive Regex : Type :=
  | Void
  | Eps
  | Class (p : N -> bool)
  | Cat (r s : Regex)
  | Alt (r s : Regex)
  | Star (r : Regex).

Fixpoint nullable (r : Regex) : bool :=
  match r with
  | Void => false
  | Eps => true
  | Class _ => false
  | Cat r s => nullable r && nullable s
  | Alt r s => nullable r || nullable s
  | Star _ => true
  end.

Fixpoint deriv (c : N) (r : Regex) : Regex :=
  match r with
  | Void => Void
  | Eps => Void
  | Class p => if p c then Eps else Void
  | Cat r s =>
      Alt (Cat (deriv c r) s) (if nullable r then deriv c s else Void)
  | Alt r s => Alt (deriv c r) (deriv c s)
  | Star r => Cat (deriv c r) (Star r)
  end.

(** [regex.test(s)] for an expression anchored at both ends. *)
Definition test (r : Regex) (s : list N) : bool :=
  nullable (fold_left (fun r c => deriv c r) s r).

(** [r+] and [r{n,}]. *)
Definition plus (r : Regex) : Regex := Cat r (Star r).
Definition at_least (n : nat) (r : Regex) : Regex := Nat.iter n (Cat r) (Star r).

(** [[^\s@]]. *)
Definition not_space_at (c : N) : bool := negb (is_space c || (c =? 64)%N).

(** [/^[^\s@]+@[^\s@]+\.[^\s@]+$/]. *)
Definition emailRegex : Regex :=
  Cat (plus (Class not_space_at))
    (Cat (Class (N.eqb 64))
       (Cat (plus (Class not_space_at))
          (Cat (Class (N.eqb 46))
             (plus (Class not_space_at))))).

(** [[\d\s\-\+\(\)]]. *)
Definition phone_char (c : N) : bool :=
  is_digit c || is_space c
  || (c =? 45)%N || (c =? 43)%N || (c =? 40)%N || (c =? 41)%N.

(** [/^[\d\s\-\+\(\)]{10,}$/]. *)
Definition phoneRegex : Regex := at_least 10 (Class phone_char).

(** [s.trim()]. *)
Fixpoint trimStart (s : list N) : list N :=
  match s with
  | [] => []
  | c :: rest => if is_space c then trimStart rest else s
  end.

Definition trim (s : list N) : list N := rev (trimStart (rev (trimStart s))).

(** ToBoolean on a string. *)
Definition truthy (s : list N) : bool :=
  match s with
  | [] => false
  | _ => true
  end.

Record Input : Type := mkInput {
  input_type : string;     (* input.type *)
  value : list N;          (* input.value *)
  borderColor : string     (* input.style.borderColor *)
}.

Definition red : string := "#e74c3c".

Definition set_borderColor (c : string) (input : Input) : Input :=
  mkInput (input_type input) (value input) c.

(** The body of the loop of [validateForm] on one required input, with the
    flag [isValid] it may clear. *)
Definition visit (isValid : bool) (input : Input) : bool * Input :=
  let '(isValid, input) :=
    if negb (truthy (trim (value input)))
    then (false, set_borderColor red input)
    else (isValid, set_borderColor EmptyString input) in
  let '(isValid, input) :=
    if bool_decide (input_type input = "email") && truthy (value input)
    then
      if negb (test emailRegex (value input))
      then (false, set_borderColor red input)
      else (isValid, input)
    else (isValid, input) in
  if bool_decide (input_type input = "tel") && truthy (value input)
  then
    if negb (test phoneRegex (value input))
    then (false, set_borderColor red input)
    else (isValid, input)
  else (isValid, input).

Fixpoint forEach (isValid : bool) (inputs : list Input) : bool * list Input :=
  match inputs with
  | [] => (isValid, [])
  | input :: rest =>
      let '(isValid, input') := visit isValid input in
      let '(isValid, rest') := forEach isValid rest in
      (isValid, input' :: rest')
  end.

(** [validateForm(form)] on the required inputs of the form: the value
    returned and the inputs as it leaves them. *)
Definition validateForm (inputs : list Input) : bool * list Input :=
  forEach true inputs.

(** The language of a regular expression. *)
Inductive lang : Regex -> list N -> Prop :=
  | lang_eps : lang Eps []
  | lang_class p c : p c = true -> lang (Class p) [c]
  | lang_cat r s u v : lang r u -> lang s v -> lang (Cat r s) (u ++ v)
  | lang_alt_l r s u : lang r u -> lang (Alt r s) u
  | lang_alt_r r s u : lang s u -> lang (Alt r s) u
  | lang_star_nil r : lang (Star r) []
  | lang_star_cons r u v :
      u <> [] -> lang r u -> lang (Star r) v -> lang (Star r) (u ++ v).

(** What [validateForm] accepts in an input: a value that is not blank,
    and that matches the expression of its type. *)
Definition acceptable (input : Input) : Prop :=
  ~ Forall (fun c => is_space c = true) (value input) /\
  (input_type input = "email" -> test emailRegex (value input) = true) /\
  (input_type input = "tel" -> test phoneRegex (value input) = true).

End Form.

(** * Properties *)

(** ** Numbers *)

Section NumFacts.

Local Open Scope Q_scope.

Lemma ltb_Fin (x y : Q) : Num.ltb (Fin x) (Fin y) = true <-> x < y.
Proof.
  unfold Num.ltb.
  destruct (Qcompare_spec x y) as [E | E | E]; split; try congruence; lra.
Qed.

Lemma ltb_Fin_false (x y : Q) : Num.ltb (Fin x) (Fin y) = false <-> y <= x.
Proof.
  unfold Num.ltb.
  destruct (Qcompare_spec x y) as [E | E | E]; split; try congruence; lra.
Qed.

Lemma eqb_Fin (x y : Q) : Num.eqb (Fin x) (Fin y) = true <-> x == y.
Proof. apply Qeq_bool_iff. Qed.

Lemma geb_Fin (x y : Q) : Num.geb (Fin x) (Fin y) = true <-> y <= x.
Proof.
  unfold Num.geb, Num.gtb.
  rewrite orb_true_iff, ltb_Fin, eqb_Fin. split.
  - intros [H | H]; lra.
  - intros H. destruct (Qlt_le_dec y x) as [L | L]; [left; exact L | right; lra].
Qed.

Lemma sgn_Gt (q : Q) : Num.sgn q = Gt <-> 0 < q.
Proof.
  unfold Num.sgn.
  destruct (Qcompare_spec q 0) as [E | E | E]; split; try congruence; lra.
Qed.

Lemma sgn_Lt (q : Q) : Num.sgn q = Lt <-> q < 0.
Proof.
  unfold Num.sgn.
  destruct (Qcompare_spec q 0) as [E | E | E]; split; try congruence; lra.
Qed.

Lemma sgn_Eq (q : Q) : Num.sgn q = Eq <-> q == 0.
Proof.
  unfold Num.sgn.
  destruct (Qcompare_spec q 0) as [E | E | E]; split; try congruence; lra.
Qed.

(** [Math.min(Math.max(x, lo), hi)] is NaN exactly when [x] is, and
    otherwise a rational between the bounds. *)
Lemma clamp_spec (x : number) (lo hi : Q) :
  lo <= hi ->
  (x = NaN /\ Num.min (Num.max x (Fin lo)) (Fin hi) = NaN) \/
  (x <> NaN /\ exists q, Num.min (Num.max x (Fin lo)) (Fin hi) = Fin q /\ lo <= q <= hi).
Proof.
  intros Hlh. destruct x as [ | | q | ].
  - left. split; reflexivity.
  - right. split; [discriminate |]. exists lo.
    change (Num.min (Num.max NegInf (Fin lo)) (Fin hi))
      with (if Num.ltb (Fin hi) (Fin lo) then Fin hi else Fin lo).
    destruct (Num.ltb (Fin hi) (Fin lo)) eqn:E.
    + apply (proj1 (ltb_Fin _ _)) in E. lra.
    + split; [reflexivity | lra].
  - right. split; [discriminate |]. unfold Num.max.
    destruct (Num.ltb (Fin q) (Fin lo)) eqn:E1; unfold Num.min.
    + destruct (Num.ltb (Fin hi) (Fin lo)) eqn:E2.
      * apply (proj1 (ltb_Fin _ _)) in E2. lra.
      * exists lo. split; [reflexivity | lra].
    + apply (proj1 (ltb_Fin_false _ _)) in E1.
      destruct (Num.ltb (Fin hi) (Fin q)) eqn:E2.
      * exists hi. split; [reflexivity | lra].
      * apply (proj1 (ltb_Fin_false _ _)) in E2. exists q. split; [reflexivity | lra].
  - right. split; [discriminate |]. exists hi. simpl. split; [reflexivity | lra].
Qed.


End NumFacts.

(** ** Rounding to binary64 *)

Section Binary64.

Local Open Scope Q_scope.


Lemma pow2_pos (z : Z) : 0 < B64.pow2 z.
Proof. apply Qpower_0_lt. reflexivity. Qed.

Lemma pow2_add (a b : Z) : B64.pow2 (a + b) == B64.pow2 a * B64.pow2 b.
Proof. apply Qpower_plus. discriminate. Qed.

Lemma pow2_sub (a b : Z) : B64.pow2 (a - b) == B64.pow2 a / B64.pow2 b.
Proof. apply Qpower_minus. discriminate. Qed.

Lemma pow2_S (a : Z) : B64.pow2 (a + 1) == 2 * B64.pow2 a.
Proof. rewrite pow2_add. change (B64.pow2 1) with 2. ring. Qed.

Lemma pow2_Z (z : Z) : (0 <= z)%Z -> B64.pow2 z == inject_Z (2 ^ z).
Proof. intros H. unfold B64.pow2. rewrite Zpower_Qpower by exact H. reflexivity. Qed.

Lemma pow2_le (a b : Z) : (a <= b)%Z -> B64.pow2 a <= B64.pow2 b.
Proof. intros H. apply Qpower_le_compat_l; [exact H | discriminate]. Qed.

Lemma pow2_lt (a b : Z) : (a < b)%Z -> B64.pow2 a < B64.pow2 b.
Proof. intros H. apply Qpower_lt_compat_l; [exact H | reflexivity]. Qed.

Lemma pow2_lt_inv (a b : Z) : B64.pow2 a < B64.pow2 b -> (a < b)%Z.
Proof. intros H. apply (Qpower_lt_compat_l_inv 2); [exact H | reflexivity]. Qed.

Lemma pow2_le_inv (a b : Z) : B64.pow2 a <= B64.pow2 b -> (a <= b)%Z.
Proof. intros H. apply (Qpower_le_compat_l_inv 2); [exact H | reflexivity]. Qed.

(** The logarithm brackets its argument, and is the only integer that does. *)
Lemma lg_spec (a : Q) : 0 < a -> B64.pow2 (B64.lg a) <= a < B64.pow2 (B64.lg a + 1).
Proof.
  intros Ha. destruct a as [n d]. unfold B64.lg. cbn [Qnum Qden].
  assert (Hn : (0 < n)%Z) by (unfold Qlt in Ha; cbn in Ha; lia).
  set (ln := Z.log2 n). set (ld := Z.log2 (Z.pos d)).
  destruct (Z.log2_spec n Hn) as [N1 N2]. fold ln in N1, N2.
  destruct (Z.log2_spec (Z.pos d) eq_refl) as [D1 D2]. fold ld in D1, D2.
  assert (Ln : (0 <= ln)%Z) by apply Z.log2_nonneg.
  assert (Ld : (0 <= ld)%Z) by apply Z.log2_nonneg.
  assert (EN : B64.pow2 ln <= inject_Z n /\ inject_Z n < 2 * B64.pow2 ln).
  { rewrite (pow2_Z ln Ln). split; [rewrite <- Zle_Qle; exact N1 |].
    rewrite <- (pow2_Z ln Ln), <- pow2_S, (pow2_Z (ln + 1)) by lia.
    rewrite <- Zlt_Qlt. replace (ln + 1)%Z with (Z.succ ln) by lia. exact N2. }
  assert (ED : B64.pow2 ld <= inject_Z (Z.pos d) /\ inject_Z (Z.pos d) < 2 * B64.pow2 ld).
  { rewrite (pow2_Z ld Ld). split; [rewrite <- Zle_Qle; exact D1 |].
    rewrite <- (pow2_Z ld Ld), <- pow2_S, (pow2_Z (ld + 1)) by lia.
    rewrite <- Zlt_Qlt. replace (ld + 1)%Z with (Z.succ ld) by lia. exact D2. }
  assert (EA : (n # d) * inject_Z (Z.pos d) == inject_Z n).
  { rewrite (Qmake_Qdiv n d). field. discriminate. }
  assert (EK : B64.pow2 (ln - ld) * B64.pow2 ld == B64.pow2 ln).
  { rewrite <- pow2_add. replace (ln - ld + ld)%Z with ln by lia. reflexivity. }
  pose proof (pow2_pos ln) as Pn. pose proof (pow2_pos ld) as Pd.
  pose proof (pow2_pos (ln - ld)) as Pk.
  assert (Dpos : 0 < inject_Z (Z.pos d)) by (apply (Qlt_le_trans _ (B64.pow2 ld)); tauto).
  assert (Up : (n # d) < 2 * B64.pow2 (ln - ld)).
  { apply (Qmult_lt_r _ _ (inject_Z (Z.pos d)) Dpos). rewrite EA.
    apply (Qlt_le_trans _ (2 * B64.pow2 ln)); [tauto |].
    rewrite <- EK. rewrite <- Qmult_assoc.
    apply Qmult_le_l; [reflexivity |].
    apply Qmult_le_l; [exact Pk | tauto]. }
  assert (Lo : B64.pow2 (ln - ld) < 2 * (n # d)).
  { apply (Qmult_lt_r _ _ (inject_Z (Z.pos d)) Dpos).
    rewrite <- Qmult_assoc, EA.
    apply (Qlt_le_trans _ (B64.pow2 (ln - ld) * (2 * B64.pow2 ld))).
    - apply Qmult_lt_l; [exact Pk | tauto].
    - rewrite (Qmult_comm 2), Qmult_assoc, EK, (Qmult_comm _ 2).
      apply Qmult_le_l; [reflexivity | tauto]. }
  destruct (Qle_bool (B64.pow2 (ln - ld)) (n # d)) eqn:E.
  - apply Qle_bool_iff in E. split; [exact E |]. rewrite pow2_S. exact Up.
  - assert (E' : (n # d) < B64.pow2 (ln - ld)).
    { apply Qnot_le_lt. intros H. apply Qle_bool_iff in H. congruence. }
    replace (ln - ld - 1 + 1)%Z with (ln - ld)%Z by lia.
    split; [| exact E'].
    assert (H2 : B64.pow2 (ln - ld) == 2 * B64.pow2 (ln - ld - 1)).
    { rewrite <- pow2_S. replace (ln - ld - 1 + 1)%Z with (ln - ld)%Z by lia. reflexivity. }
    rewrite H2 in Lo. lra.
Qed.

Lemma lg_unique (a : Q) (k : Z) : B64.pow2 k <= a < B64.pow2 (k + 1) -> B64.lg a = k.
Proof.
  intros [H1 H2].
  assert (Ha : 0 < a) by (apply (Qlt_le_trans _ (B64.pow2 k)); [apply pow2_pos | exact H1]).
  destruct (lg_spec a Ha) as [L1 L2].
  assert (A : (B64.lg a < k + 1)%Z) by (apply pow2_lt_inv; lra).
  assert (B : (k < B64.lg a + 1)%Z) by (apply pow2_lt_inv; lra).
  lia.
Qed.

Lemma lg_comp (a b : Q) : 0 < a -> a == b -> B64.lg a = B64.lg b.
Proof.
  intros Ha E. symmetry. apply lg_unique. rewrite <- E. apply lg_spec, Ha.
Qed.

Lemma lg_mono (a b : Q) : 0 < a -> a <= b -> (B64.lg a <= B64.lg b)%Z.
Proof.
  intros Ha H.
  destruct (lg_spec a Ha) as [A1 A2].
  destruct (lg_spec b) as [B1 B2]; [lra |].
  assert (L : (B64.lg a < B64.lg b + 1)%Z) by (apply pow2_lt_inv; lra).
  lia.
Qed.

(** The nearest integer. *)
Lemma nearest_even_near (t : Q) :
  t - (1 # 2) <= inject_Z (B64.nearest_even t) <= t + (1 # 2).
Proof.
  unfold B64.nearest_even.
  pose proof (Qfloor_le t) as F1. pose proof (Qlt_floor t) as F2.
  rewrite inject_Z_plus in F2. change (inject_Z 1) with 1 in F2.
  destruct (Qcompare_spec (t - inject_Z (Qfloor t)) (1 # 2)) as [E | E | E].
  - destruct (Z.even (Qfloor t)); [| rewrite inject_Z_plus; change (inject_Z 1) with 1]; lra.
  - lra.
  - rewrite inject_Z_plus. change (inject_Z 1) with 1. lra.
Qed.

Lemma nearest_even_Z (z : Z) : B64.nearest_even (inject_Z z) = z.
Proof.
  unfold B64.nearest_even. rewrite Qfloor_Z.
  destruct (Qcompare_spec (inject_Z z - inject_Z z) (1 # 2)) as [E | E | E];
    [lra | reflexivity | lra].
Qed.

Lemma nearest_even_comp (s t : Q) : s == t -> B64.nearest_even s = B64.nearest_even t.
Proof.
  intros E. unfold B64.nearest_even. rewrite (Qfloor_comp s t E).
  assert (C : (s - inject_Z (Qfloor t) ?= 1 # 2) = (t - inject_Z (Qfloor t) ?= 1 # 2))
    by (rewrite E; reflexivity).
  rewrite C. reflexivity.
Qed.

Lemma nearest_even_mono (s t : Q) : s <= t -> (B64.nearest_even s <= B64.nearest_even t)%Z.
Proof.
  intros H. pose proof (Qfloor_resp_le s t H) as F.
  pose proof (nearest_even_near s) as [_ S2].
  pose proof (nearest_even_near t) as [T1 _].
  assert (Ls : (Qfloor s <= B64.nearest_even s <= Qfloor s + 1)%Z).
  { unfold B64.nearest_even. destruct (_ ?= _); [destruct (Z.even _) | |]; lia. }
  assert (Lt : (Qfloor t <= B64.nearest_even t <= Qfloor t + 1)%Z).
  { unfold B64.nearest_even. destruct (_ ?= _); [destruct (Z.even _) | |]; lia. }
  destruct (Z.eq_dec (Qfloor s) (Qfloor t)) as [E | E]; [| lia].
  unfold B64.nearest_even. rewrite E.
  destruct (Qcompare_spec (s - inject_Z (Qfloor t)) (1 # 2)) as [C | C | C];
    destruct (Qcompare_spec (t - inject_Z (Qfloor t)) (1 # 2)) as [D | D | D];
    try destruct (Z.even (Qfloor t)); try lia; lra.
Qed.

(** The spacing. *)
Lemma quantum_pos (a : Q) : 0 < B64.quantum a.
Proof. apply pow2_pos. Qed.

Lemma rnd_pos_eq (a : Q) :
  B64.rnd_pos a == inject_Z (B64.nearest_even (a / B64.quantum a)) * B64.quantum a.
Proof. unfold B64.rnd_pos. apply Qred_correct. Qed.

Lemma quantum_comp (a b : Q) : 0 < a -> a == b -> B64.quantum a = B64.quantum b.
Proof. intros Ha E. unfold B64.quantum. rewrite (lg_comp a b Ha E). reflexivity. Qed.

Lemma rnd_pos_comp (a b : Q) : 0 < a -> a == b -> B64.rnd_pos a = B64.rnd_pos b.
Proof.
  intros Ha E. unfold B64.rnd_pos. apply Qred_complete.
  rewrite (quantum_comp a b Ha E).
  rewrite (nearest_even_comp (a / B64.quantum b) (b / B64.quantum b)); [reflexivity |].
  rewrite E. reflexivity.
Qed.

(** A multiple of the spacing on one side of a positive rational is on the
    same side of its rounding. *)
Lemma rnd_pos_above (a : Q) (z : Z) :
  inject_Z z * B64.quantum a <= a -> inject_Z z * B64.quantum a <= B64.rnd_pos a.
Proof.
  intros H. rewrite rnd_pos_eq. pose proof (quantum_pos a) as Hq.
  apply Qmult_le_r; [exact Hq |]. rewrite <- Zle_Qle.
  rewrite <- (nearest_even_Z z). apply nearest_even_mono.
  apply Qle_shift_div_l; assumption.
Qed.

Lemma rnd_pos_below (a : Q) (z : Z) :
  a <= inject_Z z * B64.quantum a -> B64.rnd_pos a <= inject_Z z * B64.quantum a.
Proof.
  intros H. rewrite rnd_pos_eq. pose proof (quantum_pos a) as Hq.
  apply Qmult_le_r; [exact Hq |]. rewrite <- Zle_Qle.
  rewrite <- (nearest_even_Z z). apply nearest_even_mono.
  apply Qle_shift_div_r; assumption.
Qed.

Lemma rnd_pos_nonneg (a : Q) : 0 < a -> 0 <= B64.rnd_pos a.
Proof.
  intros Ha. setoid_replace 0 with (inject_Z 0 * B64.quantum a) using relation Qeq by ring.
  apply rnd_pos_above. setoid_replace (inject_Z 0 * B64.quantum a) with 0 using relation Qeq by ring. lra.
Qed.

Lemma pow2_quantum (a : Q) (e : Z) :
  (Z.max (B64.lg a) (-1022) - 52 <= e)%Z ->
  B64.pow2 e == inject_Z (2 ^ (e - (Z.max (B64.lg a) (-1022) - 52))) * B64.quantum a.
Proof.
  intros H. unfold B64.quantum. rewrite <- pow2_Z by lia. rewrite <- pow2_add.
  replace (e - (Z.max (B64.lg a) (-1022) - 52) + (Z.max (B64.lg a) (-1022) - 52))%Z with e by lia.
  reflexivity.
Qed.

(** The rounding of a positive rational stays within the powers of two
    that bracket it. *)
Lemma rnd_pos_le_pow2 (a : Q) (e : Z) :
  (Z.max (B64.lg a) (-1022) <= e)%Z -> a <= B64.pow2 e -> B64.rnd_pos a <= B64.pow2 e.
Proof.
  intros He H. rewrite (pow2_quantum a e) in H |- * by lia. apply rnd_pos_below, H.
Qed.

Lemma rnd_pos_ge_pow2 (a : Q) (e : Z) :
  (Z.max (B64.lg a) (-1022) <= e)%Z -> B64.pow2 e <= a -> B64.pow2 e <= B64.rnd_pos a.
Proof.
  intros He H. rewrite (pow2_quantum a e) in H |- * by lia. apply rnd_pos_above, H.
Qed.

Lemma rnd_pos_mono (a b : Q) : 0 < a -> a <= b -> B64.rnd_pos a <= B64.rnd_pos b.
Proof.
  intros Ha H. assert (Hb : 0 < b) by lra.
  pose proof (lg_mono a b Ha H) as L.
  destruct (lg_spec a Ha) as [A1 A2]. destruct (lg_spec b Hb) as [B1 B2].
  destruct (Z.eq_dec (Z.max (B64.lg a) (-1022)) (Z.max (B64.lg b) (-1022))) as [E | E].
  - assert (Q : B64.quantum a = B64.quantum b) by (unfold B64.quantum; rewrite E; reflexivity).
    rewrite !rnd_pos_eq, Q. pose proof (quantum_pos b) as Hq.
    apply Qmult_le_r; [exact Hq |]. rewrite <- Zle_Qle.
    apply nearest_even_mono. apply Qmult_le_r; [apply Qinv_lt_0_compat, Hq | exact H].
  - assert (E1 : (Z.max (B64.lg a) (-1022) < B64.lg b)%Z) by lia.
    apply (Qle_trans _ (B64.pow2 (B64.lg b))).
    + apply rnd_pos_le_pow2; [lia |].
      apply (Qle_trans _ (B64.pow2 (B64.lg a + 1))); [lra | apply pow2_le; lia].
    + apply rnd_pos_ge_pow2; [lia | exact B1].
Qed.

Lemma rnd_0 : B64.rnd 0 = 0.
Proof. reflexivity. Qed.

Lemma rnd_of_pos (x : Q) : 0 < x -> B64.rnd x = B64.rnd_pos x.
Proof.
  intros H. unfold B64.rnd. destruct (Qcompare_spec x 0) as [E | E | E]; [lra | lra | reflexivity].
Qed.

Lemma rnd_of_neg (x : Q) : x < 0 -> B64.rnd x = - B64.rnd_pos (- x).
Proof.
  intros H. unfold B64.rnd. destruct (Qcompare_spec x 0) as [E | E | E]; [lra | reflexivity | lra].
Qed.

Lemma rnd_of_zero (x : Q) : x == 0 -> B64.rnd x = 0.
Proof.
  intros H. unfold B64.rnd. destruct (Qcompare_spec x 0) as [E | E | E]; [reflexivity | lra | lra].
Qed.

Lemma rnd_comp (x y : Q) : x == y -> B64.rnd x = B64.rnd y.
Proof.
  intros E. destruct (Q_dec x 0) as [[H | H] | H].
  - rewrite (rnd_of_neg x H), (rnd_of_neg y) by lra.
    rewrite (rnd_pos_comp (- x) (- y)); [reflexivity | lra | rewrite E; reflexivity].
  - rewrite (rnd_of_pos x H), (rnd_of_pos y) by lra.
    apply rnd_pos_comp; assumption.
  - rewrite (rnd_of_zero x H), (rnd_of_zero y) by lra. reflexivity.
Qed.

(** Rounding is monotone. *)
Lemma rnd_mono (x y : Q) : x <= y -> B64.rnd x <= B64.rnd y.
Proof.
  intros H.
  destruct (Q_dec x 0) as [[Hx | Hx] | Hx]; destruct (Q_dec y 0) as [[Hy | Hy] | Hy];
    try lra.
  - rewrite (rnd_of_neg x Hx), (rnd_of_neg y Hy).
    assert (M : B64.rnd_pos (- y) <= B64.rnd_pos (- x)) by (apply rnd_pos_mono; lra). lra.
  - rewrite (rnd_of_neg x Hx), (rnd_of_pos y Hy).
    assert (A : 0 <= B64.rnd_pos (- x)) by (apply rnd_pos_nonneg; lra).
    assert (B : 0 <= B64.rnd_pos y) by (apply rnd_pos_nonneg; lra). lra.
  - rewrite (rnd_of_neg x Hx), (rnd_of_zero y Hy).
    assert (A : 0 <= B64.rnd_pos (- x)) by (apply rnd_pos_nonneg; lra). lra.
  - rewrite (rnd_of_pos x Hx), (rnd_of_pos y Hy). apply rnd_pos_mono; assumption.
  - rewrite (rnd_of_zero x Hx), (rnd_of_pos y Hy). apply rnd_pos_nonneg, Hy.
  - rewrite (rnd_of_zero x Hx), (rnd_of_zero y Hy). lra.
Qed.

Lemma rnd_opp (x : Q) : B64.rnd (- x) == - B64.rnd x.
Proof.
  destruct (Q_dec x 0) as [[H | H] | H].
  - rewrite (rnd_of_neg x H), (rnd_of_pos (- x)) by lra. ring.
  - rewrite (rnd_of_pos x H), (rnd_of_neg (- x)) by lra.
    rewrite (rnd_pos_comp (- - x) x); [reflexivity | lra | ring].
  - rewrite (rnd_of_zero x H), (rnd_of_zero (- x)) by lra. reflexivity.
Qed.


Lemma lg_ge (a : Q) (k : Z) : B64.pow2 k <= a -> (k <= B64.lg a)%Z.
Proof.
  intros H.
  assert (Ha : 0 < a) by (apply (Qlt_le_trans _ (B64.pow2 k)); [apply pow2_pos | exact H]).
  destruct (lg_spec a Ha) as [_ L].
  assert (A : (k < B64.lg a + 1)%Z) by (apply pow2_lt_inv; lra). lia.
Qed.

Lemma lg_lt (a : Q) (k : Z) : 0 < a -> a < B64.pow2 k -> (B64.lg a < k)%Z.
Proof.
  intros Ha H. destruct (lg_spec a Ha) as [L _].
  apply pow2_lt_inv. lra.
Qed.

(** A double is its own rounding. *)
Lemma rnd_pos_exact (x : Q) : 0 < x -> B64.representable x -> B64.rnd_pos x == x.
Proof.
  intros Hx (m & k & E & Hm & Hk).
  pose proof (pow2_pos k) as Pk.
  assert (Mpos : (0 < m)%Z).
  { destruct (Z.lt_trichotomy 0 m) as [H | [H | H]]; [exact H | exfalso | exfalso].
    - subst m. rewrite E in Hx. change (inject_Z 0) with 0 in Hx. lra.
    - assert (inject_Z m < 0) by (change 0 with (inject_Z 0); rewrite <- Zlt_Qlt; exact H).
      rewrite E in Hx. nra. }
  assert (Hj : (Z.max (B64.lg x) (-1022) - 52 <= k)%Z).
  { assert (L : (B64.lg x < k + 53)%Z).
    { apply lg_lt; [exact Hx |]. rewrite E, pow2_add.
      rewrite (pow2_Z 53) by lia. rewrite (Qmult_comm (B64.pow2 k)).
      apply Qmult_lt_r; [exact Pk |]. rewrite <- Zlt_Qlt. lia. }
    lia. }
  assert (Eg : x == inject_Z (m * 2 ^ (k - (Z.max (B64.lg x) (-1022) - 52))) * B64.quantum x).
  { rewrite inject_Z_mult, <- Qmult_assoc, <- (pow2_quantum x k Hj). exact E. }
  apply Qle_antisym.
  - rewrite Eg at 2. apply rnd_pos_below. rewrite <- Eg. lra.
  - rewrite Eg at 1. apply rnd_pos_above. rewrite <- Eg. lra.
Qed.

Lemma representable_opp (x : Q) : B64.representable x -> B64.representable (- x).
Proof.
  intros (m & k & E & Hm & Hk). exists (- m)%Z, k.
  split; [rewrite E, inject_Z_opp; ring |]. split; [lia | exact Hk].
Qed.

Lemma rnd_exact (x : Q) : B64.representable x -> B64.rnd x == x.
Proof.
  intros H. destruct (Q_dec x 0) as [[Hx | Hx] | Hx].
  - rewrite (rnd_of_neg x Hx).
    rewrite (rnd_pos_exact (- x)); [ring | lra | apply representable_opp, H].
  - rewrite (rnd_of_pos x Hx). apply rnd_pos_exact; assumption.
  - rewrite (rnd_of_zero x Hx). symmetry. exact Hx.
Qed.

Lemma representable_Z (z : Z) : (Z.abs z < 2 ^ 53)%Z -> B64.representable (inject_Z z).
Proof.
  intros H. exists z, 0%Z. split; [change (B64.pow2 0) with 1; ring |]. split; [exact H | lia].
Qed.

Lemma rnd_Z (z : Z) : (Z.abs z < 2 ^ 53)%Z -> B64.rnd (inject_Z z) == inject_Z z.
Proof. intros H. apply rnd_exact, representable_Z, H. Qed.

(** The rounding of a positive rational is zero or a double, on the grid
    of its spacing. *)
Lemma rnd_pos_shape (a : Q) :
  0 < a -> 0 < B64.rnd_pos a ->
  exists m k : Z,
    B64.rnd_pos a == inject_Z m * B64.pow2 k /\ (0 < m < 2 ^ 53)%Z /\
    (Z.max (B64.lg a) (-1022) - 52 <= k)%Z.
Proof.
  intros Ha Hr. pose proof (quantum_pos a) as Hq.
  destruct (lg_spec a Ha) as [_ L2].
  set (e := Z.max (B64.lg a) (-1022)) in *.
  assert (Q53 : B64.pow2 (e + 1) == inject_Z (2 ^ 53) * B64.quantum a).
  { rewrite (pow2_quantum a (e + 1)) by (fold e; lia). fold e.
    replace (e + 1 - (e - 52))%Z with 53%Z by lia. reflexivity. }
  assert (Up : B64.rnd_pos a <= inject_Z (2 ^ 53) * B64.quantum a).
  { apply rnd_pos_below. rewrite <- Q53.
    apply (Qle_trans _ (B64.pow2 (B64.lg a + 1))); [lra | apply pow2_le; lia]. }
  rewrite rnd_pos_eq in Up, Hr.
  set (M := B64.nearest_even (a / B64.quantum a)) in *.
  assert (M1 : (M <= 2 ^ 53)%Z).
  { rewrite Zle_Qle. apply (Qmult_le_r _ _ (B64.quantum a) Hq). exact Up. }
  assert (M0 : (0 < M)%Z).
  { rewrite Zlt_Qlt. apply (Qmult_lt_r _ _ (B64.quantum a) Hq).
    change (inject_Z 0) with 0. lra. }
  destruct (Z.eq_dec M (2 ^ 53)%Z) as [E | E].
  - exists (2 ^ 52)%Z, (e - 51)%Z.
    split; [| split; [split; reflexivity | lia]].
    rewrite rnd_pos_eq. fold M. rewrite E. unfold B64.quantum. fold e.
    replace (e - 51)%Z with (1 + (e - 52))%Z by lia.
    rewrite (pow2_add 1). change (B64.pow2 1) with 2.
    change (inject_Z (2 ^ 53)) with (inject_Z (2 ^ 52) * 2). ring.
  - exists M, (e - 52)%Z.
    split; [rewrite rnd_pos_eq; reflexivity |]. split; lia.
Qed.

Lemma rnd_pos_representable (a : Q) :
  0 < a -> 0 < B64.rnd_pos a -> B64.representable (B64.rnd_pos a).
Proof.
  intros Ha Hr. destruct (rnd_pos_shape a Ha Hr) as (m & k & E & Hm & Hk).
  exists m, k. split; [exact E |]. split; lia.
Qed.

(** Rounding twice is rounding once. *)
Lemma rnd_idem (x : Q) : B64.rnd (B64.rnd x) == B64.rnd x.
Proof.
  assert (P : forall a, 0 < a -> B64.rnd (B64.rnd_pos a) == B64.rnd_pos a).
  { intros a Ha. pose proof (rnd_pos_nonneg a Ha) as N.
    destruct (Qlt_le_dec 0 (B64.rnd_pos a)) as [H | H].
    - apply rnd_exact, rnd_pos_representable; assumption.
    - rewrite (rnd_of_zero (B64.rnd_pos a)) by lra. lra. }
  destruct (Q_dec x 0) as [[Hx | Hx] | Hx].
  - rewrite (rnd_of_neg x Hx), rnd_opp, P by lra. reflexivity.
  - rewrite (rnd_of_pos x Hx). apply P, Hx.
  - rewrite (rnd_of_zero x Hx). reflexivity.
Qed.

(** The relative error of the rounding of a normal number is at most
    [2^-53]. *)
Lemma rnd_pos_error (a : Q) :
  B64.pow2 (-1022) <= a ->
  a * (1 - B64.pow2 (-53)) <= B64.rnd_pos a <= a * (1 + B64.pow2 (-53)).
Proof.
  intros Hn.
  assert (Ha : 0 < a) by (apply (Qlt_le_trans _ (B64.pow2 (-1022))); [apply pow2_pos | exact Hn]).
  pose proof (lg_ge a _ Hn) as Lg.
  destruct (lg_spec a Ha) as [L1 _].
  pose proof (quantum_pos a) as Hq.
  assert (Eq : B64.quantum a == B64.pow2 (B64.lg a) * (2 * B64.pow2 (-53))).
  { unfold B64.quantum. rewrite Z.max_l by lia.
    replace (B64.lg a - 52)%Z with (B64.lg a + (1 + -53))%Z by lia.
    rewrite !pow2_add. change (B64.pow2 1) with 2. reflexivity. }
  pose proof (nearest_even_near (a / B64.quantum a)) as [N1 N2].
  rewrite rnd_pos_eq.
  assert (T : a / B64.quantum a * B64.quantum a == a) by (field; lra).
  set (M := inject_Z (B64.nearest_even (a / B64.quantum a))) in *.
  assert (B1 : a - B64.quantum a * (1 # 2) <= M * B64.quantum a).
  { rewrite <- T at 1.
    setoid_replace (a / B64.quantum a * B64.quantum a - B64.quantum a * (1 # 2))
      with ((a / B64.quantum a - (1 # 2)) * B64.quantum a) using relation Qeq by ring.
    apply Qmult_le_r; assumption. }
  assert (B2 : M * B64.quantum a <= a + B64.quantum a * (1 # 2)).
  { rewrite <- T at 2.
    setoid_replace (a / B64.quantum a * B64.quantum a + B64.quantum a * (1 # 2))
      with ((a / B64.quantum a + (1 # 2)) * B64.quantum a) using relation Qeq by ring.
    apply Qmult_le_r; assumption. }
  assert (U : 0 < B64.pow2 (-53)) by apply pow2_pos.
  assert (Hh : B64.quantum a * (1 # 2) <= a * B64.pow2 (-53)).
  { rewrite Eq.
    setoid_replace (B64.pow2 (B64.lg a) * (2 * B64.pow2 (-53)) * (1 # 2))
      with (B64.pow2 (B64.lg a) * B64.pow2 (-53)) using relation Qeq by ring.
    apply Qmult_le_r; assumption. }
  split; lra.
Qed.


Lemma representable_pow2 (e : Z) : (-1074 <= e)%Z -> B64.representable (B64.pow2 e).
Proof.
  intros H. exists 1%Z, e. split; [change (inject_Z 1) with 1; ring |].
  split; [reflexivity | exact H].
Qed.

Lemma rnd_pow2 (e : Z) : (-1074 <= e)%Z -> B64.rnd (B64.pow2 e) == B64.pow2 e.
Proof. intros H. apply rnd_exact, representable_pow2, H. Qed.

(** Rounding does not cross a power of two. *)
Lemma rnd_le_pow2 (x : Q) (e : Z) :
  (-1074 <= e)%Z -> x <= B64.pow2 e -> B64.rnd x <= B64.pow2 e.
Proof. intros He H. rewrite <- (rnd_pow2 e He). apply rnd_mono, H. Qed.

Lemma rnd_ge_pow2 (x : Q) (e : Z) :
  (-1074 <= e)%Z -> B64.pow2 e <= x -> B64.pow2 e <= B64.rnd x.
Proof. intros He H. rewrite <- (rnd_pow2 e He). apply rnd_mono, H. Qed.

Lemma rnd_ge_opp_pow2 (x : Q) (e : Z) :
  (-1074 <= e)%Z -> - B64.pow2 e <= x -> - B64.pow2 e <= B64.rnd x.
Proof.
  intros He H. rewrite <- (rnd_pow2 e He), <- rnd_opp. apply rnd_mono, H.
Qed.

Lemma rnd_nonneg (x : Q) : 0 <= x -> 0 <= B64.rnd x.
Proof. intros H. rewrite <- rnd_0. apply rnd_mono, H. Qed.

Lemma rnd_nonpos (x : Q) : x <= 0 -> B64.rnd x <= 0.
Proof. intros H. rewrite <- rnd_0. apply rnd_mono, H. Qed.

(** The relative error, whatever the sign. *)
Lemma rnd_error (x : Q) :
  B64.pow2 (-1022) <= Qabs x ->
  Qabs (B64.rnd x - x) <= Qabs x * B64.pow2 (-53).
Proof.
  intros H. pose proof (pow2_pos (-1022)) as P. pose proof (pow2_pos (-53)) as U.
  destruct (Q_dec x 0) as [[Hx | Hx] | Hx].
  - rewrite (Qabs_neg x) in H |- * by lra.
    rewrite (rnd_of_neg x Hx).
    destruct (rnd_pos_error (- x) H) as [E1 E2].
    apply Qabs_Qle_condition. split; nra.
  - rewrite (Qabs_pos x) in H |- * by lra.
    rewrite (rnd_of_pos x Hx).
    destruct (rnd_pos_error x H) as [E1 E2].
    apply Qabs_Qle_condition. split; nra.
  - rewrite Hx in H. change (Qabs 0) with 0 in H. lra.
Qed.

(** A multiple of a power of two that is not zero is at least that power. *)
Lemma grid_lower (x : Q) (j K : Z) :
  x == inject_Z j * B64.pow2 K -> 0 < x -> B64.pow2 K <= x.
Proof.
  intros E Hx. pose proof (pow2_pos K) as P.
  assert (J : (1 <= j)%Z).
  { destruct (Z_lt_le_dec j 1) as [L | L]; [exfalso | exact L].
    assert (inject_Z j <= 0) by (change 0 with (inject_Z 0); rewrite <- Zle_Qle; lia).
    rewrite E in Hx. nra. }
  assert (J' : 1 <= inject_Z j) by (change 1 with (inject_Z 1); rewrite <- Zle_Qle; exact J).
  rewrite E. nra.
Qed.

(** The rounding of a positive rational is a multiple of every power of
    two that lies 52 digits below it. *)
Lemma rnd_pos_grid (a : Q) (K : Z) :
  B64.pow2 (K + 52) <= a ->
  exists j : Z, B64.rnd_pos a == inject_Z j * B64.pow2 K.
Proof.
  intros H. pose proof (lg_ge a _ H) as L.
  exists (B64.nearest_even (a / B64.quantum a) * 2 ^ (Z.max (B64.lg a) (-1022) - 52 - K))%Z.
  rewrite rnd_pos_eq, inject_Z_mult, <- Qmult_assoc.
  apply Qmult_comp; [reflexivity |].
  unfold B64.quantum. rewrite <- pow2_Z by lia. rewrite <- pow2_add.
  replace (Z.max (B64.lg a) (-1022) - 52 - K + K)%Z with (Z.max (B64.lg a) (-1022) - 52)%Z by lia.
  reflexivity.
Qed.

(** Halving a rounded number that is not too small is exact. *)
Lemma rnd_half_pos (a : Q) :
  B64.pow2 (-1021) <= a -> B64.rnd (B64.rnd_pos a / 2) == B64.rnd_pos a / 2.
Proof.
  intros H.
  assert (Ha : 0 < a) by (apply (Qlt_le_trans _ (B64.pow2 (-1021))); [apply pow2_pos | exact H]).
  pose proof (lg_ge a _ H) as L.
  assert (Hr : 0 < B64.rnd_pos a).
  { apply (Qlt_le_trans _ (B64.pow2 (-1021))); [apply pow2_pos |].
    rewrite <- (rnd_of_pos a Ha). apply rnd_ge_pow2; [lia | exact H]. }
  destruct (rnd_pos_shape a Ha Hr) as (m & k & E & Hm & Hk).
  apply rnd_exact. exists m, (k - 1)%Z.
  split; [| split; lia].
  rewrite E, pow2_sub. change (B64.pow2 1) with 2. field.
Qed.

Lemma rnd_half (x : Q) :
  B64.pow2 (-1021) <= Qabs x -> B64.rnd (B64.rnd x / 2) == B64.rnd x / 2.
Proof.
  intros H. destruct (Q_dec x 0) as [[Hx | Hx] | Hx].
  - rewrite (Qabs_neg x) in H by lra. rewrite (rnd_of_neg x Hx).
    assert (E : - B64.rnd_pos (- x) / 2 == - (B64.rnd_pos (- x) / 2)) by (field).
    rewrite (rnd_comp _ _ E), rnd_opp, (rnd_half_pos (- x) H). field.
  - rewrite (Qabs_pos x) in H by lra. rewrite (rnd_of_pos x Hx).
    apply rnd_half_pos, H.
  - pose proof (pow2_pos (-1021)). rewrite Hx in H. change (Qabs 0) with 0 in H. lra.
Qed.

(** [round] on numbers. *)
Lemma round_NaN (a : number) : B64.round a = NaN <-> a = NaN.
Proof.
  destruct a as [| | x |]; cbn [B64.round]; try tauto.
  destruct (Qle_bool _ _); [split; discriminate |].
  destruct (Qle_bool _ _); split; discriminate.
Qed.

Lemma round_Fin (x : Q) :
  - B64.pow2 1024 < B64.rnd x < B64.pow2 1024 ->
  B64.round (Fin x) = Fin (B64.rnd x).
Proof.
  intros [H1 H2]. cbn [B64.round].
  destruct (Qle_bool (B64.pow2 1024) (B64.rnd x)) eqn:E1;
    [apply Qle_bool_iff in E1; lra |].
  destruct (Qle_bool (B64.rnd x) (- B64.pow2 1024)) eqn:E2;
    [apply Qle_bool_iff in E2; lra | reflexivity].
Qed.

Lemma pow2_1024_large : 9007199254740992 < B64.pow2 1024.
Proof. reflexivity. Qed.

(** A clamp between doubles of ordinary size does not see the overflow. *)
Lemma clamp_round (x lo hi : Q) :
  - B64.pow2 1024 < lo -> lo <= hi -> hi < B64.pow2 1024 ->
  Num.min (Num.max (B64.round (Fin x)) (Fin lo)) (Fin hi) =
  Num.min (Num.max (Fin (B64.rnd x)) (Fin lo)) (Fin hi).
Proof.
  intros Hlo Hlh Hhi. cbn [B64.round].
  destruct (Qle_bool (B64.pow2 1024) (B64.rnd x)) eqn:E1.
  - apply Qle_bool_iff in E1.
    change (Num.min (Num.max PosInf (Fin lo)) (Fin hi)) with (Fin hi).
    unfold Num.max.
    rewrite (proj2 (ltb_Fin_false (B64.rnd x) lo)) by lra.
    unfold Num.min. rewrite (proj2 (ltb_Fin hi (B64.rnd x))) by lra. reflexivity.
  - destruct (Qle_bool (B64.rnd x) (- B64.pow2 1024)) eqn:E2; [| reflexivity].
    apply Qle_bool_iff in E2.
    change (Num.min (Num.max NegInf (Fin lo)) (Fin hi))
      with (if Num.ltb (Fin hi) (Fin lo) then Fin hi else Fin lo).
    unfold Num.max. rewrite (proj2 (ltb_Fin (B64.rnd x) lo)) by lra. reflexivity.
Qed.

End Binary64.

(** ** Scroll progress *)

Section Progress.

Local Open Scope Q_scope.

Lemma maxScroll_Fin (env : Layout) :
  maxScroll env = Fin (inject_Z (hero_offsetHeight env) - inject_Z (innerHeight env)).
Proof. reflexivity. Qed.

Lemma inject_Z_minus_0 (a b : Z) : inject_Z a - inject_Z b == 0 <-> a = b.
Proof.
  split.
  - intros H. apply inject_Z_injective. lra.
  - intros ->. lra.
Qed.

Lemma progress_ratio (env : Layout) :
  progress env = Num.min (Num.max (ratio env) (Fin 0)) (Fin 1).
Proof. reflexivity. Qed.

Lemma ratio_NaN (env : Layout) :
  ratio env = NaN <->
  hero_top env == 0 /\ hero_offsetHeight env = innerHeight env.
Proof.
  unfold ratio. rewrite maxScroll_Fin. cbn [Num.neg Num.div].
  destruct (Num.sgn (inject_Z (hero_offsetHeight env) - inject_Z (innerHeight env)))
    eqn:Ed.
  - apply (proj1 (sgn_Eq _)) in Ed.
    pose proof (proj1 (inject_Z_minus_0 _ _) Ed) as Eh. clear Ed.
    destruct (Num.sgn (- hero_top env)) eqn:Et; cbn [Num.inf_of].
    + apply (proj1 (sgn_Eq _)) in Et. split; [intros _ | reflexivity].
      split; [lra | exact Eh].
    + apply (proj1 (sgn_Lt _)) in Et. split; [discriminate | intros [H _]; lra].
    + apply (proj1 (sgn_Gt _)) in Et. split; [discriminate | intros [H _]; lra].
  - apply (proj1 (sgn_Lt _)) in Ed. split; [discriminate |].
    intros [_ H]. pose proof (proj2 (inject_Z_minus_0 _ _) H) as H0. lra.
  - apply (proj1 (sgn_Gt _)) in Ed. split; [discriminate |].
    intros [_ H]. pose proof (proj2 (inject_Z_minus_0 _ _) H) as H0. lra.
Qed.

(** Away from the one degenerate layout the progress is in the unit
    interval. *)
Lemma progress_in_unit (env : Layout) :
  ~ (hero_top env == 0 /\ hero_offsetHeight env = innerHeight env) ->
  Num.in_unit (progress env).
Proof.
  intros Hn. rewrite progress_ratio.
  destruct (clamp_spec (ratio env) 0 1) as [[HN _] | [_ (q & Hq & Hr)]]; [lra | |].
  - exfalso. apply Hn, ratio_NaN, HN.
  - exists q. split; assumption.
Qed.

Lemma progress_NaN (env : Layout) :
  hero_top env == 0 -> hero_offsetHeight env = innerHeight env ->
  progress env = NaN.
Proof.
  intros Ht Hh. rewrite progress_ratio.
  destruct (clamp_spec (ratio env) 0 1) as [[_ HN] | [HN _]]; [lra | exact HN |].
  exfalso. apply HN, ratio_NaN. split; assumption.
Qed.

(** Whatever the layout, the progress is NaN or in the unit interval. *)
Lemma progress_NaN_or_unit (env : Layout) :
  progress env = NaN \/ Num.in_unit (progress env).
Proof.
  rewrite progress_ratio.
  destruct (clamp_spec (ratio env) 0 1) as [[_ HN] | [_ (q & Hq & Hr)]]; [lra | |].
  - left. exact HN.
  - right. exists q. split; assumption.
Qed.

(** C1 (the code departs from the claim).  The claim: the progress of every
    scroll evaluation lies in [0,1], also when the container is not higher
    than the viewport.  On a container exactly as high as the viewport
    (800 and 800) whose top is at 0, [handleScroll] divides zero by zero:
    the clamp keeps the NaN and the progress is not in [0,1]. *)
Theorem C1_progress_of_flat_layout_is_NaN :
  ratio layout_flat = NaN /\
  progress layout_flat = NaN /\
  ~ Num.in_unit (progress layout_flat).
Proof.
  split; [reflexivity |]. split; [reflexivity |].
  intros (q & Hq & _). discriminate Hq.
Qed.

End Progress.

(** ** From progress to frame *)

Section TargetFrame.

Local Open Scope Q_scope.

Lemma last_frame : Num.sub (Num.of_nat frameCount) Num.one = Num.of_Z 191.
Proof. reflexivity. Qed.

Lemma rnd_191 : B64.rnd (inject_Z 191) = inject_Z 191.
Proof. vm_compute. reflexivity. Qed.

Lemma rnd_1 : B64.rnd 1 = 1.
Proof. vm_compute. reflexivity. Qed.

(** The double nearest to a rational of the unit interval is in the unit
    interval. *)
Lemma rnd_unit (p : Q) : 0 <= p <= 1 -> 0 <= B64.rnd p <= 1.
Proof.
  intros [H0 H1]. split.
  - rewrite <- rnd_0. apply rnd_mono, H0.
  - rewrite <- rnd_1. apply rnd_mono, H1.
Qed.

Lemma round_unit (p : Q) : 0 <= p <= 1 -> B64.round (Fin p) = Fin (B64.rnd p).
Proof.
  intros Hp. pose proof (rnd_unit p Hp) as [R0 R1].
  apply round_Fin. pose proof pow2_1024_large as L. lra.
Qed.

(** The rounded product of a progress of the unit interval. *)
Lemma scaled_range (p : Q) :
  0 <= p <= 1 -> 0 <= B64.rnd (B64.rnd p * inject_Z 191) <= inject_Z 191.
Proof.
  intros Hp. pose proof (rnd_unit p Hp) as [H0 H1].
  change (inject_Z 191) with (191 # 1) at 1 3. split.
  - rewrite <- rnd_0. apply rnd_mono. nra.
  - change (191 # 1) with (inject_Z 191). rewrite <- rnd_191 at 2.
    apply rnd_mono. change (inject_Z 191) with (191 # 1). nra.
Qed.

Lemma targetFrame_Fin (p : Q) :
  0 <= p <= 1 ->
  targetFrame (Fin p) = Num.of_Z (Qfloor (B64.rnd (B64.rnd p * inject_Z 191))).
Proof.
  intros Hp. unfold targetFrame. rewrite last_frame, (round_unit p Hp).
  unfold B64.mul, Num.of_Z. cbn [Num.mul].
  pose proof (scaled_range p Hp) as [R0 R1].
  rewrite round_Fin; [reflexivity |].
  pose proof pow2_1024_large as L.
  change (inject_Z 191) with (191 # 1) in *. lra.
Qed.

Lemma targetFrame_range (p : Q) :
  0 <= p <= 1 -> (0 <= Qfloor (B64.rnd (B64.rnd p * inject_Z 191)) <= 191)%Z.
Proof.
  intros Hp. pose proof (scaled_range p Hp) as [R0 R1]. split.
  - rewrite <- (Qfloor_Z 0). apply Qfloor_resp_le. exact R0.
  - rewrite <- (Qfloor_Z 191) at 2. apply Qfloor_resp_le. exact R1.
Qed.

Lemma targetFrame_mono (p1 p2 : Q) :
  0 <= p1 -> p1 <= p2 ->
  (Qfloor (B64.rnd (B64.rnd p1 * inject_Z 191))
   <= Qfloor (B64.rnd (B64.rnd p2 * inject_Z 191)))%Z.
Proof.
  intros H0 H. apply Qfloor_resp_le, rnd_mono.
  pose proof (rnd_mono p1 p2 H) as M.
  change (inject_Z 191) with (191 # 1). nra.
Qed.

(** Rounding and clamping to the unit interval commute: the double that
    the code holds as [progress], the rounded quotient clamped, is the
    double nearest to the clamped quotient. *)
Lemma round_clamp (x : number) :
  B64.round (Num.min (Num.max x (Fin 0)) (Fin 1)) =
  Num.min (Num.max (B64.round x) (Fin 0)) (Fin 1).
Proof.
  assert (Z0 : B64.round (Fin 0) = Fin 0) by (vm_compute; reflexivity).
  assert (Z1 : B64.round (Fin 1) = Fin 1) by (vm_compute; reflexivity).
  destruct x as [ | | q | ].
  - reflexivity.
  - exact Z0.
  - pose proof pow2_1024_large as L.
    rewrite (clamp_round q 0 1) by lra.
    unfold Num.max.
    destruct (Qlt_le_dec q 0) as [Hq | Hq].
    + rewrite (proj2 (ltb_Fin q 0) Hq).
      change (Num.min (Fin 0) (Fin 1)) with (Fin 0). rewrite Z0.
      assert (R : B64.rnd q <= 0) by (apply rnd_nonpos; lra).
      destruct (Qlt_le_dec (B64.rnd q) 0) as [Hr | Hr].
      * rewrite (proj2 (ltb_Fin _ 0) Hr). reflexivity.
      * rewrite (proj2 (ltb_Fin_false _ 0) Hr).
        unfold Num.min. rewrite (proj2 (ltb_Fin_false 1 _)) by lra.
        rewrite (rnd_of_neg q Hq) in *.
        assert (E : B64.rnd_pos (- q) == 0) by lra.
        unfold B64.rnd_pos in *. rewrite Qred_correct in E.
        apply Qred_complete in E. rewrite E. reflexivity.
    + rewrite (proj2 (ltb_Fin_false q 0) Hq).
      assert (R : 0 <= B64.rnd q) by (apply rnd_nonneg; exact Hq).
      rewrite (proj2 (ltb_Fin_false (B64.rnd q) 0) R).
      unfold Num.min.
      destruct (Qlt_le_dec 1 q) as [H1 | H1].
      * rewrite (proj2 (ltb_Fin 1 q) H1), Z1.
        assert (R1 : 1 <= B64.rnd q)
          by (rewrite <- rnd_1; apply rnd_mono; lra).
        destruct (Qlt_le_dec 1 (B64.rnd q)) as [Hr | Hr].
        -- rewrite (proj2 (ltb_Fin 1 _) Hr). reflexivity.
        -- rewrite (proj2 (ltb_Fin_false 1 _) Hr).
           assert (Hq0 : 0 < q) by lra.
           rewrite (rnd_of_pos q Hq0) in *.
           assert (E : B64.rnd_pos q == 1) by lra.
           unfold B64.rnd_pos in *. rewrite Qred_correct in E.
           apply Qred_complete in E. rewrite E. reflexivity.
      * rewrite (proj2 (ltb_Fin_false 1 q) H1).
        assert (R1 : B64.rnd q <= 1)
          by (rewrite <- rnd_1; apply rnd_mono; lra).
        rewrite (proj2 (ltb_Fin_false 1 _) R1).
        apply round_unit. lra.
  - exact Z1.
Qed.

Lemma round_progress (env : Layout) :
  B64.round (progress env) =
  Num.min
    (Num.max (B64.div (Num.neg (Fin (hero_top env))) (maxScroll env)) Num.zero)
    Num.one.
Proof. unfold progress, ratio. apply round_clamp. Qed.

(** C7.  For progress values [p1 <= p2] of [0,1], the target frames
    [floor(p * (N-1))], N = 192, are integers with
    [0 <= f1 <= f2 <= N-1]: the map is monotone and stays in range; and
    progress 0.5 gives frame 95. *)
Theorem C7_targetFrame_monotone_in_range (p1 p2 : Q) :
  0 <= p1 -> p1 <= p2 -> p2 <= 1 ->
  (exists f1 f2 : Z,
      targetFrame (Fin p1) = Num.of_Z f1 /\
      targetFrame (Fin p2) = Num.of_Z f2 /\
      (0 <= f1)%Z /\ (f1 <= f2)%Z /\ (f2 <= Z.of_nat frameCount - 1)%Z) /\
  targetFrame (Fin (1 # 2)) = Num.of_Z 95.
Proof.
  intros H0 H12 H1. split; [| vm_compute; reflexivity].
  exists (Qfloor (B64.rnd (B64.rnd p1 * inject_Z 191))),
    (Qfloor (B64.rnd (B64.rnd p2 * inject_Z 191))).
  assert (R1 : 0 <= p1 <= 1) by lra.
  assert (R2 : 0 <= p2 <= 1) by lra.
  rewrite (targetFrame_Fin p1 R1), (targetFrame_Fin p2 R2).
  apply targetFrame_range in R1, R2.
  pose proof (targetFrame_mono p1 p2 H0 H12) as M.
  change (Z.of_nat frameCount - 1)%Z with 191%Z.
  repeat split; lia.
Qed.

Lemma C7_targetFrame_monotone_in_range_witness :
  (exists f1 f2 : Z,
      targetFrame (Fin (1 # 4)) = Num.of_Z f1 /\
      targetFrame (Fin (3 # 4)) = Num.of_Z f2 /\
      (0 <= f1)%Z /\ (f1 <= f2)%Z /\ (f2 <= Z.of_nat frameCount - 1)%Z) /\
  targetFrame (Fin (1 # 2)) = Num.of_Z 95.
Proof.
  apply (C7_targetFrame_monotone_in_range (1 # 4) (3 # 4)); lra.
Defined.

End TargetFrame.

(** ** Record updates

    Each setter changes its own field and no other.  The equations are
    collected in the rewrite base [player]. *)

Section Setters.

Lemma canvas_set_canvas x (p : Player) : canvas (set_canvas x p) = x.
Proof. reflexivity. Qed.

Lemma document_set_canvas x (p : Player) : document (set_canvas x p) = document p.
Proof. reflexivity. Qed.

Lemma timers_set_canvas x (p : Player) : timers (set_canvas x p) = timers p.
Proof. reflexivity. Qed.

Lemma images_set_canvas x (p : Player) : images (set_canvas x p) = images p.
Proof. reflexivity. Qed.

Lemma loadedCount_set_canvas x (p : Player) : loadedCount (set_canvas x p) = loadedCount p.
Proof. reflexivity. Qed.

Lemma currentFrame_set_canvas x (p : Player) : currentFrame (set_canvas x p) = currentFrame p.
Proof. reflexivity. Qed.

Lemma isLoaded_set_canvas x (p : Player) : isLoaded (set_canvas x p) = isLoaded p.
Proof. reflexivity. Qed.

Lemma isAnimationComplete_set_canvas x (p : Player) : isAnimationComplete (set_canvas x p) = isAnimationComplete p.
Proof. reflexivity. Qed.

Lemma canvas_set_document x (p : Player) : canvas (set_document x p) = canvas p.
Proof. reflexivity. Qed.

Lemma document_set_document x (p : Player) : document (set_document x p) = x.
Proof. reflexivity. Qed.

Lemma timers_set_document x (p : Player) : timers (set_document x p) = timers p.
Proof. reflexivity. Qed.

Lemma images_set_document x (p : Player) : images (set_document x p) = images p.
Proof. reflexivity. Qed.

Lemma loadedCount_set_document x (p : Player) : loadedCount (set_document x p) = loadedCount p.
Proof. reflexivity. Qed.

Lemma currentFrame_set_document x (p : Player) : currentFrame (set_document x p) = currentFrame p.
Proof. reflexivity. Qed.

Lemma isLoaded_set_document x (p : Player) : isLoaded (set_document x p) = isLoaded p.
Proof. reflexivity. Qed.

Lemma isAnimationComplete_set_document x (p : Player) : isAnimationComplete (set_document x p) = isAnimationComplete p.
Proof. reflexivity. Qed.

Lemma canvas_set_timers x (p : Player) : canvas (set_timers x p) = canvas p.
Proof. reflexivity. Qed.

Lemma document_set_timers x (p : Player) : document (set_timers x p) = document p.
Proof. reflexivity. Qed.

Lemma timers_set_timers x (p : Player) : timers (set_timers x p) = x.
Proof. reflexivity. Qed.

Lemma images_set_timers x (p : Player) : images (set_timers x p) = images p.
Proof. reflexivity. Qed.

Lemma loadedCount_set_timers x (p : Player) : loadedCount (set_timers x p) = loadedCount p.
Proof. reflexivity. Qed.

Lemma currentFrame_set_timers x (p : Player) : currentFrame (set_timers x p) = currentFrame p.
Proof. reflexivity. Qed.

Lemma isLoaded_set_timers x (p : Player) : isLoaded (set_timers x p) = isLoaded p.
Proof. reflexivity. Qed.

Lemma isAnimationComplete_set_timers x (p : Player) : isAnimationComplete (set_timers x p) = isAnimationComplete p.
Proof. reflexivity. Qed.

Lemma canvas_set_images x (p : Player) : canvas (set_images x p) = canvas p.
Proof. reflexivity. Qed.

Lemma document_set_images x (p : Player) : document (set_images x p) = document p.
Proof. reflexivity. Qed.

Lemma timers_set_images x (p : Player) : timers (set_images x p) = timers p.
Proof. reflexivity. Qed.

Lemma images_set_images x (p : Player) : images (set_images x p) = x.
Proof. reflexivity. Qed.

Lemma loadedCount_set_images x (p : Player) : loadedCount (set_images x p) = loadedCount p.
Proof. reflexivity. Qed.

Lemma currentFrame_set_images x (p : Player) : currentFrame (set_images x p) = currentFrame p.
Proof. reflexivity. Qed.

Lemma isLoaded_set_images x (p : Player) : isLoaded (set_images x p) = isLoaded p.
Proof. reflexivity. Qed.

Lemma isAnimationComplete_set_images x (p : Player) : isAnimationComplete (set_images x p) = isAnimationComplete p.
Proof. reflexivity. Qed.

Lemma canvas_set_loadedCount x (p : Player) : canvas (set_loadedCount x p) = canvas p.
Proof. reflexivity. Qed.

Lemma document_set_loadedCount x (p : Player) : document (set_loadedCount x p) = document p.
Proof. reflexivity. Qed.

Lemma timers_set_loadedCount x (p : Player) : timers (set_loadedCount x p) = timers p.
Proof. reflexivity. Qed.

Lemma images_set_loadedCount x (p : Player) : images (set_loadedCount x p) = images p.
Proof. reflexivity. Qed.

Lemma loadedCount_set_loadedCount x (p : Player) : loadedCount (set_loadedCount x p) = x.
Proof. reflexivity. Qed.

Lemma currentFrame_set_loadedCount x (p : Player) : currentFrame (set_loadedCount x p) = currentFrame p.
Proof. reflexivity. Qed.

Lemma isLoaded_set_loadedCount x (p : Player) : isLoaded (set_loadedCount x p) = isLoaded p.
Proof. reflexivity. Qed.

Lemma isAnimationComplete_set_loadedCount x (p : Player) : isAnimationComplete (set_loadedCount x p) = isAnimationComplete p.
Proof. reflexivity. Qed.

Lemma canvas_set_currentFrame x (p : Player) : canvas (set_currentFrame x p) = canvas p.
Proof. reflexivity. Qed.

Lemma document_set_currentFrame x (p : Player) : document (set_currentFrame x p) = document p.
Proof. reflexivity. Qed.

Lemma timers_set_currentFrame x (p : Player) : timers (set_currentFrame x p) = timers p.
Proof. reflexivity. Qed.

Lemma images_set_currentFrame x (p : Player) : images (set_currentFrame x p) = images p.
Proof. reflexivity. Qed.

Lemma loadedCount_set_currentFrame x (p : Player) : loadedCount (set_currentFrame x p) = loadedCount p.
Proof. reflexivity. Qed.

Lemma currentFrame_set_currentFrame x (p : Player) : currentFrame (set_currentFrame x p) = x.
Proof. reflexivity. Qed.

Lemma isLoaded_set_currentFrame x (p : Player) : isLoaded (set_currentFrame x p) = isLoaded p.
Proof. reflexivity. Qed.

Lemma isAnimationComplete_set_currentFrame x (p : Player) : isAnimationComplete (set_currentFrame x p) = isAnimationComplete p.
Proof. reflexivity. Qed.

Lemma canvas_set_isLoaded x (p : Player) : canvas (set_isLoaded x p) = canvas p.
Proof. reflexivity. Qed.

Lemma document_set_isLoaded x (p : Player) : document (set_isLoaded x p) = document p.
Proof. reflexivity. Qed.

Lemma timers_set_isLoaded x (p : Player) : timers (set_isLoaded x p) = timers p.
Proof. reflexivity. Qed.

Lemma images_set_isLoaded x (p : Player) : images (set_isLoaded x p) = images p.
Proof. reflexivity. Qed.

Lemma loadedCount_set_isLoaded x (p : Player) : loadedCount (set_isLoaded x p) = loadedCount p.
Proof. reflexivity. Qed.

Lemma currentFrame_set_isLoaded x (p : Player) : currentFrame (set_isLoaded x p) = currentFrame p.
Proof. reflexivity. Qed.

Lemma isLoaded_set_isLoaded x (p : Player) : isLoaded (set_isLoaded x p) = x.
Proof. reflexivity. Qed.

Lemma isAnimationComplete_set_isLoaded x (p : Player) : isAnimationComplete (set_isLoaded x p) = isAnimationComplete p.
Proof. reflexivity. Qed.

Lemma canvas_set_isAnimationComplete x (p : Player) : canvas (set_isAnimationComplete x p) = canvas p.
Proof. reflexivity. Qed.

Lemma document_set_isAnimationComplete x (p : Player) : document (set_isAnimationComplete x p) = document p.
Proof. reflexivity. Qed.

Lemma timers_set_isAnimationComplete x (p : Player) : timers (set_isAnimationComplete x p) = timers p.
Proof. reflexivity. Qed.

Lemma images_set_isAnimationComplete x (p : Player) : images (set_isAnimationComplete x p) = images p.
Proof. reflexivity. Qed.

Lemma loadedCount_set_isAnimationComplete x (p : Player) : loadedCount (set_isAnimationComplete x p) = loadedCount p.
Proof. reflexivity. Qed.

Lemma currentFrame_set_isAnimationComplete x (p : Player) : currentFrame (set_isAnimationComplete x p) = currentFrame p.
Proof. reflexivity. Qed.

Lemma isLoaded_set_isAnimationComplete x (p : Player) : isLoaded (set_isAnimationComplete x p) = isLoaded p.
Proof. reflexivity. Qed.

Lemma isAnimationComplete_set_isAnimationComplete x (p : Player) : isAnimationComplete (set_isAnimationComplete x p) = x.
Proof. reflexivity. Qed.

End Setters.

Create Rewrite HintDb player.

#[global] Hint Rewrite canvas_set_canvas document_set_canvas timers_set_canvas images_set_canvas : player.
#[global] Hint Rewrite loadedCount_set_canvas currentFrame_set_canvas isLoaded_set_canvas isAnimationComplete_set_canvas : player.
#[global] Hint Rewrite canvas_set_document document_set_document timers_set_document images_set_document : player.
#[global] Hint Rewrite loadedCount_set_document currentFrame_set_document isLoaded_set_document isAnimationComplete_set_document : player.
#[global] Hint Rewrite canvas_set_timers document_set_timers timers_set_timers images_set_timers : player.
#[global] Hint Rewrite loadedCount_set_timers currentFrame_set_timers isLoaded_set_timers isAnimationComplete_set_timers : player.
#[global] Hint Rewrite canvas_set_images document_set_images timers_set_images images_set_images : player.
#[global] Hint Rewrite loadedCount_set_images currentFrame_set_images isLoaded_set_images isAnimationComplete_set_images : player.
#[global] Hint Rewrite canvas_set_loadedCount document_set_loadedCount timers_set_loadedCount images_set_loadedCount : player.
#[global] Hint Rewrite loadedCount_set_loadedCount currentFrame_set_loadedCount isLoaded_set_loadedCount isAnimationComplete_set_loadedCount : player.
#[global] Hint Rewrite canvas_set_currentFrame document_set_currentFrame timers_set_currentFrame images_set_currentFrame : player.
#[global] Hint Rewrite loadedCount_set_currentFrame currentFrame_set_currentFrame isLoaded_set_currentFrame isAnimationComplete_set_currentFrame : player.
#[global] Hint Rewrite canvas_set_isLoaded document_set_isLoaded timers_set_isLoaded images_set_isLoaded : player.
#[global] Hint Rewrite loadedCount_set_isLoaded currentFrame_set_isLoaded isLoaded_set_isLoaded isAnimationComplete_set_isLoaded : player.
#[global] Hint Rewrite canvas_set_isAnimationComplete document_set_isAnimationComplete timers_set_isAnimationComplete images_set_isAnimationComplete : player.
#[global] Hint Rewrite loadedCount_set_isAnimationComplete currentFrame_set_isAnimationComplete isLoaded_set_isAnimationComplete isAnimationComplete_set_isAnimationComplete : player.

(** ** What [drawFrame] and [resize] leave alone *)

Section Frames.

(** [drawFrame] writes the canvas and nothing else. *)
Lemma drawFrame_canvas_only (env : Layout) (i : number) (p : Player) :
  drawFrame env i p = set_canvas (canvas (drawFrame env i p)) p.
Proof.
  unfold drawFrame.
  destruct (image_at p i) as [img |]; [| destruct p; reflexivity].
  destruct (ctx (canvas p)) as [cx |]; [| destruct p; reflexivity].
  rewrite canvas_set_canvas. reflexivity.
Qed.

Lemma drawFrame_document env i p : document (drawFrame env i p) = document p.
Proof. rewrite drawFrame_canvas_only. reflexivity. Qed.

Lemma drawFrame_timers env i p : timers (drawFrame env i p) = timers p.
Proof. rewrite drawFrame_canvas_only. reflexivity. Qed.

Lemma drawFrame_images env i p : images (drawFrame env i p) = images p.
Proof. rewrite drawFrame_canvas_only. reflexivity. Qed.

Lemma drawFrame_loadedCount env i p : loadedCount (drawFrame env i p) = loadedCount p.
Proof. rewrite drawFrame_canvas_only. reflexivity. Qed.

Lemma drawFrame_currentFrame env i p : currentFrame (drawFrame env i p) = currentFrame p.
Proof. rewrite drawFrame_canvas_only. reflexivity. Qed.

Lemma drawFrame_isLoaded env i p : isLoaded (drawFrame env i p) = isLoaded p.
Proof. rewrite drawFrame_canvas_only. reflexivity. Qed.

Lemma drawFrame_isAnimationComplete env i p :
  isAnimationComplete (drawFrame env i p) = isAnimationComplete p.
Proof. rewrite drawFrame_canvas_only. reflexivity. Qed.

Lemma resize_images env p : images (resize env p) = images p.
Proof.
  unfold resize.
  match goal with |- context [if ?b then _ else _] => destruct b end;
    [rewrite drawFrame_images |]; reflexivity.
Qed.

Lemma resize_currentFrame env p : currentFrame (resize env p) = currentFrame p.
Proof.
  unfold resize.
  match goal with |- context [if ?b then _ else _] => destruct b end;
    [rewrite drawFrame_currentFrame |]; reflexivity.
Qed.

Lemma resize_isLoaded env p : isLoaded (resize env p) = isLoaded p.
Proof.
  unfold resize.
  match goal with |- context [if ?b then _ else _] => destruct b end;
    [rewrite drawFrame_isLoaded |]; reflexivity.
Qed.

Lemma resize_loadedCount env p : loadedCount (resize env p) = loadedCount p.
Proof.
  unfold resize.
  match goal with |- context [if ?b then _ else _] => destruct b end;
    [rewrite drawFrame_loadedCount |]; reflexivity.
Qed.

Lemma resize_timers env p : timers (resize env p) = timers p.
Proof.
  unfold resize.
  match goal with |- context [if ?b then _ else _] => destruct b end;
    [rewrite drawFrame_timers |]; reflexivity.
Qed.

End Frames.

(** ** The scroll handler *)

Section Scroll.

Local Open Scope Q_scope.

Lemma ltb_not_geb (a b : number) : Num.ltb a b = true -> Num.geb a b = false.
Proof.
  destruct a as [ | | x | ], b as [ | | y | ]; try discriminate; try reflexivity.
  intros H. apply (proj1 (ltb_Fin _ _)) in H.
  destruct (Num.geb (Fin x) (Fin y)) eqn:G; [| reflexivity].
  apply (proj1 (geb_Fin _ _)) in G. lra.
Qed.

(** Before the frame set is ready the handler returns at once. *)
Lemma handleScroll_not_ready (env : Layout) (p : Player) :
  isLoaded p = false -> handleScroll env p = p.
Proof. intros H. unfold handleScroll. rewrite H. reflexivity. Qed.

(** Once ready, the overlay found by the selector gets the positioning
    that [pin] computes from the progress. *)
Lemma handleScroll_overlay (env : Layout) (p : Player) :
  isLoaded p = true ->
  heroOverlay (document (handleScroll env p)) =
  option_map (pin env (progress env)) (heroOverlay (document p)).
Proof.
  intros H. unfold handleScroll. rewrite H. cbn [negb].
  match goal with |- context [if ?b then drawFrame _ _ _ else _] => destruct b end.
  - rewrite drawFrame_document. cbn. destruct (heroOverlay (document p)); reflexivity.
  - cbn. destruct (heroOverlay (document p)); reflexivity.
Qed.

Lemma pin_released (env : Layout) (pr : number) (el : Element) :
  Num.geb pr Num.one = true ->
  style_position (pin env pr el) = Some Absolute /\
  style_top (pin env pr el) =
    Some (Px (inject_Z (hero_offsetHeight env) - inject_Z (innerHeight env))).
Proof. intros H. unfold pin. rewrite H. split; reflexivity. Qed.

Lemma pin_held (env : Layout) (pr : number) (el : Element) :
  Num.geb pr Num.one = false ->
  style_position (pin env pr el) = Some Fixed /\
  style_top (pin env pr el) = Some Unitless0.
Proof. intros H. unfold pin. rewrite H. split; reflexivity. Qed.

(** C10.  While [isLoaded] is false (the ready transition has not
    happened) a scroll evaluation changes nothing: the player after
    [handleScroll] is the player before it, canvas bitmap, progress-bar
    width, class lists and overlay positioning included. *)
Theorem C10_handleScroll_is_noop_while_loading (env : Layout) (p : Player) :
  isLoaded p = false ->
  handleScroll env p = p /\
  canvas (handleScroll env p) = canvas p /\
  document (handleScroll env p) = document p /\
  currentFrame (handleScroll env p) = currentFrame p.
Proof.
  intros H. rewrite (handleScroll_not_ready env p H). repeat split.
Qed.

Lemma overlay_fixed_below_one_absolute_from_one
    (env : Layout) (p : Player) (el : Element) :
  isLoaded p = true ->
  heroOverlay (document p) = Some el ->
  exists el',
    heroOverlay (document (handleScroll env p)) = Some el' /\
    (Num.ltb (progress env) Num.one = true ->
       style_position el' = Some Fixed /\ style_top el' = Some Unitless0) /\
    (Num.geb (progress env) Num.one = true ->
       style_position el' = Some Absolute /\
       style_top el' =
         Some (Px (inject_Z (hero_offsetHeight env) - inject_Z (innerHeight env)))) /\
    ((style_position el' = Some Fixed /\ style_top el' = Some Unitless0) \/
     (style_position el' = Some Absolute /\
      style_top el' =
        Some (Px (inject_Z (hero_offsetHeight env) - inject_Z (innerHeight env))))).
Proof.
  intros Hready Hov.
  exists (pin env (progress env) el).
  split; [rewrite (handleScroll_overlay env p Hready), Hov; reflexivity |].
  split; [| split].
  - intros Hlt. apply pin_held, ltb_not_geb, Hlt.
  - intros Hge. apply pin_released, Hge.
  - destruct (Num.geb (progress env) Num.one) eqn:G.
    + right. apply pin_released, G.
    + left. apply pin_held, G.
Qed.

(** C8 (amended).  On a scroll evaluation of a ready player the overlay is
    left in one of two states, chosen by the progress alone: fixed with top
    0 when the progress is below 1, absolute with top
    [containerHeight - viewportHeight] pixels when it is at least 1.  On a
    player that is still loading the evaluation returns at its first line
    and the overlay stays as it was, whatever the progress. *)
Theorem C8_overlay_two_states_once_ready
    (env : Layout) (p : Player) (el : Element) :
  heroOverlay (document p) = Some el ->
  (isLoaded p = true ->
   exists el',
     heroOverlay (document (handleScroll env p)) = Some el' /\
     (Num.ltb (progress env) Num.one = true ->
        style_position el' = Some Fixed /\ style_top el' = Some Unitless0) /\
     (Num.geb (progress env) Num.one = true ->
        style_position el' = Some Absolute /\
        style_top el' =
          Some (Px (inject_Z (hero_offsetHeight env) - inject_Z (innerHeight env)))) /\
     ((style_position el' = Some Fixed /\ style_top el' = Some Unitless0) \/
      (style_position el' = Some Absolute /\
       style_top el' =
         Some (Px (inject_Z (hero_offsetHeight env) - inject_Z (innerHeight env)))))) /\
  (isLoaded p = false ->
   heroOverlay (document (handleScroll env p)) = Some el).
Proof.
  intros Hov. split.
  - intros Hready.
    exact (overlay_fixed_below_one_absolute_from_one env p el Hready Hov).
  - intros Hloading. rewrite (handleScroll_not_ready env p Hloading). exact Hov.
Qed.

End Scroll.

(** ** Preloading *)

Section Preload.

Lemma run_app (evs1 evs2 : list (Layout * Event)) (p : Player) :
  run (evs1 ++ evs2) p = run evs2 (run evs1 p).
Proof. unfold run. apply fold_left_app. Qed.

Lemma run_cons (e : Layout * Event) (evs : list (Layout * Event)) (p : Player) :
  run (e :: evs) p = run evs (dispatch (fst e) (snd e) p).
Proof. reflexivity. Qed.

(** Every callback of the loop, success or failure, counts once. *)
Lemma callback_counts (env : Layout) (ev : Event) (p : Player) :
  is_callback ev -> loadedCount (dispatch env ev p) = S (loadedCount p).
Proof.
  destruct ev; cbn [is_callback dispatch]; try contradiction; intros _.
  - unfold img_onload. cbn [loadedCount set_loadedCount set_images].
    destruct (Nat.eqb (S (loadedCount p)) frameCount); [| reflexivity].
    cbn [timers loadedCount set_timers]. rewrite drawFrame_loadedCount. reflexivity.
  - reflexivity.
Qed.

Lemma callbacks_count (env : Layout) (evs : list Event) (p : Player) :
  Forall is_callback evs ->
  loadedCount (run (at_layout env evs) p) = (loadedCount p + length evs)%nat.
Proof.
  intros H. revert p. induction H as [| ev evs Hev _ IH]; intros p.
  - cbn. lia.
  - cbn [at_layout map]. rewrite run_cons. cbn [fst snd].
    fold (at_layout env evs). rewrite IH, (callback_counts env ev p Hev).
    cbn [length]. lia.
Qed.

(** A callback that does not bring the count to [frameCount] leaves the
    ready flag and the timers as they are. *)
Lemma callback_below (env : Layout) (ev : Event) (p : Player) :
  is_callback ev -> S (loadedCount p) <> frameCount ->
  isLoaded (dispatch env ev p) = isLoaded p /\
  timers (dispatch env ev p) = timers p.
Proof.
  destruct ev; cbn [is_callback dispatch]; try contradiction; intros _ Hc.
  - unfold img_onload. cbn [loadedCount set_loadedCount set_images].
    destruct (Nat.eqb_spec (S (loadedCount p)) frameCount) as [E | _]; [contradiction |].
    split; reflexivity.
  - split; reflexivity.
Qed.

Lemma callbacks_below (env : Layout) (evs : list Event) (p : Player) :
  Forall is_callback evs ->
  (loadedCount p + length evs < frameCount)%nat ->
  isLoaded (run (at_layout env evs) p) = isLoaded p /\
  timers (run (at_layout env evs) p) = timers p.
Proof.
  intros H. revert p. induction H as [| ev evs Hev _ IH]; intros p Hlt.
  - split; reflexivity.
  - cbn [at_layout map]. rewrite run_cons. cbn [fst snd].
    fold (at_layout env evs). cbn [length] in Hlt.
    destruct (callback_below env ev p Hev) as [E1 E2]; [lia |].
    destruct (IH (dispatch env ev p)) as [F1 F2].
    + rewrite (callback_counts env ev p Hev). lia.
    + rewrite F1, F2. split; assumption.
Qed.

(** The onload that brings the count to [frameCount] makes the player
    ready and schedules the hiding of the preloader. *)
Lemma onload_completes (env : Layout) (i : nat) (img : Image) (p : Player) :
  S (loadedCount p) = frameCount ->
  isLoaded (img_onload env i img p) = true /\
  timers (img_onload env i img p) = timers p ++ [mkTimer 500 HidePreloader].
Proof.
  intros Hc. unfold img_onload. cbn [loadedCount set_loadedCount set_images].
  rewrite Hc, Nat.eqb_refl. cbn [isLoaded timers set_timers].
  rewrite drawFrame_isLoaded, drawFrame_timers. split; reflexivity.
Qed.

(** The onerror that brings the count to [frameCount] does neither. *)
Lemma onerror_completes_nothing (i : nat) (p : Player) :
  isLoaded (img_onerror i p) = isLoaded p /\
  timers (img_onerror i p) = timers p.
Proof. split; reflexivity. Qed.

(** What [frameCount] callbacks, in any order and with any outcomes, do to
    a player that has counted none: the ready transition and its one timer
    happen exactly when the callback that completes the count is an
    onload. *)
Lemma ready_iff_last_callback_loads
    (env : Layout) (evs : list Event) (last : Event) (p : Player) :
  Forall is_callback evs -> is_callback last ->
  S (length evs) = frameCount ->
  loadedCount p = 0%nat -> isLoaded p = false -> timers p = [] ->
  let q := run (at_layout env (evs ++ [last])) p in
  loadedCount q = frameCount /\
  match last with
  | ImageLoaded _ _ => isLoaded q = true /\ timers q = [mkTimer 500 HidePreloader]
  | _ => isLoaded q = false /\ timers q = []
  end.
Proof.
  intros Hevs Hlast Hlen Hc Hl Ht q. subst q.
  unfold at_layout. rewrite map_app. fold (at_layout env evs).
  rewrite run_app. cbn [map run fold_left fst snd].
  pose proof (callbacks_count env evs p Hevs) as Hcount.
  destruct (callbacks_below env evs p Hevs) as [Hl' Ht']; [lia |].
  set (p' := run (at_layout env evs) p) in *.
  rewrite Hc in Hcount. cbn [Nat.add] in Hcount.
  split.
  - rewrite (callback_counts env last p' Hlast). lia.
  - destruct last; cbn [is_callback] in Hlast; try contradiction; cbn [dispatch].
    + destruct (onload_completes env i img p') as [E1 E2]; [lia |].
      rewrite E1, E2, Ht', Ht. split; reflexivity.
    + destruct (onerror_completes_nothing i p') as [E1 E2].
      rewrite E1, E2, Hl', Ht', Hl, Ht. split; reflexivity.
Qed.

(** C2 (the code departs from the claim).  The claim: whatever the order
    and the outcomes of the 192 callbacks, the player becomes ready and the
    preloader timer is set exactly once when the count reaches 192.  When
    frame 50 fails and its onerror is the last callback to run, the count
    reaches 192 in [img.onerror], which only counts: the player is not
    ready and no timer is set. *)
Theorem C2_failure_arriving_last_never_ready :
  let q := run (at_layout (layout_at 0) (failure_last 50)) fresh in
  length (failure_last 50) = frameCount /\
  loadedCount q = frameCount /\
  isLoaded q = false /\
  timers q = [].
Proof. vm_compute. repeat split. Qed.

End Preload.

(** ** The current frame *)

Section CurrentFrame.

Local Open Scope Q_scope.

Lemma frame_invariant_mono (p q : Player) :
  frame_invariant p ->
  currentFrame q = currentFrame p ->
  (forall i : nat, is_Some (images p !! i) -> is_Some (images q !! i)) ->
  frame_invariant q.
Proof.
  intros [H0 | (i & Hi & Hlt & Hs)] Hc Hm.
  - left. rewrite Hc. exact H0.
  - right. exists i. rewrite Hc. auto.
Qed.

Lemma insert_keeps_loaded (m : gmap nat Image) (k : nat) (img : Image) (i : nat) :
  is_Some (m !! i) -> is_Some (<[k := img]> m !! i).
Proof.
  intros H. destruct (decide (k = i)) as [-> | Hne].
  - rewrite lookup_insert_eq. eexists; reflexivity.
  - rewrite lookup_insert_ne by exact Hne. exact H.
Qed.

(** [newFrame] is NaN or an integer between 0 and 191. *)
Lemma newFrame_index (pr : number) (i : nat) :
  Num.array_index (newFrame pr) = Some i -> (i < frameCount)%nat.
Proof.
  unfold newFrame. rewrite last_frame. unfold Num.of_Z.
  destruct (clamp_spec (targetFrame pr) 0 (inject_Z 191)) as [[_ HN] | [_ (q & Hq & Hr)]].
  - change (inject_Z 191) with (191 # 1). lra.
  - change Num.zero with (Fin 0). rewrite HN. discriminate.
  - change Num.zero with (Fin 0). rewrite Hq. cbn [Num.array_index].
    destruct (Qeq_bool (inject_Z (Qfloor q)) q && (0 <=? Qfloor q)%Z) eqn:E; [| discriminate].
    intros [= <-]. apply andb_true_iff in E. destruct E as [_ E].
    apply Z.leb_le in E.
    assert (Qfloor q <= 191)%Z.
    { rewrite <- (Qfloor_Z 191). apply Qfloor_resp_le. apply Hr. }
    unfold frameCount. lia.
Qed.

(** The scroll handler never touches the frame set, and moves
    [currentFrame] only to a [newFrame] whose slot is loaded. *)
Lemma handleScroll_images (env : Layout) (p : Player) :
  images (handleScroll env p) = images p.
Proof.
  unfold handleScroll. destruct (negb (isLoaded p)); [reflexivity |].
  match goal with |- context [if ?b then drawFrame _ _ _ else _] => destruct b end.
  - rewrite drawFrame_document, document_set_currentFrame.
    destruct (heroOverlay (document p)); autorewrite with player;
      rewrite drawFrame_images; apply images_set_currentFrame.
  - destruct (heroOverlay (document p)); autorewrite with player; reflexivity.
Qed.

Lemma handleScroll_currentFrame (env : Layout) (p : Player) :
  currentFrame (handleScroll env p) = currentFrame p \/
  (isLoaded p = true /\
   Num.eqb (newFrame (progress env)) (currentFrame p) = false /\
   currentFrame (handleScroll env p) = newFrame (progress env) /\
   is_Some (image_at p (newFrame (progress env)))).
Proof.
  unfold handleScroll. destruct (isLoaded p) eqn:L; [| left; reflexivity].
  cbn [negb].
  destruct (Num.eqb (newFrame (progress env)) (currentFrame p)) eqn:Ne;
    cbn [negb andb].
  - left.
    destruct (heroOverlay (document p)); autorewrite with player; reflexivity.
  - destruct (bool_decide (is_Some (image_at p (newFrame (progress env))))) eqn:B.
    + right. apply bool_decide_eq_true in B.
      repeat split; try assumption.
      rewrite drawFrame_document, document_set_currentFrame.
      destruct (heroOverlay (document p)); autorewrite with player;
        rewrite drawFrame_currentFrame; apply currentFrame_set_currentFrame.
    + left. destruct (heroOverlay (document p)); autorewrite with player; reflexivity.
Qed.

Lemma image_at_slot (p : Player) (f : number) :
  is_Some (image_at p f) ->
  exists i : nat, Num.array_index f = Some i /\ is_Some (images p !! i).
Proof.
  unfold image_at. destruct (Num.array_index f) as [i |].
  - intros H. exists i. split; [reflexivity | exact H].
  - intros [x Hx]. discriminate Hx.
Qed.

Lemma handleScroll_preserves (env : Layout) (p : Player) :
  frame_invariant p -> frame_invariant (handleScroll env p).
Proof.
  intros Hinv.
  destruct (handleScroll_currentFrame env p) as [Hc | (_ & _ & Hc & Hs)].
  - apply (frame_invariant_mono p); [assumption | assumption |].
    intros i. rewrite handleScroll_images. auto.
  - right. apply image_at_slot in Hs. destruct Hs as (i & Hi & Hs).
    exists i. rewrite Hc, handleScroll_images.
    split; [exact Hi |]. split; [apply (newFrame_index _ _ Hi) | exact Hs].
Qed.

Lemma dispatch_preserves (env : Layout) (ev : Event) (p : Player) :
  frame_invariant p -> frame_invariant (dispatch env ev p).
Proof.
  intros Hinv. destruct ev; cbn [dispatch].
  - apply (frame_invariant_mono p); [assumption | |].
    + unfold firstImage_onload. rewrite drawFrame_currentFrame.
      apply currentFrame_set_images.
    + intros i Hi. unfold firstImage_onload.
      rewrite drawFrame_images, images_set_images.
      apply insert_keeps_loaded, Hi.
  - unfold img_onload.
    match goal with |- context [if ?b then _ else _] => destruct b end.
    + apply (frame_invariant_mono p); [assumption | |].
      * autorewrite with player. rewrite drawFrame_currentFrame.
        autorewrite with player. reflexivity.
      * intros i0 Hi. autorewrite with player. rewrite drawFrame_images.
        autorewrite with player. apply insert_keeps_loaded, Hi.
    + apply (frame_invariant_mono p); [assumption | |].
      * autorewrite with player. reflexivity.
      * intros i0 Hi. autorewrite with player. apply insert_keeps_loaded, Hi.
  - apply (frame_invariant_mono p); [assumption | reflexivity | auto].
  - apply (frame_invariant_mono p); [assumption | apply resize_currentFrame |].
    intros i. rewrite resize_images. auto.
  - apply (frame_invariant_mono p); [assumption | reflexivity | auto].
  - destruct (timers p !! k) as [t |]; [| assumption].
    destruct (action t); unfold run_timer.
    + apply (frame_invariant_mono p); [assumption | |].
      * autorewrite with player. reflexivity.
      * intros i. autorewrite with player. auto.
    + apply (frame_invariant_mono p); [assumption | |].
      * rewrite resize_currentFrame. apply currentFrame_set_timers.
      * intros i. rewrite resize_images, images_set_timers. auto.
  - apply handleScroll_preserves, Hinv.
Qed.

Lemma reachable_frame_invariant (p : Player) : reachable p -> frame_invariant p.
Proof.
  induction 1 as [env has_ctx d | env ev p _ IH _].
  - left. unfold constructor. rewrite resize_currentFrame. reflexivity.
  - apply dispatch_preserves, IH.
Qed.

(** The scroll handler leaves the count and the ready flag alone. *)
Lemma handleScroll_loadedCount (env : Layout) (p : Player) :
  loadedCount (handleScroll env p) = loadedCount p.
Proof.
  unfold handleScroll. destruct (negb (isLoaded p)); [reflexivity |].
  match goal with |- context [if ?b then drawFrame _ _ _ else _] => destruct b end.
  - rewrite drawFrame_document, document_set_currentFrame.
    destruct (heroOverlay (document p)); autorewrite with player;
      rewrite drawFrame_loadedCount; apply loadedCount_set_currentFrame.
  - destruct (heroOverlay (document p)); autorewrite with player; reflexivity.
Qed.

Lemma handleScroll_isLoaded (env : Layout) (p : Player) :
  isLoaded (handleScroll env p) = isLoaded p.
Proof.
  unfold handleScroll. destruct (negb (isLoaded p)); [reflexivity |].
  match goal with |- context [if ?b then drawFrame _ _ _ else _] => destruct b end.
  - rewrite drawFrame_document, document_set_currentFrame.
    destruct (heroOverlay (document p)); autorewrite with player;
      rewrite drawFrame_isLoaded; apply isLoaded_set_currentFrame.
  - destruct (heroOverlay (document p)); autorewrite with player; reflexivity.
Qed.

(** An event never lowers the count, and raises the ready flag only in the
    onload that brings the count to [frameCount]. *)
Lemma dispatch_count_and_flag (env : Layout) (ev : Event) (p : Player) :
  (loadedCount p <= loadedCount (dispatch env ev p))%nat /\
  (isLoaded (dispatch env ev p) = isLoaded p \/
   loadedCount (dispatch env ev p) = frameCount).
Proof.
  destruct ev; unfold dispatch.
  - unfold firstImage_onload.
    rewrite drawFrame_loadedCount, drawFrame_isLoaded.
    autorewrite with player. split; [lia | left; reflexivity].
  - unfold img_onload. autorewrite with player.
    destruct (Nat.eqb_spec (S (loadedCount p)) frameCount) as [E | E].
    + autorewrite with player. rewrite drawFrame_loadedCount.
      autorewrite with player. split; [lia | right; exact E].
    + autorewrite with player. split; [lia | left; reflexivity].
  - unfold img_onerror. autorewrite with player. split; [lia | left; reflexivity].
  - rewrite resize_loadedCount, resize_isLoaded. split; [lia | left; reflexivity].
  - unfold on_orientationchange. autorewrite with player.
    split; [lia | left; reflexivity].
  - destruct (timers p !! k) as [t |]; [| split; [lia | left; reflexivity]].
    destruct (action t); unfold run_timer.
    + autorewrite with player. split; [lia | left; reflexivity].
    + rewrite resize_loadedCount, resize_isLoaded. autorewrite with player.
      split; [lia | left; reflexivity].
  - rewrite handleScroll_loadedCount, handleScroll_isLoaded.
    split; [lia | left; reflexivity].
Qed.

(** A reachable player is not ready as long as fewer than [frameCount]
    callbacks have completed. *)
Lemma reachable_ready_counted (p : Player) :
  reachable p -> isLoaded p = true -> (frameCount <= loadedCount p)%nat.
Proof.
  induction 1 as [env has_ctx d | env ev p _ IH _].
  - unfold constructor. rewrite resize_isLoaded. discriminate.
  - destruct (dispatch_count_and_flag env ev p) as [Hle [Hf | Hc]].
    + rewrite Hf. intros H. apply IH in H. lia.
    + intros _. lia.
Qed.

Lemma reachable_loading_not_ready (p : Player) :
  reachable p -> (loadedCount p < frameCount)%nat -> isLoaded p = false.
Proof.
  intros Hr Hlt. destruct (isLoaded p) eqn:E; [| reflexivity].
  apply (reachable_ready_counted p Hr) in E. lia.
Qed.

(** So until all the callbacks have completed a scroll evaluation changes
    nothing. *)
Lemma handleScroll_while_loading (env : Layout) (p : Player) :
  reachable p -> (loadedCount p < frameCount)%nat -> handleScroll env p = p.
Proof.
  intros Hr Hlt. apply handleScroll_not_ready.
  apply reachable_loading_not_ready; assumption.
Qed.

(** C5.  In every reachable state [currentFrame] is the initial 0 or the
    index, below [frameCount], of a loaded slot; and a scroll evaluation
    keeps it so, since it assigns [currentFrame] only under the test that
    the slot of the new frame is loaded. *)
Theorem C5_currentFrame_is_zero_or_a_loaded_slot (p : Player) :
  reachable p ->
  frame_invariant p /\
  forall env : Layout,
    frame_invariant (handleScroll env p) /\
    (currentFrame (handleScroll env p) = currentFrame p \/
     is_Some (image_at p (currentFrame (handleScroll env p)))).
Proof.
  intros Hr. pose proof (reachable_frame_invariant p Hr) as Hinv.
  split; [exact Hinv |]. intros env. split.
  - apply handleScroll_preserves, Hinv.
  - destruct (handleScroll_currentFrame env p) as [Hc | (_ & _ & Hc & Hs)].
    + left. exact Hc.
    + right. rewrite Hc. exact Hs.
Qed.

End CurrentFrame.

(** ** Cover fit *)

Section CoverFit.

Local Open Scope Q_scope.

Lemma div_Fin_pos (x y : Q) : 0 < y -> Num.div (Fin x) (Fin y) = Fin (x / y).
Proof.
  intros Hy. unfold Num.div.
  rewrite (proj2 (sgn_Gt y) Hy). reflexivity.
Qed.

Lemma inject_N_pos (n : N) : (0 < n)%N -> 0 < inject_Z (Z.of_N n).
Proof.
  intros H. change 0 with (inject_Z 0). rewrite <- Zlt_Qlt. lia.
Qed.

Lemma times_quotient (a b : Q) : 0 < b -> (a / b) * b == a.
Proof. intros H. field. lra. Qed.

(** With [ia < cw / ch] the height [cw / ia] overflows [ch]. *)
Lemma fill_width (ia cw ch : Q) :
  0 < ia -> 0 < ch -> ia < cw / ch -> ch <= cw / ia.
Proof.
  intros Hia Hch H.
  apply Qle_shift_div_l; [exact Hia |].
  assert (ia * ch < cw).
  { rewrite <- (times_quotient cw ch Hch).
    apply Qmult_lt_compat_r; assumption. }
  lra.
Qed.

(** Otherwise the width [ch * ia] overflows, or equals, [cw]. *)
Lemma fill_height (ia cw ch : Q) :
  0 < ch -> cw / ch <= ia -> cw <= ch * ia.
Proof.
  intros Hch H.
  rewrite <- (times_quotient cw ch Hch) at 1.
  rewrite (Qmult_comm ch ia).
  apply Qmult_le_compat_r; lra.
Qed.

Lemma aspect_pos (img : Image) :
  (0 < img_width img)%N -> (0 < img_height img)%N -> 0 < aspect img.
Proof.
  intros Hw Hh. unfold aspect.
  apply Qlt_shift_div_l; [apply inject_N_pos, Hh |].
  rewrite Qmult_0_l. apply inject_N_pos, Hw.
Qed.

Lemma exactFit_wide (img : Image) (cw ch : Q) :
  (0 < img_width img)%N -> (0 < img_height img)%N -> 0 < ch ->
  aspect img < cw / ch ->
  exactFit img (Fin cw) (Fin ch) =
  mkFit (Fin cw) (Fin (cw / aspect img))
        (Fin ((cw - cw) / 2)) (Fin ((ch - cw / aspect img) / 2)).
Proof.
  intros Hw Hh Hch Hlt. unfold exactFit, Num.of_N.
  rewrite (div_Fin_pos _ _ (inject_N_pos _ Hh)), (div_Fin_pos cw ch Hch).
  fold (aspect img). unfold Num.gtb.
  rewrite (proj2 (ltb_Fin _ _) Hlt).
  rewrite (div_Fin_pos cw _ (aspect_pos img Hw Hh)).
  reflexivity.
Qed.

Lemma exactFit_tall (img : Image) (cw ch : Q) :
  (0 < img_height img)%N -> 0 < ch ->
  cw / ch <= aspect img ->
  exactFit img (Fin cw) (Fin ch) =
  mkFit (Fin (ch * aspect img)) (Fin ch)
        (Fin ((cw - ch * aspect img) / 2)) (Fin ((ch - ch) / 2)).
Proof.
  intros Hh Hch Hle. unfold exactFit, Num.of_N.
  rewrite (div_Fin_pos _ _ (inject_N_pos _ Hh)), (div_Fin_pos cw ch Hch).
  fold (aspect img). unfold Num.gtb.
  rewrite (proj2 (ltb_Fin_false _ _) Hle).
  reflexivity.
Qed.

(** Without the rounding, the fit of an image on a surface of positive
    dimensions is finite, covers the surface, fills exactly one side (the
    width when the surface is wider in aspect than the image, the height
    otherwise), and is centred: each offset is half of surface minus drawn
    size. *)
Lemma exactFit_covers_and_centres (img : Image) (cw ch : Q) :
  (0 < img_width img)%N -> (0 < img_height img)%N -> 0 < cw -> 0 < ch ->
  exists dw dh ox oy : Q,
    exactFit img (Fin cw) (Fin ch) = mkFit (Fin dw) (Fin dh) (Fin ox) (Fin oy) /\
    cw <= dw /\ ch <= dh /\
    (dw == cw \/ dh == ch) /\
    (aspect img < cw / ch -> dw == cw) /\
    (~ aspect img < cw / ch -> dh == ch) /\
    ox == (cw - dw) / 2 /\
    oy == (ch - dh) / 2.
Proof.
  intros Hw Hh Hcw Hch.
  pose proof (aspect_pos img Hw Hh) as Hia.
  destruct (Qlt_le_dec (aspect img) (cw / ch)) as [Hlt | Hle].
  - exists cw, (cw / aspect img), ((cw - cw) / 2), ((ch - cw / aspect img) / 2).
    split; [apply exactFit_wide; assumption |].
    pose proof (fill_width _ _ _ Hia Hch Hlt) as Hfill.
    split; [lra |]. split; [exact Hfill |].
    split; [left; reflexivity |].
    split; [intros _; reflexivity |].
    split; [intros Hn; contradiction |].
    split; reflexivity.
  - exists (ch * aspect img), ch, ((cw - ch * aspect img) / 2), ((ch - ch) / 2).
    split; [apply exactFit_tall; assumption |].
    pose proof (fill_height _ _ _ Hch Hle) as Hfill.
    split; [exact Hfill |]. split; [lra |].
    split; [right; reflexivity |].
    split; [intros Hlt; lra |].
    split; [intros _; reflexivity |].
    split; reflexivity.
Qed.

End CoverFit.

(** ** Rendering *)

Section Render.

Local Open Scope Q_scope.

Lemma paintFrame_width env img cx0 p :
  cv_width (paintFrame env img cx0 p) = cv_width (canvas p).
Proof. unfold paintFrame. destruct (_ || _); reflexivity. Qed.

Lemma paintFrame_height env img cx0 p :
  cv_height (paintFrame env img cx0 p) = cv_height (canvas p).
Proof. unfold paintFrame. destruct (_ || _); reflexivity. Qed.

Lemma paintFrame_ctx env img cx0 p :
  ctx (paintFrame env img cx0 p) = Some (painted_ctx (density env p)).
Proof. unfold paintFrame. destruct (_ || _); reflexivity. Qed.

(** Whether an operation reaches a pixel depends on the size of the
    bitmap only, and the paint operations keep that size. *)
Lemma hits_size (cv cv' : Canvas) m x y w h px py :
  cv_width cv' = cv_width cv -> cv_height cv' = cv_height cv ->
  Canvas2D.hits cv' m x y w h px py = Canvas2D.hits cv m x y w h px py.
Proof.
  intros Hw Hh. unfold Canvas2D.hits, Canvas2D.in_bitmap. rewrite Hw, Hh. reflexivity.
Qed.

Lemma hits_clearRect cv cx a b c d m x y w h px py :
  Canvas2D.hits (Canvas2D.clearRect a b c d cx cv) m x y w h px py =
  Canvas2D.hits cv m x y w h px py.
Proof. apply hits_size; reflexivity. Qed.

Lemma hits_fillRect cv cx a b c d m x y w h px py :
  Canvas2D.hits (Canvas2D.fillRect a b c d cx cv) m x y w h px py =
  Canvas2D.hits cv m x y w h px py.
Proof. apply hits_size; reflexivity. Qed.

Lemma bitmap_clearRect x y w h cx cv px py :
  bitmap (Canvas2D.clearRect x y w h cx cv) px py =
  if Canvas2D.hits cv (transform cx) x y w h px py then Transparent
  else bitmap cv px py.
Proof. reflexivity. Qed.

Lemma bitmap_fillRect x y w h cx cv px py :
  bitmap (Canvas2D.fillRect x y w h cx cv) px py =
  if Canvas2D.hits cv (transform cx) x y w h px py
  then Paint (fillStyle cx)
  else bitmap cv px py.
Proof.
  unfold Canvas2D.fillRect, Canvas2D.with_bitmap. cbn [bitmap].
  destruct (Canvas2D.hits cv (transform cx) x y w h px py); reflexivity.
Qed.

Lemma bitmap_drawImage img x y w h cx cv px py :
  bitmap (Canvas2D.drawImage img x y w h cx cv) px py =
  if Canvas2D.hits cv (transform cx) x y w h px py
  then
    let u := Canvas2D.user_point (transform cx) px py in
    match Num.mul (Num.div (Num.sub (fst u) x) w) (Num.of_N (img_width img)),
          Num.mul (Num.div (Num.sub (snd u) y) h) (Num.of_N (img_height img)) with
    | Fin sx, Fin sy => over (img_texel img sx sy) (bitmap cv px py)
    | _, _ => bitmap cv px py
    end
  else bitmap cv px py.
Proof. reflexivity. Qed.

Lemma bitmap_with_ctx cv cx px py :
  bitmap (Canvas2D.with_ctx cv cx) px py = bitmap cv px py.
Proof. reflexivity. Qed.

(** The bitmap after clearing and filling the whole of it. *)
Lemma cleared_and_filled (cv : Canvas) (cx : Context2D) (px py : Z) :
  transform cx = Canvas2D.identity ->
  let cv1 :=
    Canvas2D.clearRect Num.zero Num.zero
      (Num.of_Z (cv_width cv)) (Num.of_Z (cv_height cv)) cx cv in
  bitmap
    (Canvas2D.fillRect Num.zero Num.zero
       (Num.of_Z (cv_width cv1)) (Num.of_Z (cv_height cv1))
       (Canvas2D.set_fillStyle background cx) cv1) px py =
  if whole cv px py then Paint background else bitmap cv px py.
Proof.
  intros Hid cv1. rewrite bitmap_fillRect. unfold cv1 at 1.
  rewrite hits_clearRect. unfold cv1. rewrite bitmap_clearRect.
  change (transform (Canvas2D.set_fillStyle background cx)) with (transform cx).
  change (cv_width (Canvas2D.clearRect _ _ _ _ cx cv)) with (cv_width cv).
  change (cv_height (Canvas2D.clearRect _ _ _ _ cx cv)) with (cv_height cv).
  rewrite Hid. fold (whole cv px py).
  destruct (whole cv px py); reflexivity.
Qed.

Lemma paintFrame_bitmap env img cx0 p (px py : Z) :
  bitmap (paintFrame env img cx0 p) px py =
  repaint env img p px py (bitmap (canvas p) px py).
Proof.
  unfold paintFrame, repaint. fold (degenerate img).
  destruct (degenerate img).
  - rewrite bitmap_with_ctx. apply cleared_and_filled. reflexivity.
  - rewrite bitmap_with_ctx, bitmap_drawImage.
    rewrite hits_fillRect, hits_clearRect.
    rewrite cleared_and_filled by reflexivity.
    reflexivity.
Qed.

Lemma drawFrame_loaded env i p img cx0 :
  image_at p i = Some img -> ctx (canvas p) = Some cx0 ->
  drawFrame env i p = set_canvas (paintFrame env img cx0 p) p.
Proof. intros Hi Hc. unfold drawFrame. rewrite Hi, Hc. reflexivity. Qed.

Lemma drawFrame_skipped env i p :
  image_at p i = None \/ ctx (canvas p) = None ->
  drawFrame env i p = p.
Proof.
  intros [H | H]; unfold drawFrame; rewrite H; [reflexivity |].
  destruct (image_at p i); reflexivity.
Qed.

Lemma image_at_set_canvas cv p i : image_at (set_canvas cv p) i = image_at p i.
Proof. reflexivity. Qed.

Lemma over_idem (s d : Color) : over s (over s d) = over s d.
Proof. destruct s; reflexivity. Qed.

(** Repainting a repainted pixel changes nothing. *)
Lemma repaint_idem env img p px py c :
  repaint env img p px py (repaint env img p px py c) = repaint env img p px py c.
Proof.
  unfold repaint.
  destruct (whole (canvas p) px py); destruct (degenerate img); try reflexivity;
    destruct (Canvas2D.hits _ _ _ _ _ _ _ _); try reflexivity;
    cbv zeta;
    destruct (Num.mul (Num.div (Num.sub (fst _) _) _) _); try reflexivity;
    destruct (Num.mul (Num.div (Num.sub (snd _) _) _) _); try reflexivity;
    apply over_idem.
Qed.

(** The repainting is the same on a canvas of the same size. *)
Lemma repaint_set_canvas env img p cv px py c :
  cv_width cv = cv_width (canvas p) ->
  cv_height cv = cv_height (canvas p) ->
  repaint env img (set_canvas cv p) px py c = repaint env img p px py c.
Proof.
  intros Hw Hh. unfold repaint, whole. rewrite canvas_set_canvas, Hw, Hh.
  rewrite !(hits_size (canvas p) cv) by assumption.
  reflexivity.
Qed.

(** Drawing the same frame again leaves the surface as it was. *)
Lemma drawFrame_twice env i p :
  let p1 := drawFrame env i p in
  let p2 := drawFrame env i p1 in
  (forall px py : Z, bitmap (canvas p2) px py = bitmap (canvas p1) px py) /\
  cv_width (canvas p2) = cv_width (canvas p1) /\
  cv_height (canvas p2) = cv_height (canvas p1) /\
  ctx (canvas p2) = ctx (canvas p1) /\
  p2 = set_canvas (canvas p2) p1.
Proof.
  intros p1 p2.
  assert (Hrest : p2 = set_canvas (canvas p2) p1) by apply drawFrame_canvas_only.
  destruct (image_at p i) as [img |] eqn:Hi;
    [destruct (ctx (canvas p)) as [cx0 |] eqn:Hc |].
  - assert (E1 : p1 = set_canvas (paintFrame env img cx0 p) p)
      by (apply drawFrame_loaded; assumption).
    assert (E2 : p2 = set_canvas (paintFrame env img (painted_ctx (density env p)) p1) p1).
    { apply drawFrame_loaded.
      - rewrite E1, image_at_set_canvas. exact Hi.
      - rewrite E1, canvas_set_canvas. apply paintFrame_ctx. }
    clearbody p1 p2. subst p2. clear Hrest. subst p1.
    rewrite !canvas_set_canvas.
    split; [| split; [| split; [| split]]].
    + intros px py. rewrite !paintFrame_bitmap, canvas_set_canvas.
      rewrite repaint_set_canvas
        by (apply paintFrame_width || apply paintFrame_height).
      rewrite paintFrame_bitmap. apply repaint_idem.
    + rewrite paintFrame_width, canvas_set_canvas. reflexivity.
    + rewrite paintFrame_height, canvas_set_canvas. reflexivity.
    + rewrite !paintFrame_ctx. reflexivity.
    + reflexivity.
  - assert (E1 : p1 = p) by (apply drawFrame_skipped; right; exact Hc).
    assert (E2 : p2 = p1).
    { apply drawFrame_skipped. right. rewrite E1. exact Hc. }
    split; [intros px py | split; [| split; [| split; [| exact Hrest]]]];
      rewrite E2; reflexivity.
  - assert (E1 : p1 = p) by (apply drawFrame_skipped; left; exact Hi).
    assert (E2 : p2 = p1).
    { apply drawFrame_skipped. left. rewrite E1. exact Hi. }
    split; [intros px py | split; [| split; [| split; [| exact Hrest]]]];
      rewrite E2; reflexivity.
Qed.

(** C9.  For a loaded slot whose image has positive dimensions, a second
    [drawFrame] of the same index under the same layout (same surface
    size, same density) leaves every pixel of the bitmap, the size of the
    bitmap and the state of the context as the first call left them, and
    touches nothing else. *)
Theorem C9_drawFrame_is_idempotent
    (env : Layout) (i : number) (p : Player) (img : Image) :
  image_at p i = Some img ->
  (0 < img_width img)%N -> (0 < img_height img)%N ->
  let p1 := drawFrame env i p in
  let p2 := drawFrame env i p1 in
  (forall px py : Z, bitmap (canvas p2) px py = bitmap (canvas p1) px py) /\
  cv_width (canvas p2) = cv_width (canvas p1) /\
  cv_height (canvas p2) = cv_height (canvas p1) /\
  ctx (canvas p2) = ctx (canvas p1) /\
  p2 = set_canvas (canvas p2) p1.
Proof. intros _ _ _. apply drawFrame_twice. Qed.







End Render.

(** ** Scroll position and displayed frame *)

Section Position.

Local Open Scope Q_scope.



Lemma image_at_not_NaN (p : Player) (f : number) :
  is_Some (image_at p f) -> f <> NaN.
Proof. intros [x Hx] ->. discriminate Hx. Qed.




(** The frame a ready player is on after a scroll evaluation. *)
Lemma handleScroll_frame (env : Layout) (p : Player) :
  isLoaded p = true ->
  currentFrame (handleScroll env p) =
  if negb (Num.eqb (newFrame (progress env)) (currentFrame p))
     && bool_decide (is_Some (image_at p (newFrame (progress env))))
  then newFrame (progress env)
  else currentFrame p.
Proof.
  intros Hready. unfold handleScroll. rewrite Hready. cbn [negb].
  match goal with |- context [if ?b then drawFrame _ _ _ else _] => destruct b end.
  - rewrite drawFrame_document, document_set_currentFrame.
    destruct (heroOverlay (document p)); autorewrite with player;
      rewrite drawFrame_currentFrame; apply currentFrame_set_currentFrame.
  - destruct (heroOverlay (document p)); autorewrite with player; reflexivity.
Qed.


(** When the target slot is not loaded the frame stays where the history
    left it. *)
Lemma handleScroll_keeps_frame (env : Layout) (p : Player) :
  image_at p (newFrame (progress env)) = None ->
  currentFrame (handleScroll env p) = currentFrame p.
Proof.
  intros Hn.
  destruct (handleScroll_currentFrame env p) as [H | (_ & _ & _ & [x Hx])];
    [exact H |].
  rewrite Hn in Hx. discriminate Hx.
Qed.

Lemma image_at_images (p q : Player) (f : number) :
  images p = images q -> image_at q f = image_at p f.
Proof. intros H. unfold image_at. rewrite H. reflexivity. Qed.

End Position.

(** ** The sample executions *)

Section Samples.

Lemma reachable_run (evs : list (Layout * Event)) (p : Player) :
  reachable p ->
  Forall (fun e => well_formed (snd e)) evs ->
  reachable (run evs p).
Proof.
  intros Hp H. revert p Hp.
  induction H as [| e evs He _ IH]; intros p Hp; [exact Hp |].
  rewrite run_cons. apply IH. apply reach_step; assumption.
Qed.

Lemma at_layout_well_formed (env : Layout) (evs : list Event) :
  Forall well_formed evs ->
  Forall (fun e => well_formed (snd e)) (at_layout env evs).
Proof.
  intros H. unfold at_layout. apply Forall_map.
  induction H; constructor; assumption.
Qed.

Lemma in_order_but_well_formed (k : nat) : Forall well_formed (in_order_but k).
Proof.
  unfold in_order_but. apply Forall_map. apply Forall_forall.
  intros i Hi. apply list_elem_of_In, in_seq in Hi.
  unfold callback. destruct (Nat.eqb i k); cbn [well_formed]; lia.
Qed.

Lemma reachable_fresh : reachable fresh.
Proof. apply reach_new. Qed.

Lemma reachable_ready_without_50 : reachable ready_without_50.
Proof.
  apply reachable_run; [apply reachable_fresh |].
  apply at_layout_well_formed, in_order_but_well_formed.
Qed.

Lemma reachable_came_from_49 : reachable came_from_49.
Proof.
  exact (reach_step (layout_at 49) ScrollFrame ready_without_50
           reachable_ready_without_50 I).
Qed.


(** A failure in the middle of the callbacks does not prevent the ready
    transition: the last callback is an onload. *)
Example ready_without_50_is_ready :
  isLoaded ready_without_50 = true /\
  loadedCount ready_without_50 = frameCount /\
  timers ready_without_50 = [mkTimer 500 HidePreloader] /\
  images ready_without_50 !! 50%nat = None.
Proof. vm_compute. repeat split. Qed.


(** Scrolling a ready player onto the frame without dimensions blanks the
    canvas. *)
Example scroll_onto_empty_frame :
  isLoaded ready_with_empty_10 = true /\
  bitmap (canvas ready_with_empty_10) 0 0 = Paint (getFramePath 0) /\
  currentFrame (handleScroll (layout_at 10) ready_with_empty_10) = Num.of_Z 10 /\
  bitmap (canvas (handleScroll (layout_at 10) ready_with_empty_10)) 0 0 =
    Paint background.
Proof. vm_compute. repeat split. Qed.


End Samples.

(** ** The theorems at the sample executions *)

Section Instances.

Local Open Scope Q_scope.


Lemma C5_currentFrame_is_zero_or_a_loaded_slot_witness :
  frame_invariant came_from_49 /\
  forall env : Layout,
    frame_invariant (handleScroll env came_from_49) /\
    (currentFrame (handleScroll env came_from_49) = currentFrame came_from_49 \/
     is_Some (image_at came_from_49 (currentFrame (handleScroll env came_from_49)))).
Proof.
  apply (C5_currentFrame_is_zero_or_a_loaded_slot came_from_49).
  apply reachable_came_from_49.
Defined.

(** C8 (counterexample).  The freshly constructed player is still loading
    and its page has the overlay, without any inline position.  A scroll
    evaluation leaves the overlay without position and without top, below
    progress 1 and at progress 1 alike. *)
Lemma C8_counterexample_loading_player_leaves_the_overlay :
  reachable fresh /\
  isLoaded fresh = false /\
  heroOverlay (document fresh) = Some plain /\
  style_position plain = None /\ style_top plain = None /\
  Num.ltb (progress (layout_at 50)) Num.one = true /\
  heroOverlay (document (handleScroll (layout_at 50) fresh)) = Some plain /\
  Num.geb (progress (layout_at 191)) Num.one = true /\
  heroOverlay (document (handleScroll (layout_at 191) fresh)) = Some plain.
Proof.
  split; [apply reachable_fresh |].
  split; [vm_compute; reflexivity |].
  split; [vm_compute; reflexivity |].
  split; [reflexivity |].
  split; [reflexivity |].
  split; [vm_compute; reflexivity |].
  split; [vm_compute; reflexivity |].
  split; vm_compute; reflexivity.
Qed.

Lemma C8_overlay_two_states_once_ready_witness :
  (isLoaded ready_without_50 = true ->
   exists el',
     heroOverlay (document (handleScroll (layout_at 191) ready_without_50)) = Some el' /\
     (Num.ltb (progress (layout_at 191)) Num.one = true ->
        style_position el' = Some Fixed /\ style_top el' = Some Unitless0) /\
     (Num.geb (progress (layout_at 191)) Num.one = true ->
        style_position el' = Some Absolute /\
        style_top el' =
          Some (Px (inject_Z (hero_offsetHeight (layout_at 191))
                    - inject_Z (innerHeight (layout_at 191))))) /\
     ((style_position el' = Some Fixed /\ style_top el' = Some Unitless0) \/
      (style_position el' = Some Absolute /\
       style_top el' =
         Some (Px (inject_Z (hero_offsetHeight (layout_at 191))
                   - inject_Z (innerHeight (layout_at 191))))))) /\
  (isLoaded ready_without_50 = false ->
   heroOverlay (document (handleScroll (layout_at 191) ready_without_50)) = Some plain).
Proof.
  apply (C8_overlay_two_states_once_ready (layout_at 191) ready_without_50 plain).
  vm_compute. reflexivity.
Defined.

Lemma C9_drawFrame_is_idempotent_witness :
  let p1 := drawFrame (layout_at 0) Num.zero ready_without_50 in
  let p2 := drawFrame (layout_at 0) Num.zero p1 in
  (forall px py : Z, bitmap (canvas p2) px py = bitmap (canvas p1) px py) /\
  cv_width (canvas p2) = cv_width (canvas p1) /\
  cv_height (canvas p2) = cv_height (canvas p1) /\
  ctx (canvas p2) = ctx (canvas p1) /\
  p2 = set_canvas (canvas p2) p1.
Proof.
  apply (C9_drawFrame_is_idempotent
           (layout_at 0) Num.zero ready_without_50 (frame_image 0)).
  - vm_compute. reflexivity.
  - reflexivity.
  - reflexivity.
Defined.

Lemma C10_handleScroll_is_noop_while_loading_witness :
  handleScroll (layout_at 50) fresh = fresh /\
  canvas (handleScroll (layout_at 50) fresh) = canvas fresh /\
  document (handleScroll (layout_at 50) fresh) = document fresh /\
  currentFrame (handleScroll (layout_at 50) fresh) = currentFrame fresh.
Proof.
  apply (C10_handleScroll_is_noop_while_loading (layout_at 50) fresh).
  vm_compute. reflexivity.
Defined.

End Instances.

(** * More properties *)

Section ScrollEffects.
Local Open Scope Q_scope.

Lemma handleScroll_document (env : Layout) (p : Player) :
  isLoaded p = true ->
  document (handleScroll env p) = scrolled_document env (document p).
Proof.
  intros H. unfold handleScroll. rewrite H. cbn [negb].
  match goal with |- context [if ?b then drawFrame _ _ _ else _] => destruct b end.
  - rewrite drawFrame_document, document_set_currentFrame.
    destruct (heroOverlay (document p)) eqn:E; rewrite document_set_document;
      unfold scrolled_document; rewrite E; reflexivity.
  - destruct (heroOverlay (document p)) eqn:E; rewrite document_set_document;
      unfold scrolled_document; rewrite E; reflexivity.
Qed.

(** Class lists behave as sets under [add] and [remove]. *)
Lemma elem_of_classList_add (c c' : string) (el : Element) :
  c' ∈ classList (Dom.classList_add c el) <-> c' = c \/ c' ∈ classList el.
Proof.
  unfold Dom.classList_add. cbn [classList]. case_bool_decide as Hin.
  - split.
    + intros H. right. exact H.
    + intros [E | H]; [subst c'; exact Hin | exact H].
  - rewrite elem_of_app. split.
    + intros [H | H]; [right; exact H | left].
      apply list_elem_of_singleton in H. exact H.
    + intros [H | H]; [right | left; exact H].
      apply list_elem_of_singleton. exact H.
Qed.

Lemma elem_of_classList_remove (c c' : string) (el : Element) :
  c' ∈ classList (Dom.classList_remove c el) <-> c' <> c /\ c' ∈ classList el.
Proof.
  unfold Dom.classList_remove. cbn [classList].
  exact (list_elem_of_filter (fun d => d <> c) (classList el) c').
Qed.

(** A class toggled by a test is present exactly when the test holds, and
    the other classes stay. *)
Lemma toggled_class (b : bool) (c : string) (el : Element) :
  let el' := (if b then Dom.classList_add c else Dom.classList_remove c) el in
  (c ∈ classList el' <-> b = true) /\
  (forall c' : string, c' <> c -> (c' ∈ classList el' <-> c' ∈ classList el)).
Proof.
  destruct b; cbn zeta.
  - split.
    + rewrite elem_of_classList_add. split; auto.
    + intros c' Hne. rewrite elem_of_classList_add. tauto.
  - split.
    + rewrite elem_of_classList_remove. split; [tauto | discriminate].
    + intros c' Hne. rewrite elem_of_classList_remove. tauto.
Qed.




Lemma progress_not_PosInf (env : Layout) : progress env <> PosInf.
Proof.
  intros H. destruct (progress_NaN_or_unit env) as [E | (q & E & _)];
    rewrite H in E; discriminate E.
Qed.

Lemma at_least_one (pr : number) :
  Num.geb pr Num.one = true <->
  pr = PosInf \/ exists q : Q, pr = Fin q /\ 1 <= q.
Proof.
  split.
  - intros H. destruct pr as [ | | q | ]; try discriminate.
    + right. exists q. split; [reflexivity | apply (proj1 (geb_Fin _ _) H)].
    + left. reflexivity.
  - intros [-> | (q & -> & H)]; [reflexivity |].
    apply (proj2 (geb_Fin _ _) H).
Qed.

Lemma handleScroll_isAnimationComplete (env : Layout) (p : Player) :
  isLoaded p = true ->
  isAnimationComplete (handleScroll env p) =
  match heroOverlay (document p) with
  | Some _ => Num.geb (progress env) Num.one
  | None => isAnimationComplete p
  end.
Proof.
  intros H. unfold handleScroll. rewrite H. cbn [negb].
  match goal with |- context [if ?b then drawFrame _ _ _ else _] => destruct b end.
  - rewrite drawFrame_document, document_set_currentFrame.
    destruct (heroOverlay (document p)); autorewrite with player;
      [reflexivity |].
    rewrite drawFrame_isAnimationComplete. apply isAnimationComplete_set_currentFrame.
  - destruct (heroOverlay (document p)); autorewrite with player; reflexivity.
Qed.






(** X3.  The content wrapper is always positioned like the overlay. *)
Theorem scroll_pins_wrapper_like_overlay
    (env : Layout) (p : Player) (cw ov : Element) :
  isLoaded p = true ->
  contentWrapper (document p) = Some cw ->
  heroOverlay (document p) = Some ov ->
  exists cw' ov' : Element,
    contentWrapper (document (handleScroll env p)) = Some cw' /\
    heroOverlay (document (handleScroll env p)) = Some ov' /\
    style_position cw' = style_position ov' /\
    style_top cw' = style_top ov' /\
    style_position cw' <> None /\ style_top cw' <> None.
Proof.
  intros Hready Hcw Hov.
  rewrite (handleScroll_document env p Hready).
  unfold scrolled_document. cbn [contentWrapper heroOverlay].
  rewrite Hcw, Hov. cbn [option_map].
  eexists. eexists. split; [reflexivity |]. split; [reflexivity |].
  destruct (Num.geb (progress env) Num.one) eqn:G.
  - destruct (pin_released env (progress env) ov G) as [A1 A2].
    match goal with |- context [pin env (progress env) ?e] =>
      destruct (pin_released env (progress env) e G) as [B1 B2]
    end.
    rewrite A1, A2, B1, B2. repeat split; discriminate.
  - destruct (pin_held env (progress env) ov G) as [A1 A2].
    match goal with |- context [pin env (progress env) ?e] =>
      destruct (pin_held env (progress env) e G) as [B1 B2]
    end.
    rewrite A1, A2, B1, B2. repeat split; discriminate.
Qed.

(** X4.  [isAnimationComplete] follows the progress only on a ready player
    whose page has the overlay: there the flag is set exactly at progress
    1.  A ready player without the overlay never writes the flag, and a
    player that is still loading returns before it is written. *)
Theorem scroll_completes_at_one_with_overlay (env : Layout) (p : Player) :
  (isLoaded p = true ->
   (is_Some (heroOverlay (document p)) ->
      (isAnimationComplete (handleScroll env p) = true <->
         exists q : Q, progress env = Fin q /\ q == 1)) /\
   (heroOverlay (document p) = None ->
      isAnimationComplete (handleScroll env p) = isAnimationComplete p)) /\
  (isLoaded p = false ->
   isAnimationComplete (handleScroll env p) = isAnimationComplete p).
Proof.
  split.
  - intros Hready. rewrite (handleScroll_isAnimationComplete env p Hready).
    split.
    + intros [ov Hov]. rewrite Hov, at_least_one. split.
      * intros [E | (q & E & Hq)]; [exfalso; apply (progress_not_PosInf env E) |].
        exists q. split; [exact E |].
        destruct (progress_NaN_or_unit env) as [N | (q' & E' & Hq')];
          rewrite E in *; [discriminate N |].
        injection E' as <-. lra.
      * intros (q & E & Hq). right. exists q. split; [exact E | lra].
    + intros ->. reflexivity.
  - intros Hloading. rewrite (handleScroll_not_ready env p Hloading). reflexivity.
Qed.


Lemma scroll_pins_wrapper_like_overlay_witness :
  exists cw' ov' : Element,
    contentWrapper (document (handleScroll (layout_at 95) ready_without_50)) = Some cw' /\
    heroOverlay (document (handleScroll (layout_at 95) ready_without_50)) = Some ov' /\
    style_position cw' = style_position ov' /\
    style_top cw' = style_top ov' /\
    style_position cw' <> None /\ style_top cw' <> None.
Proof.
  apply (scroll_pins_wrapper_like_overlay (layout_at 95) ready_without_50 plain plain).
  - vm_compute. reflexivity.
  - vm_compute. reflexivity.
  - vm_compute. reflexivity.
Defined.

End ScrollEffects.

Section ScrollShape.
Local Open Scope Q_scope.

Lemma frame_step_document env p : document (frame_step env p) = document p.
Proof.
  unfold frame_step.
  match goal with |- context [if ?b then _ else _] => destruct b end;
    [| reflexivity].
  rewrite drawFrame_document. apply document_set_currentFrame.
Qed.

Lemma handleScroll_ready (env : Layout) (p : Player) :
  isLoaded p = true ->
  handleScroll env p =
  set_document (scrolled_document env (document p))
    (flag_step env (document p) (frame_step env p)).
Proof.
  intros H.
  transitivity
    (set_document (scrolled_document env (document (frame_step env p)))
       (flag_step env (document (frame_step env p)) (frame_step env p))).
  - unfold handleScroll. rewrite H. cbn [negb].
    unfold scrolled_document, flag_step, frame_step. reflexivity.
  - rewrite frame_step_document. reflexivity.
Qed.

Lemma classList_add_idem (c : string) (el : Element) :
  Dom.classList_add c (Dom.classList_add c el) = Dom.classList_add c el.
Proof.
  unfold Dom.classList_add. cbn [classList style_position style_top style_width].
  destruct (bool_decide (c ∈ classList el)) eqn:E.
  - rewrite E. reflexivity.
  - rewrite bool_decide_eq_true_2; [reflexivity |].
    apply elem_of_app. right. apply list_elem_of_singleton. reflexivity.
Qed.

Lemma classList_remove_idem (c : string) (el : Element) :
  Dom.classList_remove c (Dom.classList_remove c el) = Dom.classList_remove c el.
Proof.
  unfold Dom.classList_remove. cbn [classList style_position style_top style_width].
  f_equal. induction (classList el) as [| x l IH]; [reflexivity |].
  rewrite filter_cons. destruct (decide (x <> c)) as [Hx | Hx].
  - rewrite filter_cons, decide_True by exact Hx. rewrite IH. reflexivity.
  - exact IH.
Qed.

Lemma toggle_idem (b : bool) (c : string) (el : Element) :
  (if b then Dom.classList_add c else Dom.classList_remove c)
    ((if b then Dom.classList_add c else Dom.classList_remove c) el) =
  (if b then Dom.classList_add c else Dom.classList_remove c) el.
Proof. destruct b; [apply classList_add_idem | apply classList_remove_idem]. Qed.

Lemma set_width_percent_idem (n : number) (el : Element) :
  Dom.set_width_percent n (Dom.set_width_percent n el) = Dom.set_width_percent n el.
Proof.
  destruct n as [ | | q | ]; try reflexivity.
  unfold Dom.set_width_percent. destruct (Qle_bool 0 q); reflexivity.
Qed.

Lemma pin_idem (env : Layout) (pr : number) (el : Element) :
  pin env pr (pin env pr el) = pin env pr el.
Proof.
  unfold pin. rewrite maxScroll_Fin. destruct (Num.geb pr Num.one); reflexivity.
Qed.

Lemma pin_toggle (env : Layout) (pr : number) (b : bool) (c : string) (el : Element) :
  (if b then Dom.classList_add c else Dom.classList_remove c) (pin env pr el) =
  pin env pr ((if b then Dom.classList_add c else Dom.classList_remove c) el).
Proof.
  unfold pin. rewrite maxScroll_Fin.
  destruct (Num.geb pr Num.one), b; reflexivity.
Qed.

Lemma option_map_idem {A : Type} (f : A -> A) (o : option A) :
  (forall a : A, f (f a) = f a) ->
  option_map f (option_map f o) = option_map f o.
Proof. intros H. destruct o; cbn; [rewrite H |]; reflexivity. Qed.

(** Applied to its own result, the document update changes nothing. *)
Lemma scrolled_document_idem (env : Layout) (d : Document) :
  scrolled_document env (scrolled_document env d) = scrolled_document env d.
Proof.
  unfold scrolled_document.
  cbn [contentWrapper scrollIndicator progressBar scrollProgress heroOverlay preloader].
  f_equal.
  - destruct (contentWrapper d) as [cw |]; [| reflexivity]. cbn [option_map].
    rewrite pin_toggle, toggle_idem, pin_idem. reflexivity.
  - apply option_map_idem. intros a. apply toggle_idem.
  - apply option_map_idem. intros a. apply set_width_percent_idem.
  - apply option_map_idem. intros a. apply toggle_idem.
  - apply option_map_idem. intros a. apply pin_idem.
Qed.

Lemma eqb_refl (f : number) : f <> NaN -> Num.eqb f f = true.
Proof.
  destruct f as [ | | q | ]; intros H; try reflexivity; [contradiction |].
  apply Qeq_bool_iff. reflexivity.
Qed.

Lemma set_document_same (q : Player) : set_document (document q) q = q.
Proof. destruct q; reflexivity. Qed.

Lemma set_isAnimationComplete_same (q : Player) :
  set_isAnimationComplete (isAnimationComplete q) q = q.
Proof. destruct q; reflexivity. Qed.

(** A ready player on which the frame test fails, whose document and flag
    are already those of the position, is left as it is. *)
Lemma handleScroll_fixpoint (env : Layout) (q : Player) :
  isLoaded q = true ->
  negb (Num.eqb (newFrame (progress env)) (currentFrame q))
    && bool_decide (is_Some (image_at q (newFrame (progress env)))) = false ->
  scrolled_document env (document q) = document q ->
  (is_Some (heroOverlay (document q)) ->
     isAnimationComplete q = Num.geb (progress env) Num.one) ->
  handleScroll env q = q.
Proof.
  intros Hready Hframe Hdoc Hflag.
  rewrite (handleScroll_ready env q Hready), Hdoc.
  unfold frame_step. rewrite Hframe.
  unfold flag_step. destruct (heroOverlay (document q)) as [ov |] eqn:E.
  - rewrite <- Hflag by (eexists; reflexivity).
    rewrite set_isAnimationComplete_same. apply set_document_same.
  - apply set_document_same.
Qed.

(** The frame test fails on the result of a scroll evaluation. *)
Lemma handleScroll_frame_settled (env : Layout) (p : Player) :
  isLoaded p = true ->
  negb (Num.eqb (newFrame (progress env)) (currentFrame (handleScroll env p)))
    && bool_decide
         (is_Some (image_at (handleScroll env p) (newFrame (progress env)))) = false.
Proof.
  intros Hready.
  rewrite (image_at_images p (handleScroll env p) _
             (eq_sym (handleScroll_images env p))).
  rewrite (handleScroll_frame env p Hready).
  destruct (bool_decide (is_Some (image_at p (newFrame (progress env))))) eqn:B.
  - rewrite andb_true_r.
    apply bool_decide_eq_true in B. apply image_at_not_NaN in B.
    destruct (Num.eqb (newFrame (progress env)) (currentFrame p)) eqn:Ne;
      cbn [negb]; rewrite andb_true_r.
    + rewrite Ne. reflexivity.
    + rewrite (eqb_refl _ B). reflexivity.
  - apply andb_false_r.
Qed.

(** X5.  Evaluating the same scroll position again changes nothing: no second
    redraw, the same classes, the same styles. *)
Theorem handleScroll_twice_same_position (env : Layout) (p : Player) :
  handleScroll env (handleScroll env p) = handleScroll env p.
Proof.
  destruct (isLoaded p) eqn:Hready.
  - apply handleScroll_fixpoint.
    + rewrite handleScroll_isLoaded. exact Hready.
    + apply handleScroll_frame_settled, Hready.
    + rewrite (handleScroll_document env p Hready). apply scrolled_document_idem.
    + rewrite (handleScroll_document env p Hready),
        (handleScroll_isAnimationComplete env p Hready).
      unfold scrolled_document. cbn [heroOverlay].
      destruct (heroOverlay (document p)); [reflexivity |].
      intros [x Hx]. discriminate Hx.
  - rewrite (handleScroll_not_ready env p Hready). apply handleScroll_not_ready, Hready.
Qed.

End ScrollShape.

Section ScrollQuiet.
Local Open Scope Q_scope.

Lemma frame_step_skipped (env : Layout) (p : Player) :
  negb (Num.eqb (newFrame (progress env)) (currentFrame p))
    && bool_decide (is_Some (image_at p (newFrame (progress env)))) = false ->
  frame_step env p = p.
Proof. intros H. unfold frame_step. rewrite H. reflexivity. Qed.

Lemma canvas_flag_step env d p : canvas (flag_step env d p) = canvas p.
Proof. unfold flag_step. destruct (heroOverlay d); reflexivity. Qed.

Lemma currentFrame_flag_step env d p : currentFrame (flag_step env d p) = currentFrame p.
Proof. unfold flag_step. destruct (heroOverlay d); reflexivity. Qed.

Lemma timers_flag_step env d p : timers (flag_step env d p) = timers p.
Proof. unfold flag_step. destruct (heroOverlay d); reflexivity. Qed.

Lemma timers_frame_step env p : timers (frame_step env p) = timers p.
Proof.
  unfold frame_step.
  match goal with |- context [if ?b then _ else _] => destruct b end;
    [| reflexivity].
  rewrite drawFrame_timers. apply timers_set_currentFrame.
Qed.

Lemma handleScroll_timers (env : Layout) (p : Player) :
  timers (handleScroll env p) = timers p.
Proof.
  destruct (isLoaded p) eqn:Hready.
  - rewrite (handleScroll_ready env p Hready), timers_set_document,
      timers_flag_step. apply timers_frame_step.
  - rewrite (handleScroll_not_ready env p Hready). reflexivity.
Qed.

(** X6.  The handler draws, and moves [currentFrame], only on a ready player
    whose new frame differs from the current one and is loaded: it never
    shows a frame that is not loaded and never redraws the frame it is on. *)
Theorem handleScroll_draws_only_new_loaded_frames (env : Layout) (p : Player) :
  isLoaded p = false \/
  Num.eqb (newFrame (progress env)) (currentFrame p) = true \/
  image_at p (newFrame (progress env)) = None ->
  canvas (handleScroll env p) = canvas p /\
  currentFrame (handleScroll env p) = currentFrame p.
Proof.
  intros H. destruct (isLoaded p) eqn:Hready.
  - rewrite (handleScroll_ready env p Hready).
    rewrite canvas_set_document, currentFrame_set_document,
      canvas_flag_step, currentFrame_flag_step.
    rewrite frame_step_skipped; [split; reflexivity |].
    destruct H as [H | [H | H]].
    + discriminate H.
    + rewrite H. reflexivity.
    + rewrite H. apply andb_false_iff. right.
      apply bool_decide_eq_false. intros [x Hx]. discriminate Hx.
  - rewrite (handleScroll_not_ready env p Hready). split; reflexivity.
Qed.

Lemma handleScroll_draws_only_new_loaded_frames_witness :
  canvas (handleScroll (layout_at 50) came_from_49) = canvas came_from_49 /\
  currentFrame (handleScroll (layout_at 50) came_from_49) = currentFrame came_from_49.
Proof.
  apply (handleScroll_draws_only_new_loaded_frames (layout_at 50) came_from_49).
  right. right. vm_compute. reflexivity.
Defined.

End ScrollQuiet.

Section PreloaderTimer.

Lemma hide_timers_app (l1 l2 : list Timer) :
  hide_timers (l1 ++ l2) = hide_timers l1 ++ hide_timers l2.
Proof. unfold hide_timers. apply List.filter_app. Qed.

Lemma hide_timers_delete (k : nat) (l : list Timer) :
  (length (hide_timers (delete k l)) <= length (hide_timers l))%nat.
Proof.
  revert k. induction l as [| t l IH]; intros k; [destruct k; cbn; lia |].
  destruct k as [| k].
  - change (delete 0%nat (t :: l)) with l.
    unfold hide_timers. cbn [List.filter].
    destruct (action t); cbn [length]; lia.
  - change (delete (S k) (t :: l)) with (t :: delete k l).
    specialize (IH k). unfold hide_timers in *.
    cbn [List.filter]. destruct (action t); cbn [length]; lia.
Qed.

(** What an event does to the ready flag and to the pending timers that
    hide the preloader: nothing is added, except by the onload that
    completes the count, which adds one and makes the player ready. *)
Lemma dispatch_hide_timers (env : Layout) (ev : Event) (p : Player) :
  (isLoaded p = true -> isLoaded (dispatch env ev p) = true) /\
  (((length (hide_timers (timers (dispatch env ev p)))
      <= length (hide_timers (timers p)))%nat /\
    (isLoaded (dispatch env ev p) = true -> isLoaded p = true)) \/
   (S (loadedCount p) = frameCount /\
    loadedCount (dispatch env ev p) = frameCount /\
    isLoaded (dispatch env ev p) = true /\
    hide_timers (timers (dispatch env ev p)) =
      hide_timers (timers p) ++ [mkTimer 500 HidePreloader])).
Proof.
  destruct ev; unfold dispatch.
  - unfold firstImage_onload.
    rewrite drawFrame_isLoaded, drawFrame_timers. autorewrite with player.
    split; [auto | left; split; [lia | auto]].
  - unfold img_onload. autorewrite with player.
    destruct (Nat.eqb_spec (S (loadedCount p)) frameCount) as [E | E].
    + autorewrite with player.
      rewrite drawFrame_timers, drawFrame_isLoaded, drawFrame_loadedCount.
      autorewrite with player.
      split; [reflexivity |]. right. rewrite hide_timers_app. auto.
    + autorewrite with player. split; [auto | left; split; [lia | auto]].
  - unfold img_onerror. autorewrite with player.
    split; [auto | left; split; [lia | auto]].
  - rewrite resize_isLoaded, resize_timers.
    split; [auto | left; split; [lia | auto]].
  - unfold on_orientationchange. autorewrite with player.
    rewrite hide_timers_app. cbn [hide_timers List.filter action].
    rewrite app_nil_r. split; [auto | left; split; [lia | auto]].
  - destruct (timers p !! k) as [t |]; [| split; [auto | left; split; [lia | auto]]].
    pose proof (hide_timers_delete k (timers p)) as Hd.
    destruct (action t); unfold run_timer.
    + autorewrite with player. split; [auto | left; split; [exact Hd | auto]].
    + rewrite resize_isLoaded, resize_timers. autorewrite with player.
      split; [auto | left; split; [exact Hd | auto]].
  - rewrite handleScroll_isLoaded, handleScroll_timers.
    split; [auto | left; split; [lia | auto]].
Qed.

(** The invariant behind the two statements below. *)
Lemma reachable_hide_timers (p : Player) :
  reachable p ->
  (length (hide_timers (timers p)) <= 1)%nat /\
  ((loadedCount p < frameCount)%nat -> hide_timers (timers p) = []) /\
  (hide_timers (timers p) <> [] -> isLoaded p = true).
Proof.
  induction 1 as [env has_ctx d | env ev p Hr (I1 & I2 & I3) _].
  - unfold constructor. rewrite resize_timers. cbn.
    split; [lia |]. split; [reflexivity | intros H; contradiction].
  - destruct (dispatch_count_and_flag env ev p) as [Hle _].
    destruct (dispatch_hide_timers env ev p)
      as [Hkeep [[Hlen Hback] | (Hc & Hc' & Hl & Ht)]].
    + split; [lia |]. split.
      * intros Hlt.
        assert (E : hide_timers (timers p) = []) by (apply I2; lia).
        rewrite E in Hlen. cbn in Hlen.
        destruct (hide_timers (timers (dispatch env ev p))); [reflexivity |].
        cbn in Hlen. lia.
      * intros Hne.
        destruct (hide_timers (timers p)) eqn:E.
        -- cbn in Hlen.
           destruct (hide_timers (timers (dispatch env ev p)));
             [contradiction | cbn in Hlen; lia].
        -- apply Hkeep, I3. discriminate.
    + assert (E : hide_timers (timers p) = []) by (apply I2; lia).
      rewrite Ht, E. cbn. split; [lia |]. split; [| intros _; exact Hl].
      intros Hlt. lia.
Qed.

(** X7.  At most one timer that hides the preloader is ever pending, and only
    on a ready player. *)
Theorem at_most_one_pending_hide_timer (p : Player) :
  reachable p ->
  (length (hide_timers (timers p)) <= 1)%nat /\
  (hide_timers (timers p) <> [] -> isLoaded p = true).
Proof.
  intros Hr. destruct (reachable_hide_timers p Hr) as (I1 & _ & I3).
  split; assumption.
Qed.

Lemma at_most_one_pending_hide_timer_witness :
  (length (hide_timers (timers ready_without_50)) <= 1)%nat /\
  (hide_timers (timers ready_without_50) <> [] -> isLoaded ready_without_50 = true).
Proof.
  apply (at_most_one_pending_hide_timer ready_without_50).
  apply reachable_ready_without_50.
Defined.

End PreloaderTimer.

Section PreloaderHidden.

Lemma resize_document env p : document (resize env p) = document p.
Proof.
  unfold resize.
  match goal with |- context [if ?b then _ else _] => destruct b end;
    [rewrite drawFrame_document |]; reflexivity.
Qed.

Lemma handleScroll_preloader (env : Layout) (p : Player) :
  preloader (document (handleScroll env p)) = preloader (document p).
Proof.
  destruct (isLoaded p) eqn:Hready.
  - rewrite (handleScroll_document env p Hready). reflexivity.
  - rewrite (handleScroll_not_ready env p Hready). reflexivity.
Qed.

(** Only a due timer that hides the preloader touches the preloader. *)
Lemma dispatch_preloader (env : Layout) (ev : Event) (p : Player) :
  preloader (document (dispatch env ev p)) = preloader (document p) \/
  exists (k : nat) (t : Timer),
    ev = TimerFired k /\ timers p !! k = Some t /\ action t = HidePreloader.
Proof.
  destruct ev; unfold dispatch.
  - left. unfold firstImage_onload. rewrite drawFrame_document. reflexivity.
  - left. unfold img_onload. autorewrite with player.
    match goal with |- context [if ?b then _ else _] => destruct b end;
      autorewrite with player; [rewrite drawFrame_document |];
      autorewrite with player; reflexivity.
  - left. reflexivity.
  - left. rewrite resize_document. reflexivity.
  - left. reflexivity.
  - destruct (timers p !! k) as [t |] eqn:Ht; [| left; reflexivity].
    destruct (action t) eqn:Ha.
    + right. exists k, t. auto.
    + left. unfold run_timer. rewrite resize_document. reflexivity.
  - left. apply handleScroll_preloader.
Qed.

Lemma hide_timers_lookup (l : list Timer) (k : nat) (t : Timer) :
  l !! k = Some t -> action t = HidePreloader -> hide_timers l <> [].
Proof.
  intros Hk Ha. apply list_elem_of_lookup_2, list_elem_of_In in Hk.
  intros E.
  assert (Hin : In t (hide_timers l)).
  { unfold hide_timers. apply List.filter_In. split; [exact Hk |].
    rewrite Ha. reflexivity. }
  rewrite E in Hin. exact Hin.
Qed.

(** X8.  The preloader is hidden by this class only once the player is ready:
    from a page whose preloader is not hidden, whatever events follow, a
    hidden preloader means a ready player. *)
Theorem preloader_hidden_only_when_ready
    (env : Layout) (has_ctx : bool) (d : Document)
    (evs : list (Layout * Event)) :
  (forall el : Element, preloader d = Some el -> "hidden" ∉ classList el) ->
  Forall (fun e => well_formed (snd e)) evs ->
  preloader_hidden (run evs (constructor env has_ctx d)) ->
  isLoaded (run evs (constructor env has_ctx d)) = true.
Proof.
  intros Hd. induction evs as [| e evs IH] using rev_ind; intros Hwf.
  - intros (el & Hel & Hin). exfalso. apply (Hd el); [| exact Hin].
    rewrite <- Hel. unfold run, constructor. cbn [fold_left].
    rewrite resize_document. reflexivity.
  - apply Forall_app in Hwf. destruct Hwf as [Hwf He].
    rewrite run_app, run_cons. specialize (IH Hwf).
    set (p := run evs (constructor env has_ctx d)) in *.
    assert (Hr : reachable p) by (apply reachable_run; [apply reach_new | exact Hwf]).
    destruct (reachable_hide_timers p Hr) as (_ & _ & I3).
    destruct (dispatch_hide_timers (fst e) (snd e) p) as [Hkeep _].
    unfold run. cbn [fold_left].
    destruct (dispatch_preloader (fst e) (snd e) p) as [Hsame | (k & t & _ & Hk & Ha)].
    + intros (el & Hel & Hin). apply Hkeep, IH.
      exists el. rewrite <- Hsame. split; assumption.
    + intros _. apply Hkeep, I3. apply (hide_timers_lookup _ k t); assumption.
Qed.

Lemma preloader_hidden_only_when_ready_witness :
  isLoaded
    (run (at_layout (layout_at 0) (in_order_but 50 ++ [TimerFired 0]))
         (constructor (layout_at 0) true page)) = true.
Proof.
  apply (preloader_hidden_only_when_ready (layout_at 0) true page).
  - intros el [= <-] H. apply list_elem_of_In in H. exact H.
  - apply at_layout_well_formed, Forall_app. split.
    + apply in_order_but_well_formed.
    + repeat constructor.
  - exists (mkElement ["hidden"] None None None). split.
    + vm_compute. reflexivity.
    + apply list_elem_of_here.
Defined.

End PreloaderHidden.

Section FramePaths.

Lemma string_length_app (s1 s2 : string) :
  String.length (s1 +:+ s2) = (String.length s1 + String.length s2)%nat.
Proof.
  induction s1 as [| a s1 IH]; [reflexivity |].
  change (S (String.length (s1 +:+ s2)) = S (String.length s1 + String.length s2)).
  rewrite IH. reflexivity.
Qed.

Lemma string_app_inv_tail (s1 s2 t : string) : s1 +:+ t = s2 +:+ t -> s1 = s2.
Proof.
  revert s2. induction s1 as [| a s1 IH]; intros [| b s2] H.
  - reflexivity.
  - apply (f_equal String.length) in H.
    rewrite !string_length_app in H. cbn [String.length] in H. lia.
  - apply (f_equal String.length) in H.
    rewrite !string_length_app in H. cbn [String.length] in H. lia.
  - change (String a (s1 +:+ t) = String b (s2 +:+ t)) in H.
    injection H as -> H. f_equal. apply IH, H.
Qed.

(** The decimal text of a positive number does not start with the digit 0. *)
Lemma pretty_N_go_leading (x : N) (s : string) :
  (0 < x)%N ->
  exists (c : ascii) (t : string), pretty_N_go x s = String c t /\ c <> "0"%char.
Proof.
  revert s. induction (N.lt_wf_0 x) as [x _ IH]. intros s Hx.
  rewrite pretty_N_go_step by exact Hx.
  destruct (decide (x < 10)%N) as [Hlt | Hge].
  - rewrite N.div_small by exact Hlt. rewrite pretty_N_go_0.
    rewrite N.mod_small by exact Hlt.
    eexists. eexists. split; [reflexivity |].
    assert (x = 1 \/ x = 2 \/ x = 3 \/ x = 4 \/ x = 5 \/ x = 6
            \/ x = 7 \/ x = 8 \/ x = 9)%N as Hc by lia.
    destruct Hc as [-> | [-> | [-> | [-> | [-> | [-> | [-> | [-> | ->]]]]]]]];
      discriminate.
  - apply IH.
    + apply N.div_lt; lia.
    + apply N.div_str_pos. lia.
Qed.

Lemma pretty_nat_leading (n : nat) :
  exists (c : ascii) (t : string), pretty (S n) = String c t /\ c <> "0"%char.
Proof.
  unfold pretty, pretty_nat, pretty, pretty_N.
  destruct (decide (N.of_nat (S n) = 0%N)) as [E | _]; [lia |].
  apply pretty_N_go_leading. lia.
Qed.

Lemma zeros_S (k : nat) : zeros (S k) = String "0" (zeros k).
Proof. unfold zeros. destruct k; reflexivity. Qed.

Lemma zeros_inv (k1 k2 : nat) (c1 c2 : ascii) (t1 t2 : string) :
  c1 <> "0"%char -> c2 <> "0"%char ->
  zeros k1 +:+ String c1 t1 = zeros k2 +:+ String c2 t2 ->
  String c1 t1 = String c2 t2.
Proof.
  intros H1 H2. revert k2. induction k1 as [| k1 IH]; intros [| k2] H.
  - exact H.
  - rewrite zeros_S in H. cbn in H. injection H as E _. contradiction.
  - rewrite zeros_S in H. cbn in H. injection H as E _. subst c2. contradiction.
  - rewrite !zeros_S in H. cbn in H. injection H as H. apply (IH k2), H.
Qed.

Lemma getFramePath_inj (i j : nat) :
  getFramePath i = getFramePath j -> i = j.
Proof.
  unfold getFramePath, padStart. fold (zeros (3 - String.length (pretty (i + 1)%nat))).
  fold (zeros (3 - String.length (pretty (j + 1)%nat))).
  intros H. apply (inj (String.app _)) in H.
  apply string_app_inv_tail in H.
  replace (i + 1)%nat with (S i) in H by lia.
  replace (j + 1)%nat with (S j) in H by lia.
  destruct (pretty_nat_leading i) as (c1 & t1 & E1 & N1).
  destruct (pretty_nat_leading j) as (c2 & t2 & E2 & N2).
  rewrite E1, E2 in H. apply zeros_inv in H; [| assumption | assumption].
  rewrite <- E1, <- E2 in H. apply (inj pretty) in H. lia.
Qed.

(** X9.  Distinct frame indices have distinct paths: no two slots of the frame
    set are requested from the same resource, whatever the number of
    digits of the frame number. *)
Theorem getFramePath_injective (i j : nat) :
  i <> j -> getFramePath i <> getFramePath j.
Proof. intros Hij H. apply Hij, getFramePath_inj, H. Qed.

Lemma getFramePath_injective_witness : getFramePath 9 <> getFramePath 99.
Proof. apply (getFramePath_injective 9 99). lia. Defined.

End FramePaths.

Section Cover.
Local Open Scope Q_scope.





(** Under the identity scaled by [r] the centre of a device pixel comes
    from its coordinates divided by [r]. *)
Lemma user_point_scaled (r : Q) (px py : Z) :
  0 < r ->
  exists ux uy : Q,
    Canvas2D.user_point (transform (painted_ctx (Fin r))) px py = (Fin ux, Fin uy) /\
    ux == (inject_Z px + (1 # 2)) / r /\
    uy == (inject_Z py + (1 # 2)) / r.
Proof.
  intros Hr.
  unfold painted_ctx, Canvas2D.scale, Canvas2D.set_fillStyle, Canvas2D.identity,
    Canvas2D.user_point.
  cbn [transform m_a m_b m_c m_d m_e m_f Num.sub Num.add Num.neg Num.mul
       Num.one Num.zero].
  rewrite !div_Fin_pos by nra.
  eexists. eexists. split; [reflexivity |]. split; field; lra.
Qed.

Lemma in_rect_Fin (x y w h ux uy : Q) :
  x <= ux -> ux < x + w -> y <= uy -> uy < y + h ->
  Canvas2D.in_rect (Fin x) (Fin y) (Fin w) (Fin h) (Fin ux, Fin uy) = true.
Proof.
  intros H1 H2 H3 H4. unfold Canvas2D.in_rect, Canvas2D.leb.
  cbn [fst snd Num.add].
  assert (L : forall a b : Q, a <= b -> Num.ltb (Fin a) (Fin b) || Num.eqb (Fin a) (Fin b) = true).
  { intros a b Hab. destruct (Qlt_le_dec a b) as [Hl | Hg].
    - rewrite (proj2 (ltb_Fin a b) Hl). reflexivity.
    - rewrite (proj2 (eqb_Fin a b)) by lra. apply orb_true_r. }
  rewrite (L x ux H1), (L y uy H3).
  rewrite (proj2 (ltb_Fin _ _) H2), (proj2 (ltb_Fin _ _) H4). reflexivity.
Qed.

Lemma in_bitmap_bounds (cv : Canvas) (px py : Z) :
  Canvas2D.in_bitmap cv px py = true ->
  (0 <= px < cv_width cv)%Z /\ (0 <= py < cv_height cv)%Z.
Proof.
  unfold Canvas2D.in_bitmap. intros Hin.
  apply andb_true_iff in Hin. destruct Hin as [Hin Hy2].
  apply andb_true_iff in Hin. destruct Hin as [Hin Hy1].
  apply andb_true_iff in Hin. destruct Hin as [Hx1 Hx2].
  apply Z.leb_le in Hx1, Hy1. apply Z.ltb_lt in Hx2, Hy2. lia.
Qed.






Lemma resize_unfold (env : Layout) (p : Player) :
  resize env p =
  if isLoaded p && bool_decide (is_Some (image_at p (currentFrame p)))
  then drawFrame env (currentFrame p) (resized env p)
  else resized env p.
Proof. reflexivity. Qed.








End Cover.

Section Throttle.

Lemma bound_step_throttled (b : Bound) (ev : BoundEvent) :
  throttled b -> throttled (bound_step b ev).
Proof.
  unfold throttled. destruct b as [p t q]. cbn [queued ticking].
  intros ->. destruct ev as [| env]; destruct t; reflexivity.
Qed.

Lemma scrolls_collapse (n : nat) (b : Bound) :
  Nat.iter (S n) on_scroll b = on_scroll b.
Proof.
  induction n as [| n IH]; [reflexivity |].
  change (Nat.iter (S (S n)) on_scroll b) with (on_scroll (Nat.iter (S n) on_scroll b)).
  rewrite IH. destruct b as [p [|] q]; reflexivity.
Qed.

Lemma run_throttled (evs : list BoundEvent) (b : Bound) :
  throttled b -> throttled (fold_left bound_step evs b).
Proof.
  revert b. induction evs as [| ev evs IH]; intros b H; [exact H |].
  cbn [fold_left]. apply IH, bound_step_throttled, H.
Qed.

(** X12.  However many scroll events arrive before an animation frame, the frame
    evaluates the scroll position once, with the layout of its time; at
    most one callback ever waits; and a frame with no scroll event since
    the last one does nothing. *)
Theorem scroll_events_are_throttled (p : Player) (evs : list BoundEvent) :
  let b := fold_left bound_step evs (bound p) in
  (queued b <= 1)%nat /\
  (forall (n : nat) (env : Layout),
     on_frame env (Nat.iter (S n) on_scroll b) =
     mkBound (handleScroll env (player b)) false 0) /\
  (forall env env' : Layout, on_frame env' (on_frame env b) = on_frame env b).
Proof.
  intros b.
  assert (Hb : throttled b) by (apply run_throttled; reflexivity).
  unfold throttled in Hb. destruct b as [q t k]. cbn [queued ticking player] in *.
  subst k. split; [destruct t; lia |]. split.
  - intros n env. rewrite scrolls_collapse. destruct t; reflexivity.
  - intros env env'. destruct t; reflexivity.
Qed.

End Throttle.

Section ScrollOrder.
Local Open Scope Q_scope.

Lemma clamp_Fin (x lo hi : Q) :
  lo <= hi ->
  exists q : Q,
    Num.min (Num.max (Fin x) (Fin lo)) (Fin hi) = Fin q /\
    ((x < lo /\ q = lo) \/ (lo <= x <= hi /\ q = x) \/ (hi < x /\ q = hi)).
Proof.
  intros Hlh. unfold Num.max.
  destruct (Num.ltb (Fin x) (Fin lo)) eqn:E1; unfold Num.min.
  - apply (proj1 (ltb_Fin _ _)) in E1.
    destruct (Num.ltb (Fin hi) (Fin lo)) eqn:E2.
    + apply (proj1 (ltb_Fin _ _)) in E2. lra.
    + exists lo. split; [reflexivity | left; split; [exact E1 | reflexivity]].
  - apply (proj1 (ltb_Fin_false _ _)) in E1.
    destruct (Num.ltb (Fin hi) (Fin x)) eqn:E2.
    + apply (proj1 (ltb_Fin _ _)) in E2.
      exists hi. split; [reflexivity | right; right; split; [exact E2 | reflexivity]].
    + apply (proj1 (ltb_Fin_false _ _)) in E2.
      exists x. split; [reflexivity | right; left; split; [lra | reflexivity]].
Qed.

(** With a hero section higher than the viewport the quotient is finite. *)
Lemma ratio_tall (env : Layout) :
  (innerHeight env < hero_offsetHeight env)%Z ->
  ratio env =
    Fin (- hero_top env / (inject_Z (hero_offsetHeight env) - inject_Z (innerHeight env)))
  /\ 0 < inject_Z (hero_offsetHeight env) - inject_Z (innerHeight env).
Proof.
  intros H.
  assert (Hm : 0 < inject_Z (hero_offsetHeight env) - inject_Z (innerHeight env)).
  { assert (inject_Z (innerHeight env) < inject_Z (hero_offsetHeight env))
      by (rewrite <- Zlt_Qlt; exact H). lra. }
  split; [| exact Hm].
  unfold ratio. rewrite maxScroll_Fin. cbn [Num.neg]. apply div_Fin_pos, Hm.
Qed.

(** The frame of a progress of the unit interval. *)
Lemma newFrame_unit (q : Q) :
  0 <= q <= 1 ->
  newFrame (Fin q) = Num.of_Z (Qfloor (B64.rnd (B64.rnd q * inject_Z 191))) /\
  (0 <= Qfloor (B64.rnd (B64.rnd q * inject_Z 191)) <= 191)%Z.
Proof.
  intros Hq. pose proof (targetFrame_range q Hq) as Hr. split; [| exact Hr].
  unfold newFrame. rewrite (targetFrame_Fin q Hq), last_frame.
  unfold Num.of_Z, Num.zero.
  destruct (clamp_Fin (inject_Z (Qfloor (B64.rnd (B64.rnd q * inject_Z 191))))
              0 (inject_Z 191))
    as (c & Hc & Hcases).
  { change (inject_Z 191) with (191 # 1). lra. }
  rewrite Hc. f_equal.
  assert (A : inject_Z 0 <= inject_Z (Qfloor (B64.rnd (B64.rnd q * inject_Z 191))))
    by (rewrite <- Zle_Qle; lia).
  assert (B : inject_Z (Qfloor (B64.rnd (B64.rnd q * inject_Z 191))) <= inject_Z 191)
    by (rewrite <- Zle_Qle; lia).
  change (inject_Z 0) with 0 in A.
  destruct Hcases as [[H _] | [[_ H] | [H _]]]; [lra | exact H | lra].
Qed.

(** X13.  Scrolling further down a hero section higher than the viewport never
    lowers the progress and never selects an earlier frame. *)
Theorem further_scroll_never_earlier_frame (env1 env2 : Layout) :
  hero_offsetHeight env1 = hero_offsetHeight env2 ->
  innerHeight env1 = innerHeight env2 ->
  (innerHeight env1 < hero_offsetHeight env1)%Z ->
  hero_top env2 <= hero_top env1 ->
  exists (q1 q2 : Q) (f1 f2 : Z),
    progress env1 = Fin q1 /\ progress env2 = Fin q2 /\
    0 <= q1 /\ q1 <= q2 /\ q2 <= 1 /\
    newFrame (progress env1) = Num.of_Z f1 /\
    newFrame (progress env2) = Num.of_Z f2 /\
    (0 <= f1)%Z /\ (f1 <= f2)%Z /\ (f2 <= 191)%Z.
Proof.
  intros Hh Hv Htall Htop.
  destruct (ratio_tall env1 Htall) as [R1 Hm].
  assert (Htall2 : (innerHeight env2 < hero_offsetHeight env2)%Z) by lia.
  destruct (ratio_tall env2 Htall2) as [R2 _].
  rewrite <- Hh, <- Hv in R2.
  set (m := inject_Z (hero_offsetHeight env1) - inject_Z (innerHeight env1)) in *.
  assert (Hx : - hero_top env1 / m <= - hero_top env2 / m).
  { apply Qle_shift_div_l; [exact Hm |].
    assert (E : - hero_top env1 / m * m == - hero_top env1) by (field; lra).
    rewrite E. lra. }
  destruct (clamp_Fin (- hero_top env1 / m) 0 1) as (q1 & P1 & C1); [lra |].
  destruct (clamp_Fin (- hero_top env2 / m) 0 1) as (q2 & P2 & C2); [lra |].
  assert (U1 : 0 <= q1 <= 1)
    by (destruct C1 as [[? ->] | [[? ->] | [? ->]]]; lra).
  assert (U2 : 0 <= q2 <= 1)
    by (destruct C2 as [[? ->] | [[? ->] | [? ->]]]; lra).
  assert (M : q1 <= q2).
  { destruct C1 as [[? ->] | [[? ->] | [? ->]]];
      destruct C2 as [[? ->] | [[? ->] | [? ->]]]; lra. }
  destruct (newFrame_unit q1 U1) as [F1 G1].
  destruct (newFrame_unit q2 U2) as [F2 G2].
  exists q1, q2, (Qfloor (B64.rnd (B64.rnd q1 * inject_Z 191))),
    (Qfloor (B64.rnd (B64.rnd q2 * inject_Z 191))).
  rewrite !progress_ratio, R1, R2, P1, P2.
  pose proof (targetFrame_mono q1 q2 (proj1 U1) M).
  repeat split; try assumption; lra || lia.
Qed.

Lemma further_scroll_never_earlier_frame_witness :
  exists (q1 q2 : Q) (f1 f2 : Z),
    progress (layout_at 10) = Fin q1 /\ progress (layout_at 20) = Fin q2 /\
    0 <= q1 /\ q1 <= q2 /\ q2 <= 1 /\
    newFrame (progress (layout_at 10)) = Num.of_Z f1 /\
    newFrame (progress (layout_at 20)) = Num.of_Z f2 /\
    (0 <= f1)%Z /\ (f1 <= f2)%Z /\ (f2 <= 191)%Z.
Proof.
  apply (further_scroll_never_earlier_frame (layout_at 10) (layout_at 20)).
  - reflexivity.
  - reflexivity.
  - reflexivity.
  - vm_compute. discriminate.
Defined.

End ScrollOrder.

Section Loading.
Local Open Scope Q_scope.

Lemma resized_blank (env : Layout) (p : Player) (px py : Z) :
  bitmap (canvas (resized env p)) px py = Transparent.
Proof. reflexivity. Qed.

Lemma resize_not_ready (env : Layout) (p : Player) :
  isLoaded p = false -> resize env p = resized env p.
Proof. intros H. rewrite resize_unfold, H. reflexivity. Qed.

(** X14.  A resize while the frames are still loading leaves an empty canvas:
    the assignment of the size clears the bitmap, and nothing is redrawn
    before the set is ready, not even a first frame that was on display. *)
Theorem resize_while_loading_erases_the_canvas (env : Layout) (p : Player) :
  isLoaded p = false ->
  (forall px py : Z, bitmap (canvas (resize env p)) px py = Transparent) /\
  images (resize env p) = images p /\
  currentFrame (resize env p) = currentFrame p /\
  isLoaded (resize env p) = false.
Proof.
  intros H. rewrite resize_images, resize_currentFrame, resize_isLoaded.
  split; [| split; [reflexivity | split; [reflexivity | exact H]]].
  intros px py. rewrite (resize_not_ready env p H). apply resized_blank.
Qed.

Lemma resize_while_loading_erases_the_canvas_witness :
  (forall px py : Z,
     bitmap (canvas (resize (layout_at 0)
                       (firstImage_onload (layout_at 0) (frame_image 0) fresh)))
            px py = Transparent) /\
  images (resize (layout_at 0) (firstImage_onload (layout_at 0) (frame_image 0) fresh))
  = images (firstImage_onload (layout_at 0) (frame_image 0) fresh) /\
  currentFrame (resize (layout_at 0) (firstImage_onload (layout_at 0) (frame_image 0) fresh))
  = currentFrame (firstImage_onload (layout_at 0) (frame_image 0) fresh) /\
  isLoaded (resize (layout_at 0) (firstImage_onload (layout_at 0) (frame_image 0) fresh))
  = false.
Proof.
  apply (resize_while_loading_erases_the_canvas (layout_at 0)
           (firstImage_onload (layout_at 0) (frame_image 0) fresh)).
  vm_compute. reflexivity.
Defined.

Lemma set_images_resized (env : Layout) (m : gmap nat Image) (p : Player) :
  displayWidth (set_images m p) = displayWidth p /\
  displayHeight (set_images m p) = displayHeight p /\
  dpr (set_images m p) = dpr p /\
  canvas (set_images m p) = canvas p.
Proof. repeat split. Qed.



Lemma dispatch_keeps_ready (env : Layout) (ev : Event) (p : Player) :
  isLoaded p = true -> isLoaded (dispatch env ev p) = true.
Proof.
  intros H. destruct ev; unfold dispatch.
  - unfold firstImage_onload. rewrite drawFrame_isLoaded.
    autorewrite with player. exact H.
  - unfold img_onload. autorewrite with player.
    destruct (Nat.eqb (S (loadedCount p)) frameCount).
    + autorewrite with player. rewrite drawFrame_isLoaded.
      autorewrite with player. reflexivity.
    + autorewrite with player. exact H.
  - unfold img_onerror. autorewrite with player. exact H.
  - rewrite resize_isLoaded. exact H.
  - unfold on_orientationchange. autorewrite with player. exact H.
  - destruct (timers p !! k) as [t |]; [| exact H].
    destruct t as [dl [|]]; unfold run_timer; cbn [action].
    + autorewrite with player. exact H.
    + rewrite resize_isLoaded. autorewrite with player. exact H.
  - rewrite handleScroll_isLoaded. exact H.
Qed.

(** X16.  No handler takes [isLoaded] back: once ready, ready after every event
    and every run of events; and the count of completed callbacks never
    goes down. *)
Theorem ready_is_permanent (evs : list (Layout * Event)) (p : Player) :
  isLoaded p = true ->
  isLoaded (run evs p) = true /\ (loadedCount p <= loadedCount (run evs p))%nat.
Proof.
  revert p. induction evs as [| [env ev] evs IH]; intros p H.
  - split; [exact H | reflexivity].
  - rewrite run_cons.
    destruct (IH (dispatch env ev p) (dispatch_keeps_ready env ev p H)) as [A B].
    split; [exact A |].
    destruct (dispatch_count_and_flag env ev p) as [C _].
    exact (Nat.le_trans _ _ _ C B).
Qed.

Lemma ready_is_permanent_witness :
  isLoaded (run (at_layout (layout_at 30)
                   [Resized; ImageFailed 3; OrientationChanged; TimerFired 0; ScrollFrame])
                ready_without_50) = true /\
  (loadedCount ready_without_50 <=
   loadedCount (run (at_layout (layout_at 30)
                       [Resized; ImageFailed 3; OrientationChanged; TimerFired 0; ScrollFrame])
                    ready_without_50))%nat.
Proof.
  apply (ready_is_permanent
           (at_layout (layout_at 30)
              [Resized; ImageFailed 3; OrientationChanged; TimerFired 0; ScrollFrame])
           ready_without_50).
  vm_compute. reflexivity.
Defined.

Lemma delete_last_timer (l : list Timer) (t : Timer) :
  (l ++ [t]) !! length l = Some t /\ delete (length l) (l ++ [t]) = l.
Proof.
  induction l as [| a l [IH1 IH2]]; [split; reflexivity |].
  split; [exact IH1 |].
  change (delete (length (a :: l)) ((a :: l) ++ [t]))
    with (a :: delete (length l) (l ++ [t])).
  rewrite IH2. reflexivity.
Qed.

Lemma set_timers_back (l : list Timer) (p : Player) :
  set_timers (timers p) (set_timers l p) = p.
Proof. destruct p. reflexivity. Qed.

(** X17.  An orientation change does nothing but set a timer, and the resize
    happens when that timer comes due, under the layout of that time. *)
Theorem orientationchange_resizes_on_its_timer (env env' : Layout) (p : Player) :
  set_timers (timers p) (dispatch env OrientationChanged p) = p /\
  dispatch env' (TimerFired (length (timers p))) (dispatch env OrientationChanged p)
  = resize env' p.
Proof.
  unfold dispatch at 1 3. unfold on_orientationchange.
  split; [apply set_timers_back |].
  unfold dispatch. rewrite timers_set_timers.
  destruct (delete_last_timer (timers p) (mkTimer 100 DelayedResize)) as [E1 E2].
  rewrite E1, E2. cbn [action run_timer]. rewrite set_timers_back. reflexivity.
Qed.

End Loading.

(** ** The cover fit in binary64 *)

Section RoundedFit.

Local Open Scope Q_scope.

(** An exact result between [-2^e] and [2^e] rounds to a finite double. *)
Lemma round_within (x : Q) (e : Z) :
  (-1074 <= e < 1024)%Z -> - B64.pow2 e <= x <= B64.pow2 e ->
  B64.round (Fin x) = Fin (B64.rnd x).
Proof.
  intros He [L U]. apply round_Fin.
  pose proof (rnd_le_pow2 x e ltac:(lia) U).
  pose proof (rnd_ge_opp_pow2 x e ltac:(lia) L).
  pose proof (pow2_lt e 1024 ltac:(lia)). lra.
Qed.

Lemma div_rounded (x y : Q) (e : Z) :
  (-1074 <= e < 1024)%Z -> 0 < y -> - B64.pow2 e <= x / y <= B64.pow2 e ->
  B64.div (Fin x) (Fin y) = Fin (B64.rnd (x / y)).
Proof.
  intros He Hy B. unfold B64.div. rewrite (div_Fin_pos x y Hy).
  apply (round_within _ e He B).
Qed.

Lemma mul_rounded (x y : Q) (e : Z) :
  (-1074 <= e < 1024)%Z -> - B64.pow2 e <= x * y <= B64.pow2 e ->
  B64.mul (Fin x) (Fin y) = Fin (B64.rnd (x * y)).
Proof. intros He B. unfold B64.mul. cbn [Num.mul]. apply (round_within _ e He B). Qed.

Lemma sub_rounded (x y : Q) (e : Z) :
  (-1074 <= e < 1024)%Z -> - B64.pow2 e <= x - y <= B64.pow2 e ->
  B64.sub (Fin x) (Fin y) = Fin (B64.rnd (x - y)).
Proof.
  intros He B. unfold B64.sub, Num.sub. cbn [Num.neg Num.add].
  apply (round_within _ e He B).
Qed.

Lemma pow2_26 : B64.pow2 26 == 67108864.
Proof. reflexivity. Qed.

Lemma pow2_m26 : B64.pow2 (-26) == 1 # 67108864.
Proof. reflexivity. Qed.

Lemma pow2_52 : B64.pow2 52 == 4503599627370496.
Proof. reflexivity. Qed.

Lemma pow2_50 : B64.pow2 50 == 1125899906842624.
Proof. reflexivity. Qed.

Lemma pow2_m52 : B64.pow2 (-52) == 1 # 4503599627370496.
Proof. reflexivity. Qed.

Lemma pow2_m53 : B64.pow2 (-53) == 1 # 9007199254740992.
Proof. reflexivity. Qed.

Lemma size_bounds (a : Z) :
  (0 < a < 2 ^ 26)%Z -> 1 <= inject_Z a <= 67108864.
Proof.
  intros H. split.
  - change 1 with (inject_Z 1). rewrite <- Zle_Qle. lia.
  - change 67108864 with (inject_Z (2 ^ 26)). rewrite <- Zle_Qle. lia.
Qed.

(** The two aspects of the fit. *)
Lemma quotient_of_sizes (a b : Z) :
  (0 < a < 2 ^ 26)%Z -> (0 < b < 2 ^ 26)%Z ->
  B64.pow2 (-26) <= inject_Z a / inject_Z b <= B64.pow2 26.
Proof.
  intros Ha Hb.
  pose proof (size_bounds a Ha) as [A1 A2]. pose proof (size_bounds b Hb) as [B1 B2].
  rewrite pow2_26, pow2_m26. split.
  - apply Qle_shift_div_l; [lra |].
    assert (E : (1 # 67108864) * inject_Z b <= 1) by lra. lra.
  - apply Qle_shift_div_r; [lra |]. nra.
Qed.

(** A multiple of [2^K] is either zero or at least [2^K] away from it. *)
Lemma grid_abs (z : Q) (j K : Z) :
  z == inject_Z j * B64.pow2 K -> ~ z == 0 -> B64.pow2 K <= Qabs z.
Proof.
  intros E N.
  destruct (Q_dec z 0) as [[H | H] | H]; [| | contradiction].
  - rewrite (Qabs_neg z) by lra.
    apply (grid_lower (- z) (- j) K); [| lra].
    rewrite E, inject_Z_opp. ring.
  - rewrite (Qabs_pos z) by lra.
    apply (grid_lower z j K E H).
Qed.

Lemma grid_of_Z (z : Z) (K : Z) :
  (K <= 0)%Z -> exists i : Z, inject_Z z == inject_Z i * B64.pow2 K.
Proof.
  intros HK. exists (z * 2 ^ (- K))%Z.
  rewrite inject_Z_mult.
  rewrite <- (pow2_Z (- K)) by lia.
  rewrite <- Qmult_assoc, <- pow2_add.
  replace (- K + K)%Z with 0%Z by lia.
  change (B64.pow2 0) with 1. ring.
Qed.

(** The difference between a size and a double near it or above it is a
    double: the subtraction of the offset is exact. *)
Lemma difference_on_grid (s : Z) (x : Q) :
  (0 < s < 2 ^ 26)%Z ->
  B64.pow2 (-53) <= x -> x < B64.pow2 53 ->
  inject_Z s * (1 - B64.pow2 (-52)) <= B64.rnd x ->
  exists j K : Z,
    inject_Z s - B64.rnd x == inject_Z j * B64.pow2 K /\
    (Z.abs j < 2 ^ 53)%Z /\ (-105 <= K <= 0)%Z.
Proof.
  intros Hs Hlo Hhi Hd.
  pose proof (size_bounds s Hs) as [S1 S2].
  pose proof (pow2_pos (-53)) as P.
  assert (Hx : 0 < x) by lra.
  destruct (lg_spec x Hx) as [L1 L2].
  set (e := B64.lg x) in *.
  assert (E1 : (-53 <= e)%Z) by (apply lg_ge; exact Hlo).
  assert (E2 : (e < 53)%Z) by (apply lg_lt; assumption).
  set (K := (e - 52)%Z).
  assert (G : B64.pow2 (K + 52) <= x)
    by (replace (K + 52)%Z with e by (unfold K; lia); exact L1).
  destruct (rnd_pos_grid x K G) as [j Hj].
  rewrite <- (rnd_of_pos x Hx) in Hj.
  destruct (grid_of_Z s K ltac:(unfold K; lia)) as [i Hi].
  exists (i - j)%Z, K.
  assert (Ez : inject_Z s - B64.rnd x == inject_Z (i - j) * B64.pow2 K).
  { rewrite Hi, Hj. unfold Zminus. rewrite inject_Z_plus, inject_Z_opp. ring. }
  split; [exact Ez |]. split; [| unfold K; lia].
  assert (D1 : B64.pow2 e <= B64.rnd x) by (apply rnd_ge_pow2; [lia | exact L1]).
  assert (D2 : B64.rnd x <= B64.pow2 (e + 1)) by (apply rnd_le_pow2; [lia | lra]).
  pose proof (pow2_pos e) as Pe. pose proof (pow2_pos K) as PK.
  assert (T : B64.pow2 (e + 1) == 9007199254740992 * B64.pow2 K).
  { replace (e + 1)%Z with (53 + K)%Z by (unfold K; lia).
    rewrite pow2_add. reflexivity. }
  assert (B : - B64.pow2 (e + 1) < inject_Z s - B64.rnd x < B64.pow2 (e + 1)).
  { rewrite pow2_m52 in Hd. split; [lra |].
    destruct (Qlt_le_dec (B64.rnd x) (inject_Z s)) as [Lt | Ge]; [| lra].
    assert (inject_Z s <= 2 * B64.rnd x) by lra.
    lra. }
  rewrite Ez, T in B. destruct B as [B1 B2].
  assert (J1 : - 9007199254740992 < inject_Z (i - j)).
  { destruct (Qlt_le_dec (- 9007199254740992) (inject_Z (i - j))) as [Lt | Ge];
      [exact Lt | exfalso].
    assert (inject_Z (i - j) * B64.pow2 K <= - 9007199254740992 * B64.pow2 K)
      by (apply Qmult_le_compat_r; lra).
    lra. }
  assert (J2 : inject_Z (i - j) < 9007199254740992).
  { destruct (Qlt_le_dec (inject_Z (i - j)) 9007199254740992) as [Lt | Ge];
      [exact Lt | exfalso].
    assert (9007199254740992 * B64.pow2 K <= inject_Z (i - j) * B64.pow2 K)
      by (apply Qmult_le_compat_r; lra).
    lra. }
  change (- 9007199254740992) with (inject_Z (- 2 ^ 53)) in J1.
  change 9007199254740992 with (inject_Z (2 ^ 53)) in J2.
  rewrite <- Zlt_Qlt in J1, J2. lia.
Qed.

(** The offset of an axis, [(surface - draw) / 2]: when the difference
    is a double of ordinary size the subtraction and the halving are
    exact. *)
Lemma offset_exact (s d : Q) (j K : Z) :
  s - d == inject_Z j * B64.pow2 K ->
  (Z.abs j < 2 ^ 53)%Z -> (-1021 <= K <= 0)%Z ->
  exists o : Q,
    B64.div (B64.sub (Fin s) (Fin d)) two = Fin o /\ o == (s - d) / 2.
Proof.
  intros Ez Hj HK.
  set (z := s - d) in *.
  assert (Rz : B64.rnd z == z).
  { apply rnd_exact. exists j, K. split; [exact Ez |]. split; [exact Hj | lia]. }
  pose proof (pow2_pos K) as PK.
  assert (PK1 : B64.pow2 K <= 1)
    by (change 1 with (B64.pow2 0); apply pow2_le; lia).
  assert (J : - 9007199254740992 <= inject_Z j <= 9007199254740992).
  { change (- 9007199254740992) with (inject_Z (- 2 ^ 53)).
    change 9007199254740992 with (inject_Z (2 ^ 53)).
    rewrite <- !Zle_Qle. lia. }
  assert (P1000 : 9007199254740992 <= B64.pow2 1000).
  { change 9007199254740992 with (B64.pow2 53). apply pow2_le. lia. }
  assert (B : - B64.pow2 1000 <= z <= B64.pow2 1000).
  { rewrite Ez. split; nra. }
  unfold z at 1. rewrite (sub_rounded s d 1000 ltac:(lia) B). fold z.
  assert (Bh : - B64.pow2 1000 <= B64.rnd z / 2 <= B64.pow2 1000).
  { rewrite Rz. split; [apply Qle_shift_div_l | apply Qle_shift_div_r]; lra. }
  unfold two. rewrite (div_rounded (B64.rnd z) 2 1000 ltac:(lia) ltac:(lra) Bh).
  exists (B64.rnd (B64.rnd z / 2)).
  split; [reflexivity |].
  destruct (Qeq_dec z 0) as [Z0 | Z0].
  - rewrite (rnd_of_zero z Z0). rewrite (rnd_of_zero (0 / 2)) by reflexivity.
    rewrite Z0. reflexivity.
  - pose proof (grid_abs z j K Ez Z0) as G.
    pose proof (pow2_le (-1021) K ltac:(lia)) as G1.
    rewrite rnd_half by lra. rewrite Rz. reflexivity.
Qed.

(** The fit of an image on a surface, both with sides below [2^26]. *)
Lemma coverFit_spec (img : Image) (cw ch : Z) :
  (0 < Z.of_N (img_width img) < 2 ^ 26)%Z ->
  (0 < Z.of_N (img_height img) < 2 ^ 26)%Z ->
  (0 < cw < 2 ^ 26)%Z -> (0 < ch < 2 ^ 26)%Z ->
  let surfaceAspect := B64.div (Num.of_Z cw) (Num.of_Z ch) in
  let imageAspect :=
    B64.div (Num.of_N (img_width img)) (Num.of_N (img_height img)) in
  exists dw dh ox oy : Q,
    coverFit img (Num.of_Z cw) (Num.of_Z ch) =
      mkFit (Fin dw) (Fin dh) (Fin ox) (Fin oy) /\
    (Num.gtb surfaceAspect imageAspect = true ->
       aspect img < inject_Z cw / inject_Z ch /\
       dw == inject_Z cw /\ inject_Z ch <= dh) /\
    (Num.gtb surfaceAspect imageAspect = false ->
       dh == inject_Z ch /\
       inject_Z cw * (1 - B64.pow2 (-52)) <= dw) /\
    ox == (inject_Z cw - dw) / 2 /\
    oy == (inject_Z ch - dh) / 2.
Proof.
  intros Hw Hh Hcw Hch. cbv zeta.
  unfold coverFit, aspect, Num.of_N, Num.of_Z.
  set (W := inject_Z (Z.of_N (img_width img))).
  set (H := inject_Z (Z.of_N (img_height img))).
  set (C := inject_Z cw). set (D := inject_Z ch).
  pose proof (size_bounds _ Hw) as [W1 W2]. pose proof (size_bounds _ Hh) as [H1 H2].
  pose proof (size_bounds _ Hcw) as [C1 C2]. pose proof (size_bounds _ Hch) as [D1 D2].
  fold W in W1, W2. fold H in H1, H2. fold C in C1, C2. fold D in D1, D2.
  pose proof (quotient_of_sizes _ _ Hw Hh) as Y. fold W H in Y.
  pose proof (quotient_of_sizes _ _ Hcw Hch) as X. fold C D in X.
  pose proof (pow2_pos 26) as P26. pose proof (pow2_pos (-26)) as Pm26.
  rewrite (div_rounded W H 26) by (try lia; try lra).
  rewrite (div_rounded C D 26) by (try lia; try lra).
  set (ia := B64.rnd (W / H)). set (ca := B64.rnd (C / D)).
  assert (Ia : B64.pow2 (-26) <= ia <= B64.pow2 26).
  { split; [apply rnd_ge_pow2 | apply rnd_le_pow2]; try lia; apply Y. }
  pose proof pow2_26 as E26. pose proof pow2_m26 as Em26.
  pose proof pow2_52 as E52. pose proof pow2_m53 as Em53.
  assert (L53 : B64.pow2 52 < B64.pow2 53) by (apply pow2_lt; lia).
  assert (RD : B64.rnd D == D) by (apply rnd_Z; lia).
  assert (S0 : forall s : Z,
             exists o : Q,
               B64.div (B64.sub (Fin (inject_Z s)) (Fin (inject_Z s))) two = Fin o /\
               o == (inject_Z s - inject_Z s) / 2).
  { intros s. apply (offset_exact (inject_Z s) (inject_Z s) 0 0); [| lia | lia].
    change (inject_Z 0) with 0. ring. }
  unfold Num.gtb.
  destruct (Qlt_le_dec ia ca) as [Hlt | Hle].
  - (* the width is fitted *)
    rewrite (proj2 (ltb_Fin ia ca) Hlt).
    assert (Q1 : B64.pow2 (-53) <= C / ia <= B64.pow2 52).
    { rewrite Em53, E52. rewrite E26, Em26 in Ia. split.
      - apply Qle_shift_div_l; [lra |]. nra.
      - apply Qle_shift_div_r; [lra |]. nra. }
    rewrite (div_rounded C ia 52) by (try lia; try lra).
    set (dh := B64.rnd (C / ia)).
    assert (Ex : W / H < C / D).
    { destruct (Qlt_le_dec (W / H) (C / D)) as [L | L]; [exact L |].
      exfalso. pose proof (rnd_mono _ _ L). unfold ia, ca in Hlt. lra. }
    assert (Hdh : D <= dh).
    { rewrite <- RD. apply rnd_mono.
      assert (I : ia <= C / D).
      { destruct (Qlt_le_dec (C / D) ia) as [L | L]; [| exact L].
        exfalso. assert (L' : C / D <= ia) by lra.
        pose proof (rnd_mono _ _ L') as M. fold ca in M.
        pose proof (rnd_idem (W / H)) as I. fold ia in I. lra. }
      apply Qle_shift_div_l; [lra |].
      assert (T : C / D * D == C) by (field; lra). nra. }
    destruct (S0 cw) as (ox & Eox & Zox). fold C in Eox, Zox.
    destruct (difference_on_grid ch (C / ia) Hch) as (j & K & Ej & Hj & HK);
      [lra | lra | fold D dh; pose proof (pow2_pos (-52)); nra |].
    fold D dh in Ej.
    destruct (offset_exact D dh j K Ej Hj ltac:(lia)) as (oy & Eoy & Zoy).
    rewrite Eox, Eoy.
    exists C, dh, ox, oy.
    split; [reflexivity |].
    split; [intros _; repeat split; try assumption; reflexivity |].
    split; [discriminate |].
    split; assumption.
  - (* the height is fitted *)
    rewrite (proj2 (ltb_Fin_false ia ca)) by lra.
    assert (Q1 : B64.pow2 (-53) <= D * ia <= B64.pow2 52).
    { rewrite Em53, E52. rewrite E26, Em26 in Ia. split; nra. }
    rewrite (mul_rounded D ia 52) by (try lia; try lra).
    set (dw := B64.rnd (D * ia)).
    assert (Hdw : C * (1 - B64.pow2 (-52)) <= dw).
    { assert (N1 : B64.pow2 (-1022) <= B64.pow2 (-53)) by (apply pow2_le; lia).
      assert (N2 : B64.pow2 (-53) <= B64.pow2 (-26)) by (apply pow2_le; lia).
      assert (Px : 0 < C / D) by lra.
      pose proof (rnd_pos_error (C / D) ltac:(lra)) as [A _].
      rewrite <- (rnd_of_pos _ Px) in A. fold ca in A.
      assert (Pd : 0 < D * ia) by lra.
      pose proof (rnd_pos_error (D * ia) ltac:(lra)) as [B _].
      rewrite <- (rnd_of_pos _ Pd) in B. fold dw in B.
      assert (T : C / D * D == C) by (field; lra).
      assert (E2 : B64.pow2 (-52) == 2 * B64.pow2 (-53)) by reflexivity.
      rewrite E2.
      set (u := B64.pow2 (-53)) in *.
      assert (U1 : u < 1) by (rewrite Em53; reflexivity).
      assert (S1 : C * (1 - u) <= D * ia).
      { assert (S2 : C / D * (1 - u) <= ia) by lra.
        assert (S3 : D * (C / D * (1 - u)) <= D * ia) by (apply Qmult_le_l; lra).
        assert (S4 : D * (C / D * (1 - u)) == C * (1 - u)) by (field; lra).
        lra. }
      assert (S5 : C * (1 - u) * (1 - u) <= D * ia * (1 - u))
        by (apply Qmult_le_r; lra).
      nra. }
    destruct (S0 ch) as (oy & Eoy & Zoy). fold D in Eoy, Zoy.
    destruct (difference_on_grid cw (D * ia) Hcw) as (j & K & Ej & Hj & HK);
      [lra | lra | exact Hdw |].
    fold C dw in Ej.
    destruct (offset_exact C dw j K Ej Hj ltac:(lia)) as (ox & Eox & Zox).
    rewrite Eox, Eoy.
    exists dw, D, ox, oy.
    split; [reflexivity |].
    split; [discriminate |].
    split; [intros _; split; [reflexivity | exact Hdw] |].
    split; assumption.
Qed.

(** C6 (amended).  The cover fit of [drawFrame], computed in binary64 on an
    image and a surface whose sides are positive integers below [2^26].
    The four values are finite.  When the computed aspect of the surface
    exceeds that of the image (then the exact one does too) the draw width
    is the surface width and the draw height is at least the surface
    height; otherwise the draw height is the surface height and the draw
    width is at least the surface width less a relative [2^-52].  Both
    offsets are exactly half of surface minus draw size: the overflow is
    cropped symmetrically. *)
Theorem C6_cover_fit_up_to_rounding (img : Image) (cw ch : Z) :
  (0 < img_width img < 2 ^ 26)%N ->
  (0 < img_height img < 2 ^ 26)%N ->
  (0 < cw < 2 ^ 26)%Z -> (0 < ch < 2 ^ 26)%Z ->
  let surfaceAspect := B64.div (Num.of_Z cw) (Num.of_Z ch) in
  let imageAspect :=
    B64.div (Num.of_N (img_width img)) (Num.of_N (img_height img)) in
  exists dw dh ox oy : Q,
    coverFit img (Num.of_Z cw) (Num.of_Z ch) =
      mkFit (Fin dw) (Fin dh) (Fin ox) (Fin oy) /\
    (Num.gtb surfaceAspect imageAspect = true ->
       aspect img < inject_Z cw / inject_Z ch /\
       dw == inject_Z cw /\ inject_Z ch <= dh) /\
    (Num.gtb surfaceAspect imageAspect = false ->
       dh == inject_Z ch /\
       inject_Z cw * (1 - B64.pow2 (-52)) <= dw) /\
    ox == (inject_Z cw - dw) / 2 /\
    oy == (inject_Z ch - dh) / 2.
Proof.
  intros Hw Hh Hcw Hch. apply coverFit_spec; try assumption; lia.
Qed.

Lemma C6_cover_fit_up_to_rounding_witness :
  let surfaceAspect := B64.div (Num.of_Z 1280) (Num.of_Z 800) in
  let imageAspect :=
    B64.div (Num.of_N (img_width (frame_image 0)))
            (Num.of_N (img_height (frame_image 0))) in
  exists dw dh ox oy : Q,
    coverFit (frame_image 0) (Num.of_Z 1280) (Num.of_Z 800) =
      mkFit (Fin dw) (Fin dh) (Fin ox) (Fin oy) /\
    (Num.gtb surfaceAspect imageAspect = true ->
       aspect (frame_image 0) < inject_Z 1280 / inject_Z 800 /\
       dw == inject_Z 1280 /\ inject_Z 800 <= dh) /\
    (Num.gtb surfaceAspect imageAspect = false ->
       dh == inject_Z 800 /\
       inject_Z 1280 * (1 - B64.pow2 (-52)) <= dw) /\
    ox == (inject_Z 1280 - dw) / 2 /\
    oy == (inject_Z 800 - dh) / 2.
Proof.
  apply (C6_cover_fit_up_to_rounding (frame_image 0) 1280 800).
  - split; reflexivity.
  - split; reflexivity.
  - lia.
  - lia.
Defined.

(** C6 (counterexample).  A 1400 x 1000 image on a 1008 x 720 surface: the
    two aspects are 1.4, the height is fitted, and the draw width
    [720 * 1.4] comes out as 1007.9999999999999, less than the surface
    width; the image starts [2^-44] pixels right of the left edge. *)
Lemma C6_counterexample_draw_width_below_surface :
  exists dw dh ox oy : Q,
    coverFit image_1400x1000 (Num.of_Z 1008) (Num.of_Z 720) =
      mkFit (Fin dw) (Fin dh) (Fin ox) (Fin oy) /\
    dw < 1008 /\ dw == 1008 - B64.pow2 (-43) /\
    dh == 720 /\
    0 < ox /\ ox == B64.pow2 (-44) /\ oy == 0.
Proof.
  eexists. eexists. eexists. eexists.
  split; [vm_compute; reflexivity |].
  repeat split; vm_compute; reflexivity.
Qed.

(** One axis of the fit: the draw size misses the surface by a relative
    [2^-52] at most and the offset centres it; on a bitmap of at most
    [2^50] pixels along the axis the centre of every pixel is inside. *)
Lemma axis_covered (s d o r u : Q) (k n : Z) :
  (0 <= k < n)%Z -> 0 < r -> 0 < s ->
  inject_Z n <= s * r -> s * r <= B64.pow2 50 ->
  s * (1 - B64.pow2 (-52)) <= d ->
  o == (s - d) / 2 ->
  u == (inject_Z k + (1 # 2)) / r ->
  o <= u /\ u < o + d.
Proof.
  intros [K0 Kn] Hr Hs Hn Hmax Hd Ho Hu.
  rewrite pow2_50 in Hmax. rewrite pow2_m52 in Hd.
  assert (K1 : 0 <= inject_Z k).
  { change 0 with (inject_Z 0). rewrite <- Zle_Qle. exact K0. }
  assert (K2 : inject_Z k + 1 <= inject_Z n).
  { change 1 with (inject_Z 1). rewrite <- inject_Z_plus, <- Zle_Qle. lia. }
  assert (Ur : u * r == inject_Z k + (1 # 2)) by (rewrite Hu; field; lra).
  assert (U0 : 0 < u).
  { rewrite Hu. apply Qlt_shift_div_l; lra. }
  assert (U1 : u < s).
  { rewrite Hu. apply Qlt_shift_div_r; lra. }
  assert (E : (s - d) / 2 == (s - d) * (1 # 2)) by field.
  rewrite E in Ho.
  destruct (Qlt_le_dec d s) as [Hlt | Hge]; [| split; lra].
  set (t := 1 # 4503599627370496) in *.
  assert (T : s * t * r <= 1 # 4).
  { assert (T' : s * t * r == s * r * t) by ring. rewrite T'. unfold t. lra. }
  assert (B1 : s * t < u).
  { destruct (Qlt_le_dec (s * t) u) as [L | L]; [exact L |].
    exfalso. assert (M : u * r <= s * t * r) by (apply Qmult_le_compat_r; lra). lra. }
  assert (B2 : u < s - s * t).
  { destruct (Qlt_le_dec u (s - s * t)) as [L | L]; [exact L |].
    exfalso.
    assert (M : (s - s * t) * r <= u * r) by (apply Qmult_le_compat_r; lra).
    assert (M' : (s - s * t) * r == s * r - s * t * r) by ring.
    lra. }
  unfold t in *. split; lra.
Qed.

(** The fit in binary64 reaches every pixel of a bitmap no larger than
    the logical size times the density, as the exact fit does: on a
    surface of at most [2^50] device pixels a side the rounding does not
    show on the canvas. *)
Lemma coverFit_reaches_every_pixel
    (img : Image) (cw ch : Z) (r : Q) (cv : Canvas) (px py : Z) :
  (0 < Z.of_N (img_width img) < 2 ^ 26)%Z ->
  (0 < Z.of_N (img_height img) < 2 ^ 26)%Z ->
  (0 < cw < 2 ^ 26)%Z -> (0 < ch < 2 ^ 26)%Z -> 0 < r ->
  inject_Z cw * r <= B64.pow2 50 -> inject_Z ch * r <= B64.pow2 50 ->
  inject_Z (cv_width cv) <= inject_Z cw * r ->
  inject_Z (cv_height cv) <= inject_Z ch * r ->
  Canvas2D.in_bitmap cv px py = true ->
  let fit := coverFit img (Num.of_Z cw) (Num.of_Z ch) in
  Canvas2D.hits cv (transform (painted_ctx (Fin r)))
    (offsetX fit) (offsetY fit) (drawWidth fit) (drawHeight fit) px py = true.
Proof.
  intros Hw Hh Hcw Hch Hr Mw Mh Bw Bh Hin. cbv zeta.
  destruct (coverFit_spec img cw ch Hw Hh Hcw Hch)
    as (dw & dh & ox & oy & Hfit & HA & HB & Cx & Cy).
  rewrite Hfit. cbn [offsetX offsetY drawWidth drawHeight].
  destruct (in_bitmap_bounds _ _ _ Hin) as [Hx Hy].
  destruct (user_point_scaled r px py Hr) as (ux & uy & Hu & Hux & Huy).
  pose proof (size_bounds cw Hcw) as [C1 _]. pose proof (size_bounds ch Hch) as [D1 _].
  pose proof (pow2_pos (-52)) as P52.
  assert (Dw : inject_Z cw * (1 - B64.pow2 (-52)) <= dw /\
               inject_Z ch * (1 - B64.pow2 (-52)) <= dh).
  { destruct (Num.gtb _ _).
    - destruct (HA eq_refl) as (_ & A1 & A2). split; [rewrite A1 | ]; nra.
    - destruct (HB eq_refl) as (B1 & B2). split; [exact B2 | rewrite B1; nra]. }
  destruct Dw as [Dw Dh].
  destruct (axis_covered (inject_Z cw) dw ox r ux px (cv_width cv)
              Hx Hr ltac:(lra) Bw Mw Dw Cx Hux) as [X1 X2].
  destruct (axis_covered (inject_Z ch) dh oy r uy py (cv_height cv)
              Hy Hr ltac:(lra) Bh Mh Dh Cy Huy) as [Y1 Y2].
  unfold Canvas2D.hits. rewrite Hin, Hu.
  apply (in_rect_Fin _ _ _ _ _ _ X1 X2 Y1 Y2).
Qed.

End RoundedFit.

(** ** The frame on display *)

Section Display.

Local Open Scope Q_scope.










(** The redrawing case of C3 does occur: the two sample players differ in
    their current frame, and are drawn alike at the position of frame 51. *)
Example same_position_same_pixels :
  same_surface came_from_49 ready_without_50 /\
  currentFrame came_from_49 <> newFrame (progress (layout_at 51)) /\
  currentFrame ready_without_50 <> newFrame (progress (layout_at 51)) /\
  currentFrame came_from_49 <> currentFrame ready_without_50 /\
  bitmap (canvas (handleScroll (layout_at 51) came_from_49)) 0 0 =
    Paint (getFramePath 51) /\
  bitmap (canvas (handleScroll (layout_at 51) ready_without_50)) 0 0 =
    Paint (getFramePath 51).
Proof.
  split; [unfold same_surface;
     split; [vm_compute; reflexivity |];
     split; [vm_compute; reflexivity |];
     split; [vm_compute; reflexivity |];
     split; [vm_compute; reflexivity |];
     split; [vm_compute; reflexivity |];
     split; eexists; vm_compute; reflexivity |].
  split; [vm_compute; discriminate |].
  split; [vm_compute; discriminate |].
  split; [vm_compute; discriminate |].
  split; vm_compute; reflexivity.
Qed.

(** At these offsets the code is one frame short of the exact
    [floor(k / 191 * 191)], and nowhere else on this page. *)
Example frames_one_short :
  newFrame (progress (layout_px 7)) = Num.of_Z 6 /\
  forallb
    (fun k =>
       Num.eqb (newFrame (progress (layout_px k)))
               (Num.of_Z (if existsb (Z.eqb k) one_short then k - 1 else k)))
    (map Z.of_nat (seq 0 192)) = true.
Proof. split; vm_compute; reflexivity. Qed.

End Display.

(** ** Integers among the numbers *)

Section Integers.
Local Open Scope Q_scope.

Lemma is_int_of_Z (z : Z) : is_int (Num.of_Z z) z.
Proof. exists (inject_Z z). split; reflexivity. Qed.

Lemma is_int_of_nat (n : nat) : is_int (Num.of_nat n) (Z.of_nat n).
Proof. exists (inject_Z (Z.of_nat n)). split; reflexivity. Qed.

Lemma is_int_zero : is_int Num.zero 0.
Proof. exists 0. split; reflexivity. Qed.

Lemma is_int_one : is_int Num.one 1.
Proof. exists 1. split; reflexivity. Qed.

Lemma is_int_inj (a : number) (x y : Z) : is_int a x -> is_int a y -> x = y.
Proof.
  intros (q & E & H) (q' & E' & H'). rewrite E in E'. injection E' as <-.
  rewrite H in H'. apply (proj1 (inject_Z_injective x y)), H'.
Qed.

Lemma is_int_add (a b : number) (x y : Z) :
  is_int a x -> is_int b y -> is_int (Num.add a b) (x + y).
Proof.
  intros (p & -> & Hp) (q & -> & Hq). exists (p + q). split; [reflexivity |].
  rewrite Hp, Hq, inject_Z_plus. reflexivity.
Qed.

Lemma is_int_neg (a : number) (x : Z) : is_int a x -> is_int (Num.neg a) (- x).
Proof.
  intros (p & -> & Hp). exists (- p). split; [reflexivity |].
  rewrite Hp, inject_Z_opp. reflexivity.
Qed.

Lemma is_int_sub (a b : number) (x y : Z) :
  is_int a x -> is_int b y -> is_int (Num.sub a b) (x - y).
Proof.
  intros Ha Hb. unfold Num.sub. apply (is_int_add a (Num.neg b) x (- y) Ha).
  apply is_int_neg, Hb.
Qed.

Lemma is_int_mul (a b : number) (x y : Z) :
  is_int a x -> is_int b y -> is_int (Num.mul a b) (x * y).
Proof.
  intros (p & -> & Hp) (q & -> & Hq). exists (p * q). split; [reflexivity |].
  rewrite Hp, Hq, inject_Z_mult. reflexivity.
Qed.

Lemma is_int_ltb (a b : number) (x y : Z) :
  is_int a x -> is_int b y -> Num.ltb a b = (x <? y)%Z.
Proof.
  intros (p & -> & Hp) (q & -> & Hq).
  destruct (Z.ltb_spec x y) as [H | H].
  - apply (proj2 (ltb_Fin p q)). rewrite Hp, Hq, <- Zlt_Qlt. exact H.
  - apply (proj2 (ltb_Fin_false p q)). rewrite Hp, Hq, <- Zle_Qle. exact H.
Qed.

Lemma is_int_max (a b : number) (x y : Z) :
  is_int a x -> is_int b y -> is_int (Num.max a b) (Z.max x y).
Proof.
  intros Ha Hb. pose proof (is_int_ltb a b x y Ha Hb) as E.
  destruct Ha as (p & -> & Hp), Hb as (q & -> & Hq).
  unfold Num.max. rewrite E. destruct (Z.ltb_spec x y) as [H | H].
  - exists q. split; [reflexivity |]. rewrite Z.max_r by lia. exact Hq.
  - exists p. split; [reflexivity |]. rewrite Z.max_l by lia. exact Hp.
Qed.

Lemma is_int_min (a b : number) (x y : Z) :
  is_int a x -> is_int b y -> is_int (Num.min a b) (Z.min x y).
Proof.
  intros Ha Hb. pose proof (is_int_ltb b a y x Hb Ha) as E.
  destruct Ha as (p & -> & Hp), Hb as (q & -> & Hq).
  unfold Num.min. rewrite E. destruct (Z.ltb_spec y x) as [H | H].
  - exists q. split; [reflexivity |]. rewrite Z.min_r by lia. exact Hq.
  - exists p. split; [reflexivity |]. rewrite Z.min_l by lia. exact Hp.
Qed.

Lemma is_int_eqb (a : number) (x : Z) :
  is_int a x -> Num.eqb a (Num.of_Z x) = true.
Proof.
  intros (p & -> & Hp). unfold Num.of_Z, Num.eqb. apply Qeq_bool_iff, Hp.
Qed.

(** A non-negative integer names an array slot. *)
Lemma array_index_int (a : number) (x : Z) :
  is_int a x -> (0 <= x)%Z -> Num.array_index a = Some (Z.to_nat x).
Proof.
  intros (p & -> & Hp) Hx. unfold Num.array_index.
  assert (F : Qfloor p = x) by (rewrite Hp; apply Qfloor_Z).
  rewrite F.
  assert (E : Qeq_bool (inject_Z x) p = true) by (apply Qeq_bool_iff; rewrite Hp; reflexivity).
  rewrite E. rewrite (proj2 (Z.leb_le 0 x) Hx). reflexivity.
Qed.

Lemma array_index_negative (a : number) (x : Z) :
  is_int a x -> (x < 0)%Z -> Num.array_index a = None.
Proof.
  intros (p & -> & Hp) Hx. unfold Num.array_index.
  assert (F : Qfloor p = x) by (rewrite Hp; apply Qfloor_Z).
  rewrite F. rewrite (proj2 (Z.leb_gt 0 x) Hx), andb_false_r. reflexivity.
Qed.

Lemma trunc_comp (p q : Q) : p == q -> JsMath.trunc p = JsMath.trunc q.
Proof.
  unfold Qeq, JsMath.trunc. intros H.
  rewrite <- (Z.quot_mul_cancel_r (Qnum p) (Z.pos (Qden p)) (Z.pos (Qden q))) by lia.
  rewrite <- (Z.quot_mul_cancel_r (Qnum q) (Z.pos (Qden q)) (Z.pos (Qden p))) by lia.
  rewrite H. f_equal. lia.
Qed.

Lemma trunc_quotient (x y : Z) :
  y <> 0%Z -> JsMath.trunc (inject_Z x / inject_Z y) = Z.quot x y.
Proof.
  intros Hy. unfold JsMath.trunc, Qdiv, Qinv, Qmult, inject_Z.
  destruct y as [| y | y]; [contradiction | |]; cbn [Qnum Qden].
  - rewrite Z.mul_1_r. reflexivity.
  - replace (x * -1)%Z with (- x)%Z by lia.
    change (Z.neg y) with (- Z.pos y)%Z.
    rewrite Z.quot_opp_r, Z.quot_opp_l by lia.
    reflexivity.
Qed.

Lemma is_int_rem (a b : number) (x y : Z) :
  is_int a x -> is_int b y -> y <> 0%Z -> is_int (JsMath.rem a b) (Z.rem x y).
Proof.
  intros (p & -> & Hp) (q & -> & Hq) Hy. unfold JsMath.rem.
  assert (Hq0 : ~ q == 0).
  { rewrite Hq. intros H. apply Hy.
    apply (proj1 (inject_Z_injective y 0)). exact H. }
  destruct (Qeq_bool q 0) eqn:E; [apply Qeq_bool_iff in E; contradiction |].
  eexists. split; [reflexivity |].
  assert (T : JsMath.trunc (p / q) = Z.quot x y).
  { rewrite <- (trunc_quotient x y Hy). apply trunc_comp.
    rewrite Hp, Hq. reflexivity. }
  rewrite T, Hp, Hq.
  replace (Z.rem x y) with (x + - (y * Z.quot x y))%Z
    by (pose proof (Z.quot_rem' x y); lia).
  rewrite inject_Z_plus, inject_Z_opp, inject_Z_mult. reflexivity.
Qed.

Lemma rem_by_zero (a b : number) : is_int b 0 -> JsMath.rem a b = NaN.
Proof.
  intros (q & -> & Hq). unfold JsMath.rem. destruct a; try reflexivity.
  rewrite (proj2 (Qeq_bool_iff q 0)) by exact Hq. reflexivity.
Qed.

End Integers.

(** ** The lightbox *)

Section LightboxFacts.

Lemma lightbox_show_index (a : number) (st : Lightbox.State) (x : Z) :
  is_int a x -> (0 <= x < Z.of_nat (length (Lightbox.images st)))%Z ->
  exists s : string,
    Lightbox.images st !! Z.to_nat x = Some s /\
    Lightbox.img_src (Lightbox.show a st) = Str s.
Proof.
  intros Ha Hx.
  destruct (lookup_lt_is_Some_2 (Lightbox.images st) (Z.to_nat x)) as [s Hs]; [lia |].
  exists s. split; [exact Hs |].
  unfold Lightbox.show, Lightbox.image_at. cbn [Lightbox.img_src Lightbox.images].
  rewrite (array_index_int a x Ha) by lia. rewrite Hs. reflexivity.
Qed.

Lemma lightbox_next_index (st : Lightbox.State) (i : Z) :
  Lightbox.images st <> [] ->
  is_int (Lightbox.currentIndex st) i -> (0 <= i)%Z ->
  is_int (Lightbox.currentIndex (Lightbox.next st))
         ((i + 1) mod Z.of_nat (length (Lightbox.images st))).
Proof.
  intros Hne Hi Hpos.
  assert (Hn : (0 < Z.of_nat (length (Lightbox.images st)))%Z)
    by (destruct (Lightbox.images st); [contradiction | cbn [length]; lia]).
  unfold Lightbox.next, Lightbox.show. cbn [Lightbox.currentIndex].
  rewrite <- Z.rem_mod_nonneg by lia.
  apply is_int_rem; [| apply is_int_of_nat | lia].
  apply is_int_add; [exact Hi | apply is_int_one].
Qed.

Lemma lightbox_prev_index (st : Lightbox.State) (i : Z) :
  Lightbox.images st <> [] ->
  is_int (Lightbox.currentIndex st) i -> (0 <= i)%Z ->
  is_int (Lightbox.currentIndex (Lightbox.prev st))
         ((i - 1) mod Z.of_nat (length (Lightbox.images st))).
Proof.
  intros Hne Hi Hpos.
  assert (Hn : (0 < Z.of_nat (length (Lightbox.images st)))%Z)
    by (destruct (Lightbox.images st); [contradiction | cbn [length]; lia]).
  unfold Lightbox.prev, Lightbox.show. cbn [Lightbox.currentIndex].
  set (n := Z.of_nat (length (Lightbox.images st))) in *.
  replace ((i - 1) mod n)%Z with (Z.rem (i - 1 + n) n).
  - apply is_int_rem; [| apply is_int_of_nat | lia].
    apply is_int_add; [| apply is_int_of_nat].
    apply is_int_sub; [exact Hi | apply is_int_one].
  - rewrite Z.rem_mod_nonneg by lia.
    rewrite <- (Z.mod_add (i - 1) 1 n) by lia. f_equal. lia.
Qed.

Lemma lightbox_images_next (st : Lightbox.State) :
  Lightbox.images (Lightbox.next st) = Lightbox.images st.
Proof. reflexivity. Qed.

Lemma lightbox_images_prev (st : Lightbox.State) :
  Lightbox.images (Lightbox.prev st) = Lightbox.images st.
Proof. reflexivity. Qed.

(** X18.  [next] and [prev] walk round the images: from the integer index [i]
    they lead to [(i + 1) mod n] and [(i - 1) mod n], show the image of that
    slot, and undo each other on an index below [n]. *)
Theorem lightbox_next_prev_wrap (st : Lightbox.State) (i : Z) :
  Lightbox.images st <> [] ->
  is_int (Lightbox.currentIndex st) i -> (0 <= i)%Z ->
  let n := Z.of_nat (length (Lightbox.images st)) in
  (is_int (Lightbox.currentIndex (Lightbox.next st)) ((i + 1) mod n) /\
   exists s : string,
     Lightbox.images st !! Z.to_nat ((i + 1) mod n) = Some s /\
     Lightbox.img_src (Lightbox.next st) = Str s) /\
  (is_int (Lightbox.currentIndex (Lightbox.prev st)) ((i - 1) mod n) /\
   exists s : string,
     Lightbox.images st !! Z.to_nat ((i - 1) mod n) = Some s /\
     Lightbox.img_src (Lightbox.prev st) = Str s) /\
  ((i < n)%Z ->
   is_int (Lightbox.currentIndex (Lightbox.prev (Lightbox.next st))) i /\
   is_int (Lightbox.currentIndex (Lightbox.next (Lightbox.prev st))) i).
Proof.
  intros Hne Hi Hpos n.
  assert (Hn : (0 < n)%Z)
    by (subst n; destruct (Lightbox.images st); [contradiction | cbn [length]; lia]).
  pose proof (lightbox_next_index st i Hne Hi Hpos) as N.
  pose proof (lightbox_prev_index st i Hne Hi Hpos) as P.
  fold n in N, P.
  pose proof (Z.mod_pos_bound (i + 1) n Hn) as BN.
  pose proof (Z.mod_pos_bound (i - 1) n Hn) as BP.
  split; [split; [exact N |] | split; [split; [exact P |] |]].
  - apply lightbox_show_index; [| exact BN].
    rewrite <- Z.rem_mod_nonneg by lia.
    apply is_int_rem; [| apply is_int_of_nat | lia].
    apply is_int_add; [exact Hi | apply is_int_one].
  - apply lightbox_show_index; [| exact BP].
    replace ((i - 1) mod n)%Z with (Z.rem (i - 1 + n) n).
    + apply is_int_rem; [| apply is_int_of_nat | lia].
      apply is_int_add; [| apply is_int_of_nat].
      apply is_int_sub; [exact Hi | apply is_int_one].
    + rewrite Z.rem_mod_nonneg by lia.
      rewrite <- (Z.mod_add (i - 1) 1 n) by lia. f_equal. lia.
  - intros Hlt. split.
    + assert (Hne' : Lightbox.images (Lightbox.next st) <> []) by exact Hne.
      pose proof (lightbox_prev_index (Lightbox.next st) _ Hne' N (proj1 BN)) as R.
      rewrite lightbox_images_next in R. fold n in R.
      replace (((i + 1) mod n - 1) mod n)%Z with i in R; [exact R |].
      rewrite Zminus_mod_idemp_l.
      replace (i + 1 - 1)%Z with i by lia.
      symmetry. apply Z.mod_small. lia.
    + assert (Hne' : Lightbox.images (Lightbox.prev st) <> []) by exact Hne.
      pose proof (lightbox_next_index (Lightbox.prev st) _ Hne' P (proj1 BP)) as R.
      rewrite lightbox_images_prev in R. fold n in R.
      replace (((i - 1) mod n + 1) mod n)%Z with i in R; [exact R |].
      rewrite Zplus_mod_idemp_l.
      replace (i - 1 + 1)%Z with i by lia.
      symmetry. apply Z.mod_small. lia.
Qed.

Lemma lightbox_next_prev_wrap_witness :
  let st := Lightbox.constructor plain Undefined None [Str "a.jpg"; Str "b.jpg"; Str "c.jpg"] in
  let n := Z.of_nat (length (Lightbox.images st)) in
  (is_int (Lightbox.currentIndex (Lightbox.next st)) ((0 + 1) mod n) /\
   exists s : string,
     Lightbox.images st !! Z.to_nat ((0 + 1) mod n) = Some s /\
     Lightbox.img_src (Lightbox.next st) = Str s) /\
  (is_int (Lightbox.currentIndex (Lightbox.prev st)) ((0 - 1) mod n) /\
   exists s : string,
     Lightbox.images st !! Z.to_nat ((0 - 1) mod n) = Some s /\
     Lightbox.img_src (Lightbox.prev st) = Str s) /\
  ((0 < n)%Z ->
   is_int (Lightbox.currentIndex (Lightbox.prev (Lightbox.next st))) 0 /\
   is_int (Lightbox.currentIndex (Lightbox.next (Lightbox.prev st))) 0).
Proof.
  apply (lightbox_next_prev_wrap
           (Lightbox.constructor plain Undefined None
              [Str "a.jpg"; Str "b.jpg"; Str "c.jpg"]) 0).
  - discriminate.
  - exists 0%Q. split; reflexivity.
  - lia.
Defined.

(** X19.  With no image both buttons lose the index for good: the remainder by
    the length 0 is NaN, whatever the index was, and the image is given
    [undefined] as its source. *)
Theorem lightbox_empty_gallery_loses_the_index (st : Lightbox.State) :
  Lightbox.images st = [] ->
  Lightbox.currentIndex (Lightbox.next st) = NaN /\
  Lightbox.currentIndex (Lightbox.prev st) = NaN /\
  Lightbox.img_src (Lightbox.next st) = Undefined /\
  Lightbox.img_src (Lightbox.prev st) = Undefined.
Proof.
  intros H. unfold Lightbox.next, Lightbox.prev, Lightbox.show, Lightbox.image_at.
  cbn [Lightbox.currentIndex Lightbox.img_src]. rewrite H. cbn [length].
  rewrite !(rem_by_zero _ (Num.of_nat 0) (is_int_of_nat 0)).
  repeat split.
Qed.

Lemma lightbox_empty_gallery_loses_the_index_witness :
  let st := Lightbox.constructor plain Undefined None [Undefined; Str EmptyString] in
  Lightbox.currentIndex (Lightbox.next st) = NaN /\
  Lightbox.currentIndex (Lightbox.prev st) = NaN /\
  Lightbox.img_src (Lightbox.next st) = Undefined /\
  Lightbox.img_src (Lightbox.prev st) = Undefined.
Proof.
  apply (lightbox_empty_gallery_loses_the_index
           (Lightbox.constructor plain Undefined None [Undefined; Str EmptyString])).
  reflexivity.
Defined.

Lemma sources_app (a b : list Value) :
  Lightbox.sources (a ++ b) = Lightbox.sources a ++ Lightbox.sources b.
Proof.
  induction a as [| [| s] a IH]; cbn [app Lightbox.sources]; [reflexivity | exact IH |].
  destruct (Lightbox.truthy (Str s)); [cbn [app]; f_equal |]; exact IH.
Qed.

Lemma sources_length (a : list Value) :
  (length (Lightbox.sources a) <= length a)%nat.
Proof.
  induction a as [| [| s] a IH]; cbn [Lightbox.sources length]; [lia | lia |].
  destruct (Lightbox.truthy (Str s)); cbn [length]; lia.
Qed.

(** The sources before the item of position [k], when it has one. *)
Lemma sources_split (items : list Value) (k : nat) (s : string) :
  items !! k = Some (Str s) -> s <> EmptyString ->
  Lightbox.sources items =
    Lightbox.sources (take k items) ++ s :: Lightbox.sources (drop (S k) items).
Proof.
  intros Hk Hs.
  rewrite <- (take_drop_middle items k (Str s) Hk) at 1.
  rewrite sources_app. cbn [Lightbox.sources Lightbox.truthy].
  rewrite bool_decide_eq_true_2 by exact Hs. reflexivity.
Qed.

Lemma sources_full (items : list Value) :
  Forall (fun v => Lightbox.truthy v = true) items ->
  length (Lightbox.sources items) = length items.
Proof.
  induction 1 as [| [| s] l Hv _ IH]; cbn [Lightbox.sources length];
    [reflexivity | discriminate Hv |].
  rewrite Hv. cbn [length]. rewrite IH. reflexivity.
Qed.

Lemma sources_gap (items : list Value) (j : nat) (v : Value) :
  items !! j = Some v -> Lightbox.truthy v = false ->
  (length (Lightbox.sources items) < length items)%nat.
Proof.
  revert j. induction items as [| w l IH]; intros j Hj Hv; [discriminate Hj |].
  destruct j as [| j].
  - injection Hj as ->. pose proof (sources_length l).
    destruct v as [| s]; cbn [Lightbox.sources length]; [lia |].
    rewrite Hv. lia.
  - specialize (IH j Hj Hv).
    destruct w as [| s]; cbn [Lightbox.sources length]; [lia |].
    destruct (Lightbox.truthy (Str s)); cbn [length]; lia.
Qed.

Lemma lightbox_click_item (st : Lightbox.State) (k : nat) (s : string) :
  Lightbox.galleryItems st !! k = Some (Str s) -> s <> EmptyString ->
  Lightbox.dispatch (Lightbox.ClickItem k) st = Lightbox.open (Num.of_nat k) st.
Proof.
  intros Hk Hs. unfold Lightbox.dispatch. rewrite Hk. cbn [Lightbox.truthy].
  rewrite bool_decide_eq_true_2 by exact Hs. reflexivity.
Qed.

Lemma lightbox_open_src (st : Lightbox.State) (k : nat) :
  Lightbox.img_src (Lightbox.open (Num.of_nat k) st) =
  match Lightbox.images st !! k with
  | Some s => Str s
  | None => Undefined
  end.
Proof.
  unfold Lightbox.open, Lightbox.image_at. cbn [Lightbox.img_src].
  rewrite (array_index_int _ _ (is_int_of_nat k)) by lia.
  rewrite Nat2Z.id. reflexivity.
Qed.

(** When every gallery item before the clicked one has a source, the
    click shows the source of the clicked item. *)
Lemma lightbox_click_own_image
    (st : Lightbox.State) (k : nat) (s : string) :
  Lightbox.images st = Lightbox.sources (Lightbox.galleryItems st) ->
  Lightbox.galleryItems st !! k = Some (Str s) -> s <> EmptyString ->
  Forall (fun v => Lightbox.truthy v = true) (take k (Lightbox.galleryItems st)) ->
  let st' := Lightbox.dispatch (Lightbox.ClickItem k) st in
  Lightbox.img_src st' = Str s /\
  Lightbox.currentIndex st' = Num.of_nat k /\
  "active" ∈ classList (Lightbox.lightbox st').
Proof.
  intros Himg Hk Hs Hall. cbv zeta.
  rewrite (lightbox_click_item st k s Hk Hs), lightbox_open_src.
  split; [| split; [reflexivity |]].
  - rewrite Himg, (sources_split _ k s Hk Hs).
    assert (L : length (Lightbox.sources (take k (Lightbox.galleryItems st))) = k).
    { rewrite (sources_full _ Hall), length_take.
      apply lookup_lt_Some in Hk. lia. }
    rewrite lookup_app_r by lia. rewrite L, Nat.sub_diag. reflexivity.
  - unfold Lightbox.open. cbn [Lightbox.lightbox].
    apply (proj2 (elem_of_classList_add _ _ _)). left. reflexivity.
Qed.

(** When a gallery item before the clicked one has no source, the click
    does not show the source of the clicked item (the sources being
    distinct): [open] is given the position among all the items, and
    [images] holds only the sources that are set. *)
Lemma lightbox_click_after_gap
    (st : Lightbox.State) (j k : nat) (v : Value) (s : string) :
  Lightbox.images st = Lightbox.sources (Lightbox.galleryItems st) ->
  NoDup (Lightbox.images st) ->
  Lightbox.galleryItems st !! k = Some (Str s) -> s <> EmptyString ->
  (j < k)%nat ->
  Lightbox.galleryItems st !! j = Some v -> Lightbox.truthy v = false ->
  Lightbox.img_src (Lightbox.dispatch (Lightbox.ClickItem k) st) <> Str s.
Proof.
  intros Himg Hnd Hk Hs Hjk Hj Hv.
  rewrite (lightbox_click_item st k s Hk Hs), lightbox_open_src.
  destruct (Lightbox.images st !! k) as [s' |] eqn:E; [| discriminate].
  intros [= ->].
  assert (Hpos : Lightbox.images st
                   !! length (Lightbox.sources (take k (Lightbox.galleryItems st)))
                 = Some s).
  { rewrite Himg, (sources_split _ k s Hk Hs).
    rewrite lookup_app_r by lia. rewrite Nat.sub_diag. reflexivity. }
  pose proof (NoDup_lookup _ _ _ _ Hnd E Hpos) as Heq.
  assert (Hj' : take k (Lightbox.galleryItems st) !! j = Some v)
    by (rewrite lookup_take_lt by exact Hjk; exact Hj).
  pose proof (sources_gap _ j v Hj' Hv) as Hlt.
  rewrite length_take in Hlt. lia.
Qed.

(** X20.  A click on a gallery item shows the source of that item exactly when
    every item before it has a source (the sources being distinct): [open]
    is given the position among all the gallery items, and [images] holds
    only the sources that are set, so one item without a source shifts the
    image of every later item. *)
Theorem lightbox_click_shows_own_image_iff_no_gap
    (st : Lightbox.State) (k : nat) (s : string) :
  Lightbox.images st = Lightbox.sources (Lightbox.galleryItems st) ->
  NoDup (Lightbox.images st) ->
  Lightbox.galleryItems st !! k = Some (Str s) -> s <> EmptyString ->
  (Lightbox.img_src (Lightbox.dispatch (Lightbox.ClickItem k) st) = Str s <->
   Forall (fun v => Lightbox.truthy v = true) (take k (Lightbox.galleryItems st))) /\
  Lightbox.currentIndex (Lightbox.dispatch (Lightbox.ClickItem k) st) = Num.of_nat k /\
  "active" ∈ classList (Lightbox.lightbox (Lightbox.dispatch (Lightbox.ClickItem k) st)).
Proof.
  intros Himg Hnd Hk Hs.
  split.
  - split.
    + intros Hsrc.
      apply Forall_lookup. intros j v Hj.
      destruct (Lightbox.truthy v) eqn:Hv; [reflexivity | exfalso].
      assert (Hjk : (j < k)%nat).
      { apply lookup_lt_Some in Hj. rewrite length_take in Hj. lia. }
      rewrite lookup_take_lt in Hj by exact Hjk.
      exact (lightbox_click_after_gap st j k v s Himg Hnd Hk Hs Hjk Hj Hv Hsrc).
    + intros Hall. apply (lightbox_click_own_image st k s Himg Hk Hs Hall).
  - rewrite (lightbox_click_item st k s Hk Hs). split; [reflexivity |].
    unfold Lightbox.open. cbn [Lightbox.lightbox].
    apply (proj2 (elem_of_classList_add _ _ _)). left. reflexivity.
Qed.

Lemma lightbox_click_shows_own_image_iff_no_gap_witness :
  (Lightbox.img_src
     (Lightbox.dispatch (Lightbox.ClickItem 1)
        (Lightbox.constructor plain Undefined None [Undefined; Str "b.jpg"; Str "c.jpg"]))
   = Str "b.jpg" <->
   Forall (fun v => Lightbox.truthy v = true)
     (take 1
        (Lightbox.galleryItems
           (Lightbox.constructor plain Undefined None
              [Undefined; Str "b.jpg"; Str "c.jpg"])))) /\
  Lightbox.currentIndex
    (Lightbox.dispatch (Lightbox.ClickItem 1)
       (Lightbox.constructor plain Undefined None [Undefined; Str "b.jpg"; Str "c.jpg"]))
  = Num.of_nat 1 /\
  "active" ∈ classList
    (Lightbox.lightbox
       (Lightbox.dispatch (Lightbox.ClickItem 1)
          (Lightbox.constructor plain Undefined None
             [Undefined; Str "b.jpg"; Str "c.jpg"]))).
Proof.
  apply (lightbox_click_shows_own_image_iff_no_gap
           (Lightbox.constructor plain Undefined None
              [Undefined; Str "b.jpg"; Str "c.jpg"]) 1 "b.jpg").
  - reflexivity.
  - apply (bool_decide_unpack _). vm_compute. reflexivity.
  - reflexivity.
  - discriminate.
Defined.

End LightboxFacts.

(** ** The carousel *)

Section CarouselFacts.
Local Open Scope Q_scope.

Lemma getCardsToShow_int (env : Carousel.Env) :
  exists show : Z,
    is_int (Carousel.getCardsToShow env) show /\ (1 <= show <= 3)%Z.
Proof.
  unfold Carousel.getCardsToShow.
  destruct (Num.ltb _ _); [exists 1%Z; split; [apply is_int_one | lia] |].
  destruct (Num.ltb _ _).
  - exists 2%Z. split; [exists 2; split; reflexivity | lia].
  - exists 3%Z. split; [exists 3; split; reflexivity | lia].
Qed.

Lemma carousel_set_transform (offset : number) (st : Carousel.State) :
  Carousel.n_cards (Carousel.set_transform offset st) = Carousel.n_cards st /\
  Carousel.currentIndex (Carousel.set_transform offset st) = Carousel.currentIndex st /\
  Carousel.cardsToShow (Carousel.set_transform offset st) = Carousel.cardsToShow st /\
  Carousel.touchStartX (Carousel.set_transform offset st) = Carousel.touchStartX st.
Proof. destruct offset; repeat split. Qed.

(** What [goTo] leaves, whether it returns or not. *)
Lemma carousel_goTo_state (env : Carousel.Env) (index : number) (st : Carousel.State)
    (x show : Z) :
  is_int index x -> is_int (Carousel.cardsToShow st) show ->
  let st' := state_of (Carousel.goTo env index st) in
  is_int (Carousel.currentIndex st')
         (Z.max 0 (Z.min x (Z.of_nat (Carousel.n_cards st) - show))) /\
  Carousel.n_cards st' = Carousel.n_cards st /\
  Carousel.cardsToShow st' = Carousel.cardsToShow st /\
  Carousel.touchStartX st' = Carousel.touchStartX st.
Proof.
  intros Hx Hs. cbv zeta.
  pose proof (is_int_max _ _ _ _ is_int_zero
                (is_int_min _ _ _ _ Hx
                   (is_int_sub _ _ _ _ (is_int_of_nat (Carousel.n_cards st)) Hs))) as H.
  unfold Carousel.goTo. destruct (Carousel.n_cards st) as [| m] eqn:E; cbn [state_of].
  - unfold Carousel.set_currentIndex.
    cbn [Carousel.currentIndex Carousel.n_cards Carousel.cardsToShow Carousel.touchStartX].
    rewrite E. repeat split. exact H.
  - destruct (carousel_set_transform
                (Num.mul
                   (Num.neg
                      (Carousel.currentIndex
                         (Carousel.set_currentIndex
                            (Num.max Num.zero
                               (Num.min index
                                  (Num.sub (Num.of_nat (S m)) (Carousel.cardsToShow st))))
                            st)))
                   (Num.add (Num.of_Z (Carousel.card_offsetWidth env)) (Fin 30)))
                (Carousel.set_currentIndex
                   (Num.max Num.zero
                      (Num.min index
                         (Num.sub (Num.of_nat (S m)) (Carousel.cardsToShow st))))
                   st)) as (A & B & C & D).
    rewrite A, B, C, D.
    unfold Carousel.set_currentIndex.
    cbn [Carousel.currentIndex Carousel.n_cards Carousel.cardsToShow Carousel.touchStartX].
    rewrite E. repeat split. exact H.
Qed.

Lemma carousel_goTo_in_range (env : Carousel.Env) (index : number)
    (st : Carousel.State) (x show : Z) :
  is_int index x -> is_int (Carousel.cardsToShow st) show -> (1 <= show <= 3)%Z ->
  Carousel.in_range (state_of (Carousel.goTo env index st)).
Proof.
  intros Hx Hs Hr.
  destruct (carousel_goTo_state env index st x show Hx Hs) as (A & B & C & _).
  exists (Z.max 0 (Z.min x (Z.of_nat (Carousel.n_cards st) - show))), show.
  rewrite B, C. split; [exact A |]. split; [exact Hs |]. split; [exact Hr | lia].
Qed.

Lemma carousel_dispatch_in_range (env : Carousel.Env) (ev : Carousel.Event)
    (st : Carousel.State) :
  Carousel.in_range st ->
  Carousel.in_range (state_of (Carousel.dispatch env ev st)) /\
  Carousel.n_cards (state_of (Carousel.dispatch env ev st)) = Carousel.n_cards st.
Proof.
  intros (z & show & Hz & Hs & Hr & Hb).
  assert (Hnext : Carousel.in_range (state_of (Carousel.next env st)) /\
                  Carousel.n_cards (state_of (Carousel.next env st)) = Carousel.n_cards st).
  { split.
    - apply (carousel_goTo_in_range env _ st (z + 1) show); try assumption.
      apply is_int_add; [exact Hz | apply is_int_one].
    - apply (carousel_goTo_state env _ st (z + 1) show); try assumption.
      apply is_int_add; [exact Hz | apply is_int_one]. }
  assert (Hprev : Carousel.in_range (state_of (Carousel.prev env st)) /\
                  Carousel.n_cards (state_of (Carousel.prev env st)) = Carousel.n_cards st).
  { split.
    - apply (carousel_goTo_in_range env _ st (z - 1) show); try assumption.
      apply is_int_sub; [exact Hz | apply is_int_one].
    - apply (carousel_goTo_state env _ st (z - 1) show); try assumption.
      apply is_int_sub; [exact Hz | apply is_int_one]. }
  destruct ev as [| | | x | x]; unfold Carousel.dispatch.
  - exact Hprev.
  - exact Hnext.
  - destruct (getCardsToShow_int env) as (show' & Hs' & Hr').
    split.
    + apply (carousel_goTo_in_range env _ _ 0 show'); try assumption.
      apply is_int_zero.
    + apply (carousel_goTo_state env Num.zero
               (Carousel.mk (Carousel.n_cards st) (Carousel.currentIndex st)
                  (Carousel.getCardsToShow env) (Carousel.track_transform st)
                  (Carousel.touchStartX st)) 0 show' is_int_zero Hs').
  - cbn [state_of]. split; [| reflexivity]. exact (ex_intro _ z (ex_intro _ show (conj Hz (conj Hs (conj Hr Hb))))).
  - unfold Carousel.handleSwipe.
    destruct (Num.gtb _ _); [destruct (Num.gtb _ _); assumption |].
    cbn [state_of]. split; [| reflexivity]. exact (ex_intro _ z (ex_intro _ show (conj Hz (conj Hs (conj Hr Hb))))).
Qed.

Lemma carousel_run_in_range (evs : list (Carousel.Env * Carousel.Event))
    (st : Carousel.State) :
  Carousel.in_range st ->
  Carousel.in_range (Carousel.run evs st) /\
  Carousel.n_cards (Carousel.run evs st) = Carousel.n_cards st.
Proof.
  revert st. induction evs as [| [env ev] evs IH]; intros st H; [split; [exact H | reflexivity] |].
  destruct (carousel_dispatch_in_range env ev st H) as [A B].
  destruct (IH _ A) as [C D].
  split; [exact C |]. rewrite <- B. exact D.
Qed.

Lemma carousel_goTo_returns (env : Carousel.Env) (index : number) (st : Carousel.State) :
  (0 < Carousel.n_cards st)%nat ->
  exists st' : Carousel.State, Carousel.goTo env index st = Returned st'.
Proof.
  intros H. unfold Carousel.goTo. destruct (Carousel.n_cards st); [lia |].
  eexists. reflexivity.
Qed.

Lemma carousel_dispatch_returns (env : Carousel.Env) (ev : Carousel.Event)
    (st : Carousel.State) :
  (0 < Carousel.n_cards st)%nat ->
  exists st' : Carousel.State, Carousel.dispatch env ev st = Returned st'.
Proof.
  intros H. destruct ev as [| | | x | x]; unfold Carousel.dispatch.
  - apply carousel_goTo_returns, H.
  - apply carousel_goTo_returns, H.
  - apply carousel_goTo_returns, H.
  - eexists. reflexivity.
  - unfold Carousel.handleSwipe.
    destruct (Num.gtb _ _); [destruct (Num.gtb _ _); apply carousel_goTo_returns, H |].
    eexists. reflexivity.
Qed.

(** X21.  Whatever the clicks, swipes and resizes since the construction, the
    index is an integer between 0 and the last position that fills the
    window (0 when the cards are fewer than the window), and with at least
    one card no handler stops on an error. *)
Theorem carousel_index_stays_in_range
    (env0 : Carousel.Env) (n : nat) (t0 : option Q)
    (evs : list (Carousel.Env * Carousel.Event)) :
  let st := Carousel.run evs (Carousel.constructor env0 n t0) in
  Carousel.in_range st /\
  Carousel.n_cards st = n /\
  ((0 < n)%nat ->
   forall (env : Carousel.Env) (ev : Carousel.Event),
     exists st' : Carousel.State, Carousel.dispatch env ev st = Returned st').
Proof.
  cbv zeta.
  assert (H0 : Carousel.in_range (Carousel.constructor env0 n t0)).
  { destruct (getCardsToShow_int env0) as (show & Hs & Hr).
    exists 0%Z, show. split; [apply is_int_zero |]. split; [exact Hs |].
    split; [exact Hr | lia]. }
  destruct (carousel_run_in_range evs _ H0) as [A B].
  split; [exact A |]. split; [exact B |].
  intros Hn env ev. apply carousel_dispatch_returns. rewrite B. exact Hn.
Qed.

(** X22.  [goTo] clamps the index between 0 and [n - cardsToShow] and moves the
    track by that many card widths, the gap of 30 pixels included. *)
Theorem carousel_goTo_clamps_and_offsets
    (env : Carousel.Env) (index : number) (st : Carousel.State) (x show : Z) :
  (0 < Carousel.n_cards st)%nat ->
  is_int index x -> is_int (Carousel.cardsToShow st) show ->
  exists (st' : Carousel.State) (q : Q),
    Carousel.goTo env index st = Returned st' /\
    is_int (Carousel.currentIndex st')
           (Z.max 0 (Z.min x (Z.of_nat (Carousel.n_cards st) - show))) /\
    Carousel.track_transform st' = Some q /\
    q == - inject_Z (Z.max 0 (Z.min x (Z.of_nat (Carousel.n_cards st) - show))
                     * (Carousel.card_offsetWidth env + 30)).
Proof.
  intros Hn Hx Hs.
  destruct (carousel_goTo_state env index st x show Hx Hs) as (A & _).
  pose proof (is_int_max _ _ _ _ is_int_zero
                (is_int_min _ _ _ _ Hx
                   (is_int_sub _ _ _ _ (is_int_of_nat (Carousel.n_cards st)) Hs))) as H.
  revert A. unfold Carousel.goTo.
  destruct (Carousel.n_cards st) as [| m] eqn:E; [lia |]. cbn [state_of]. intros A.
  assert (W : is_int (Num.add (Num.of_Z (Carousel.card_offsetWidth env)) (Fin 30))
                     (Carousel.card_offsetWidth env + 30)).
  { apply is_int_add; [apply is_int_of_Z | exists 30; split; reflexivity]. }
  pose proof (is_int_mul _ _ _ _ (is_int_neg _ _ H) W) as (q & Eq & Hq).
  unfold Carousel.set_currentIndex at 1 in A. unfold Carousel.set_currentIndex at 1.
  cbn [Carousel.currentIndex] in A |- *.
  rewrite Eq in A |- *. cbn [Carousel.set_transform Carousel.currentIndex] in A |- *.
  eexists. exists q. split; [reflexivity |].
  cbn [Carousel.currentIndex Carousel.track_transform].
  split; [exact H |]. split; [reflexivity |].
  rewrite Hq, <- inject_Z_opp. apply (proj2 (inject_Z_injective _ _)). lia.
Qed.

Lemma carousel_goTo_clamps_and_offsets_witness :
  exists (st' : Carousel.State) (q : Q),
    Carousel.goTo (Carousel.mkEnv 1280 400) (Num.of_Z 7)
      (Carousel.constructor (Carousel.mkEnv 1280 400) 5 None) = Returned st' /\
    is_int (Carousel.currentIndex st')
           (Z.max 0 (Z.min 7
              (Z.of_nat (Carousel.n_cards
                           (Carousel.constructor (Carousel.mkEnv 1280 400) 5 None)) - 3))) /\
    Carousel.track_transform st' = Some q /\
    q == - inject_Z (Z.max 0 (Z.min 7
              (Z.of_nat (Carousel.n_cards
                           (Carousel.constructor (Carousel.mkEnv 1280 400) 5 None)) - 3))
                     * (Carousel.card_offsetWidth (Carousel.mkEnv 1280 400) + 30)).
Proof.
  apply (carousel_goTo_clamps_and_offsets (Carousel.mkEnv 1280 400) (Num.of_Z 7)
           (Carousel.constructor (Carousel.mkEnv 1280 400) 5 None) 7 3).
  - cbn. lia.
  - apply is_int_of_Z.
  - exists 3. split; reflexivity.
Defined.

(** X23.  With no card every click and every resize stops on an error, the
    index having been set to 0 and the track left where it was. *)
Theorem carousel_without_cards_throws
    (env : Carousel.Env) (ev : Carousel.Event) (st : Carousel.State) :
  Carousel.n_cards st = 0%nat -> Carousel.in_range st ->
  ev = Carousel.ClickPrev \/ ev = Carousel.ClickNext \/ ev = Carousel.Resize ->
  exists st' : Carousel.State,
    Carousel.dispatch env ev st = Threw st' /\
    is_int (Carousel.currentIndex st') 0 /\
    Carousel.track_transform st' = Carousel.track_transform st.
Proof.
  intros Hn (z & show & Hz & Hs & Hr & Hb) Hev.
  assert (G : forall (index : number) (st0 : Carousel.State) (x show0 : Z),
             Carousel.n_cards st0 = 0%nat ->
             is_int index x -> is_int (Carousel.cardsToShow st0) show0 ->
             (1 <= show0)%Z ->
             exists st' : Carousel.State,
               Carousel.goTo env index st0 = Threw st' /\
               is_int (Carousel.currentIndex st') 0 /\
               Carousel.track_transform st' = Carousel.track_transform st0).
  { intros index st0 x show0 H0 Hx Hs0 Hr0.
    destruct (carousel_goTo_state env index st0 x show0 Hx Hs0) as (A & _).
    revert A. unfold Carousel.goTo. rewrite H0. cbn [state_of]. intros A.
    eexists. split; [reflexivity |]. split; [| reflexivity].
    replace 0%Z with (Z.max 0 (Z.min x (Z.of_nat 0 - show0))) by lia. exact A. }
  destruct Hev as [-> | [-> | ->]]; unfold Carousel.dispatch.
  - apply (G _ st (z - 1)%Z show Hn); [| exact Hs | lia].
    apply is_int_sub; [exact Hz | apply is_int_one].
  - apply (G _ st (z + 1)%Z show Hn); [| exact Hs | lia].
    apply is_int_add; [exact Hz | apply is_int_one].
  - destruct (getCardsToShow_int env) as (show' & Hs' & Hr').
    apply (G Num.zero
             (Carousel.mk (Carousel.n_cards st) (Carousel.currentIndex st)
                (Carousel.getCardsToShow env) (Carousel.track_transform st)
                (Carousel.touchStartX st)) 0%Z show' Hn is_int_zero Hs'). lia.
Qed.

Lemma carousel_without_cards_throws_witness :
  exists st' : Carousel.State,
    Carousel.dispatch (Carousel.mkEnv 800 0) Carousel.Resize
      (Carousel.constructor (Carousel.mkEnv 1280 0) 0 None) = Threw st' /\
    is_int (Carousel.currentIndex st') 0 /\
    Carousel.track_transform st'
    = Carousel.track_transform (Carousel.constructor (Carousel.mkEnv 1280 0) 0 None).
Proof.
  apply (carousel_without_cards_throws (Carousel.mkEnv 800 0) Carousel.Resize
           (Carousel.constructor (Carousel.mkEnv 1280 0) 0 None)).
  - reflexivity.
  - exists 0%Z, 3%Z. split; [apply is_int_zero |].
    split; [exists 3; split; reflexivity |]. split; lia.
  - right. right. reflexivity.
Defined.

Lemma abs_gt (d t : Q) :
  0 <= t ->
  Num.gtb (JsMath.abs (Fin d)) (Fin t) = true <-> t < d \/ t < - d.
Proof.
  intros Ht. unfold Num.gtb, JsMath.abs.
  destruct (Num.ltb (Fin d) Num.zero) eqn:E.
  - apply (proj1 (ltb_Fin _ _)) in E. cbn [Num.neg]. rewrite ltb_Fin.
    split; [intros H; right; exact H | intros [H | H]; lra].
  - apply (proj1 (ltb_Fin_false _ _)) in E. rewrite ltb_Fin.
    split; [intros H; left; exact H | intros [H | H]; lra].
Qed.

(** A touch that ends more than 50 pixels to the left of its start is
    [next], more than 50 pixels to the right [prev]; a shorter one does
    nothing. *)
Lemma carousel_swipe_needs_more_than_50
    (env0 env : Carousel.Env) (x y : Q) (st : Carousel.State) :
  let st1 := state_of (Carousel.dispatch env0 (Carousel.TouchStart x) st) in
  (50 < x - y -> Carousel.dispatch env (Carousel.TouchEnd y) st1 = Carousel.next env st1) /\
  (50 < y - x -> Carousel.dispatch env (Carousel.TouchEnd y) st1 = Carousel.prev env st1) /\
  (x - y <= 50 -> y - x <= 50 ->
   Carousel.dispatch env (Carousel.TouchEnd y) st1 = Returned st1).
Proof.
  cbv zeta. unfold Carousel.dispatch. cbn [state_of Carousel.touchStartX].
  unfold Carousel.handleSwipe. unfold Num.sub. cbn [Num.neg Num.add].
  pose proof (abs_gt (x + - y) 50) as A.
  assert (H50 : 0 <= 50) by lra. specialize (A H50).
  split; [| split].
  - intros H. rewrite (proj2 A) by (left; lra).
    assert (G : Num.gtb (Fin (x + - y)) Num.zero = true)
      by (apply (proj2 (ltb_Fin _ _)); lra).
    rewrite G. reflexivity.
  - intros H. rewrite (proj2 A) by (right; lra).
    assert (G : Num.gtb (Fin (x + - y)) Num.zero = false)
      by (apply (proj2 (ltb_Fin_false _ _)); lra).
    rewrite G. reflexivity.
  - intros H1 H2.
    assert (E : Num.gtb (JsMath.abs (Fin (x + - y))) (Fin 50) = false).
    { apply not_true_is_false. intros E. apply (proj1 A) in E. lra. }
    rewrite E. reflexivity.
Qed.

End CarouselFacts.

(** ** The accordion *)

Section AccordionFacts.

(** X24.  A click on the header of an item closes every item and opens the
    clicked one when it was closed: afterwards an item is open exactly when
    it is the clicked one and that was closed before; no other class and no
    other item property changes. *)
Theorem accordion_click_opens_only_the_clicked_item
    (items : list Accordion.Item) (k : nat) (it : Accordion.Item) :
  items !! k = Some it -> Accordion.has_header it = true ->
  length (Accordion.click k items) = length items /\
  forall (j : nat) (it_j : Accordion.Item),
    items !! j = Some it_j ->
    exists it' : Accordion.Item,
      Accordion.click k items !! j = Some it' /\
      Accordion.has_header it' = Accordion.has_header it_j /\
      (Accordion.active it' <-> j = k /\ ~ Accordion.active it) /\
      (forall c : string, c <> "active" ->
         (c ∈ classList (Accordion.item it') <-> c ∈ classList (Accordion.item it_j))).
Proof.
  intros Hk Hh. unfold Accordion.click. rewrite Hk, Hh.
  set (rm := Accordion.set_item (Dom.classList_remove "active")).
  set (ad := Accordion.set_item (Dom.classList_add "active")).
  assert (Hrm : forall x : Accordion.Item,
             Accordion.has_header (rm x) = Accordion.has_header x /\
             ~ Accordion.active (rm x) /\
             (forall c : string, c <> "active" ->
                (c ∈ classList (Accordion.item (rm x))
                 <-> c ∈ classList (Accordion.item x)))).
  { intros x. split; [reflexivity |]. split.
    - unfold Accordion.active, rm, Accordion.set_item. cbn [Accordion.item].
      rewrite elem_of_classList_remove. intros [H _]. apply H. reflexivity.
    - intros c Hc. unfold rm, Accordion.set_item. cbn [Accordion.item].
      rewrite elem_of_classList_remove. tauto. }
  assert (Had : forall x : Accordion.Item,
             Accordion.has_header (ad x) = Accordion.has_header x /\
             Accordion.active (ad x) /\
             (forall c : string, c <> "active" ->
                (c ∈ classList (Accordion.item (ad x))
                 <-> c ∈ classList (Accordion.item x)))).
  { intros x. split; [reflexivity |]. split.
    - unfold Accordion.active, ad, Accordion.set_item. cbn [Accordion.item].
      rewrite elem_of_classList_add. left. reflexivity.
    - intros c Hc. unfold ad, Accordion.set_item. cbn [Accordion.item].
      rewrite elem_of_classList_add. tauto. }
  case_bool_decide as Hact; cbn [negb].
  - split; [apply length_fmap |].
    intros j it_j Hj. exists (rm it_j).
    split; [rewrite list_lookup_fmap, Hj; reflexivity |].
    destruct (Hrm it_j) as (A & B & C).
    split; [exact A |]. split; [| exact C].
    split; [intros H; contradiction | intros [_ H]; contradiction].
  - split; [rewrite length_alter; apply length_fmap |].
    intros j it_j Hj. destruct (decide (j = k)) as [-> | Hjk].
    + rewrite Hk in Hj. injection Hj as <-.
      exists (ad (rm it)).
      split; [rewrite list_lookup_alter, list_lookup_fmap, Hk;
              rewrite decide_True by reflexivity; reflexivity |].
      destruct (Hrm it) as (A & B & C). destruct (Had (rm it)) as (A' & B' & C').
      split; [rewrite A'; exact A |]. split.
      * split; [intros _; split; [reflexivity | exact Hact] | intros _; exact B'].
      * intros c Hc. rewrite (C' c Hc). apply C, Hc.
    + exists (rm it_j).
      split.
      * rewrite list_lookup_alter_ne by (intros E; apply Hjk; symmetry; exact E).
        rewrite list_lookup_fmap, Hj. reflexivity.
      * destruct (Hrm it_j) as (A & B & C).
        split; [exact A |]. split; [| exact C].
        split; [intros H; contradiction | intros [H _]; contradiction].
Qed.

Lemma accordion_click_opens_only_the_clicked_item_witness :
  length (Accordion.click 1
            [Accordion.mkItem (mkElement ["accordion-item"; "active"] None None None) true;
             Accordion.mkItem (mkElement ["accordion-item"] None None None) true])
  = length
      [Accordion.mkItem (mkElement ["accordion-item"; "active"] None None None) true;
       Accordion.mkItem (mkElement ["accordion-item"] None None None) true] /\
  forall (j : nat) (it_j : Accordion.Item),
    [Accordion.mkItem (mkElement ["accordion-item"; "active"] None None None) true;
     Accordion.mkItem (mkElement ["accordion-item"] None None None) true] !! j
    = Some it_j ->
    exists it' : Accordion.Item,
      Accordion.click 1
        [Accordion.mkItem (mkElement ["accordion-item"; "active"] None None None) true;
         Accordion.mkItem (mkElement ["accordion-item"] None None None) true] !! j
      = Some it' /\
      Accordion.has_header it' = Accordion.has_header it_j /\
      (Accordion.active it' <->
         j = 1%nat /\
         ~ Accordion.active
             (Accordion.mkItem (mkElement ["accordion-item"] None None None) true)) /\
      (forall c : string, c <> "active" ->
         (c ∈ classList (Accordion.item it') <-> c ∈ classList (Accordion.item it_j))).
Proof.
  apply (accordion_click_opens_only_the_clicked_item
           [Accordion.mkItem (mkElement ["accordion-item"; "active"] None None None) true;
            Accordion.mkItem (mkElement ["accordion-item"] None None None) true]
           1 (Accordion.mkItem (mkElement ["accordion-item"] None None None) true)).
  - reflexivity.
  - reflexivity.
Defined.

End AccordionFacts.

(** ** The header and the navigation links *)

Section PageFacts.
Local Open Scope Q_scope.

Lemma leb_Fin (x y : Q) : JsMath.leb (Fin x) (Fin y) = true <-> x <= y.
Proof.
  unfold JsMath.leb. rewrite orb_true_iff, ltb_Fin.
  unfold Num.eqb. rewrite Qeq_bool_iff. split.
  - intros [H | H]; [apply Qlt_le_weak, H | rewrite H; apply Qle_refl].
  - intros H. destruct (Qlt_le_dec x y) as [L | L]; [left; exact L |].
    right. apply Qle_antisym; assumption.
Qed.

Lemma in_band_spec (y : Q) (s : Page.Sect) :
  Page.in_band (Fin y) s = true <->
  inject_Z (Page.offsetTop s) - 100 < y /\
  y <= inject_Z (Page.offsetTop s) - 100 + inject_Z (Page.offsetHeight s).
Proof.
  unfold Page.in_band, Num.gtb, Num.sub, Num.of_Z. cbn [Num.neg Num.add].
  rewrite andb_true_iff, ltb_Fin, leb_Fin. reflexivity.
Qed.

Lemma mark_spec (sectionId : string) (l : Page.Link) :
  Page.href (Page.mark sectionId l) = Page.href l /\
  ("active" ∈ classList (Page.link (Page.mark sectionId l))
   <-> Page.href l = Some ("#" +:+ sectionId)) /\
  (forall c : string, c <> "active" ->
     (c ∈ classList (Page.link (Page.mark sectionId l))
      <-> c ∈ classList (Page.link l))).
Proof.
  unfold Page.mark. cbn [Page.href Page.link].
  split; [reflexivity |].
  case_bool_decide as E.
  - split.
    + rewrite elem_of_classList_add. split; [intros _; exact E | intros _; left; reflexivity].
    + intros c Hc. rewrite elem_of_classList_add, elem_of_classList_remove. tauto.
  - split.
    + rewrite elem_of_classList_remove. split; [intros [H _]; exfalso; apply H; reflexivity |].
      intros H. contradiction.
    + intros c Hc. rewrite elem_of_classList_remove. tauto.
Qed.

Lemma updateActiveNavLink_snoc (sections : list Page.Sect) (s : Page.Sect)
    (a : number) (links : list Page.Link) :
  Page.updateActiveNavLink (sections ++ [s]) a links =
  if Page.in_band a s
  then map (Page.mark (Page.sect_id s)) (Page.updateActiveNavLink sections a links)
  else Page.updateActiveNavLink sections a links.
Proof. unfold Page.updateActiveNavLink. rewrite fold_left_app. reflexivity. Qed.

Lemma in_bands_snoc (sections : list Page.Sect) (s : Page.Sect) (y : Q) :
  Page.in_bands (sections ++ [s]) y =
  Page.in_bands sections y ++ (if Page.in_band (Fin y) s then [s] else []).
Proof. unfold Page.in_bands. rewrite List.filter_app. reflexivity. Qed.

(** X25.  After [updateActiveNavLink] the active link is the one of the last
    section, in document order, whose band (from 100 pixels above its top,
    excluded, over its height) holds the scroll position; when no band
    holds it the links are left as they were.  Only the class [active] is
    touched. *)
Theorem nav_active_link_is_the_last_section_in_band
    (sections : list Page.Sect) (y : Q) (links : list Page.Link) :
  (forall s : Page.Sect,
     s ∈ Page.in_bands sections y <->
     s ∈ sections /\
     inject_Z (Page.offsetTop s) - 100 < y /\
     y <= inject_Z (Page.offsetTop s) - 100 + inject_Z (Page.offsetHeight s)) /\
  length (Page.updateActiveNavLink sections (Fin y) links) = length links /\
  forall (j : nat) (l : Page.Link),
    links !! j = Some l ->
    exists l' : Page.Link,
      Page.updateActiveNavLink sections (Fin y) links !! j = Some l' /\
      Page.href l' = Page.href l /\
      (forall c : string, c <> "active" ->
         (c ∈ classList (Page.link l') <-> c ∈ classList (Page.link l))) /\
      match last (Page.in_bands sections y) with
      | None => l' = l
      | Some s =>
          "active" ∈ classList (Page.link l')
          <-> Page.href l = Some ("#" +:+ Page.sect_id s)
      end.
Proof.
  split.
  { intros s. unfold Page.in_bands.
    rewrite list_elem_of_In, List.filter_In, <- list_elem_of_In, in_band_spec.
    reflexivity. }
  induction sections as [| s sections IH] using rev_ind.
  - split; [reflexivity |]. intros j l Hj. exists l.
    split; [exact Hj |]. split; [reflexivity |]. split; [reflexivity | reflexivity].
  - destruct IH as [IHlen IH].
    rewrite updateActiveNavLink_snoc, in_bands_snoc.
    destruct (Page.in_band (Fin y) s) eqn:E.
    + split; [rewrite length_fmap; exact IHlen |].
      intros j l Hj. destruct (IH j l Hj) as (l' & Hl' & Hh & Hc & _).
      exists (Page.mark (Page.sect_id s) l').
      destruct (mark_spec (Page.sect_id s) l') as (A & B & C).
      split; [rewrite list_lookup_fmap, Hl'; reflexivity |].
      split; [rewrite A; exact Hh |].
      split; [intros c Hne; rewrite (C c Hne); apply Hc, Hne |].
      rewrite last_snoc, B, Hh. reflexivity.
    + rewrite app_nil_r. split; [exact IHlen | exact IH].
Qed.

Lemma gtb_Fin (x y : Q) : Num.gtb (Fin x) (Fin y) = true <-> y < x.
Proof. unfold Num.gtb. apply ltb_Fin. Qed.

(** X26.  The scroll listener of the window: with the header and the button it
    returns, the header carrying [scrolled] exactly above 50 pixels and the
    button [visible] exactly above 500; without the header it stops before
    any change; without the button it stops after the header and the links
    have been updated, [lastScroll] keeping its old value. *)
Theorem header_scroll_listener
    (sections : list Page.Sect) (y : Q) (st : Page.State) :
  let links' := Page.updateActiveNavLink sections (Fin y) (Page.navLinks st) in
  match Page.header st, Page.backToTop st with
  | None, _ => Page.on_scroll sections y st = Threw st
  | Some h, None =>
      exists h' : Element,
        Page.on_scroll sections y st
        = Threw (Page.mk (Some h') None links' (Page.lastScroll st)) /\
        ("scrolled" ∈ classList h' <-> 50 < y) /\
        (forall c : string, c <> "scrolled" -> (c ∈ classList h' <-> c ∈ classList h))
  | Some h, Some b =>
      exists h' b' : Element,
        Page.on_scroll sections y st
        = Returned (Page.mk (Some h') (Some b') links' (Fin y)) /\
        ("scrolled" ∈ classList h' <-> 50 < y) /\
        ("visible" ∈ classList b' <-> 500 < y) /\
        (forall c : string, c <> "scrolled" -> (c ∈ classList h' <-> c ∈ classList h)) /\
        (forall c : string, c <> "visible" -> (c ∈ classList b' <-> c ∈ classList b))
  end.
Proof.
  cbv zeta. unfold Page.on_scroll.
  destruct (Page.header st) as [h |]; [| reflexivity].
  destruct (toggled_class (Num.gtb (Fin y) (Fin 50)) "scrolled" h) as [H1 H2].
  cbv zeta in H1, H2. rewrite gtb_Fin in H1.
  destruct (Page.backToTop st) as [b |].
  - destruct (toggled_class (Num.gtb (Fin y) (Fin 500)) "visible" b) as [B1 B2].
    cbv zeta in B1, B2. rewrite gtb_Fin in B1.
    eexists. eexists. split; [reflexivity |].
    split; [exact H1 |]. split; [exact B1 |]. split; [exact H2 | exact B2].
  - eexists. split; [reflexivity |]. split; [exact H1 | exact H2].
Qed.

End PageFacts.

(** ** The toast *)

Section ToastFacts.

Lemma toast_advance_one (t d : nat) (el : Element) (msg : string) (n : nat) :
  Toast.advance t (Toast.mk el msg [d] n) =
  if (d <=? t)%nat
  then Toast.mk (Dom.classList_remove "show" el) msg [] (Nat.max n t)
  else Toast.mk el msg [d] (Nat.max n t).
Proof.
  unfold Toast.advance. cbn [Toast.pending Toast.toast Toast.message Toast.now List.filter].
  destruct (d <=? t)%nat; reflexivity.
Qed.

Lemma toast_not_shown_after_remove (el : Element) :
  ~ "show" ∈ classList (Dom.classList_remove "show" el).
Proof. rewrite elem_of_classList_remove. intros [H _]. apply H. reflexivity. Qed.

Lemma toast_shown_after_add (el : Element) :
  "show" ∈ classList (Dom.classList_add "show" el).
Proof. rewrite elem_of_classList_add. left. reflexivity. Qed.

(** X27.  A toast shown alone stays for 3000 ms.  A second toast shown while the
    first is still up is taken down by the timer of the first, less than
    3000 ms after it appeared: [showToast] never clears the timer of an
    earlier call. *)
Theorem toast_hidden_by_an_earlier_timer (st : Toast.State) (m1 m2 : string) :
  Toast.pending st = [] ->
  (forall t : nat,
     (t < Toast.now st + 3000)%nat ->
     Toast.shown (Toast.advance t (Toast.showToast m1 st))) /\
  (forall t : nat,
     (Toast.now st + 3000 <= t)%nat ->
     ~ Toast.shown (Toast.advance t (Toast.showToast m1 st)) /\
     Toast.pending (Toast.advance t (Toast.showToast m1 st)) = []) /\
  (forall t2 t : nat,
     (Toast.now st <= t2 < Toast.now st + 3000)%nat ->
     (Toast.now st + 3000 <= t < t2 + 3000)%nat ->
     let st2 := Toast.showToast m2 (Toast.advance t2 (Toast.showToast m1 st)) in
     Toast.shown st2 /\ Toast.now st2 = t2 /\
     ~ Toast.shown (Toast.advance t st2) /\
     Toast.message (Toast.advance t st2) = m2 /\
     Toast.pending (Toast.advance t st2) = [(t2 + 3000)%nat]).
Proof.
  intros Hp.
  assert (E : Toast.showToast m1 st =
              Toast.mk (Dom.classList_add "show" (Toast.toast st)) m1
                       [(Toast.now st + 3000)%nat] (Toast.now st)).
  { unfold Toast.showToast. rewrite Hp. reflexivity. }
  split; [| split].
  - intros t Ht. rewrite E, toast_advance_one.
    rewrite (proj2 (Nat.leb_gt _ _)) by lia.
    apply toast_shown_after_add.
  - intros t Ht. rewrite E, toast_advance_one.
    rewrite (proj2 (Nat.leb_le _ _)) by lia.
    split; [apply toast_not_shown_after_remove | reflexivity].
  - intros t2 t H2 Ht. cbv zeta. rewrite E, toast_advance_one.
    rewrite (proj2 (Nat.leb_gt _ _)) by lia.
    unfold Toast.showToast. cbn [Toast.toast Toast.pending Toast.now app].
    rewrite Nat.max_r by lia.
    split; [apply toast_shown_after_add |]. split; [reflexivity |].
    unfold Toast.advance, Toast.shown.
    cbn [Toast.pending Toast.toast Toast.message Toast.now List.filter].
    rewrite (proj2 (Nat.leb_le (Toast.now st + 3000) t)) by lia.
    rewrite (proj2 (Nat.leb_gt (t2 + 3000) t)) by lia.
    cbn [negb fold_left].
    split; [apply toast_not_shown_after_remove |]. split; reflexivity.
Qed.

Lemma toast_hidden_by_an_earlier_timer_witness :
  (forall t : nat,
     (t < Toast.now (Toast.mk plain EmptyString [] 0) + 3000)%nat ->
     Toast.shown
       (Toast.advance t (Toast.showToast "sent" (Toast.mk plain EmptyString [] 0)))) /\
  (forall t : nat,
     (Toast.now (Toast.mk plain EmptyString [] 0) + 3000 <= t)%nat ->
     ~ Toast.shown
         (Toast.advance t (Toast.showToast "sent" (Toast.mk plain EmptyString [] 0))) /\
     Toast.pending
       (Toast.advance t (Toast.showToast "sent" (Toast.mk plain EmptyString [] 0))) = []) /\
  (forall t2 t : nat,
     (Toast.now (Toast.mk plain EmptyString [] 0) <= t2
      < Toast.now (Toast.mk plain EmptyString [] 0) + 3000)%nat ->
     (Toast.now (Toast.mk plain EmptyString [] 0) + 3000 <= t < t2 + 3000)%nat ->
     let st2 :=
       Toast.showToast "failed"
         (Toast.advance t2 (Toast.showToast "sent" (Toast.mk plain EmptyString [] 0))) in
     Toast.shown st2 /\ Toast.now st2 = t2 /\
     ~ Toast.shown (Toast.advance t st2) /\
     Toast.message (Toast.advance t st2) = "failed" /\
     Toast.pending (Toast.advance t st2) = [(t2 + 3000)%nat]).
Proof.
  apply (toast_hidden_by_an_earlier_timer (Toast.mk plain EmptyString [] 0) "sent" "failed").
  reflexivity.
Defined.

End ToastFacts.

(** ** The forms *)

Section FormFacts.

Lemma nullable_spec (r : Form.Regex) : Form.nullable r = true <-> Form.lang r [].
Proof.
  induction r as [| | p | r IHr s IHs | r IHr s IHs | r IHr]; cbn [Form.nullable].
  - split; [discriminate | intros H; inversion H].
  - split; [intros _; constructor | reflexivity].
  - split; [discriminate | intros H; inversion H].
  - rewrite andb_true_iff, IHr, IHs. split.
    + intros [H1 H2]. exact (Form.lang_cat r s [] [] H1 H2).
    + intros H. inversion H as [| | r' s' u v Hu Hv E1 E2 | | | |]; subst.
      apply app_eq_nil in E2 as [-> ->]. split; assumption.
  - rewrite orb_true_iff, IHr, IHs. split.
    + intros [H | H]; [apply Form.lang_alt_l | apply Form.lang_alt_r]; exact H.
    + intros H. inversion H; subst; [left | right]; assumption.
  - split; [intros _; constructor | reflexivity].
Qed.

Lemma deriv_spec (c : N) (r : Form.Regex) (w : list N) :
  Form.lang (Form.deriv c r) w <-> Form.lang r (c :: w).
Proof.
  revert w.
  induction r as [| | p | r IHr s IHs | r IHr s IHs | r IHr]; intros w;
    cbn [Form.deriv].
  - split; intros H; inversion H.
  - split; intros H; inversion H.
  - destruct (p c) eqn:E; split; intros H.
    + inversion H; subst. constructor. exact E.
    + inversion H; subst. constructor.
    + inversion H.
    + inversion H; subst. congruence.
  - split.
    + intros H. inversion H as [| | | r' s' u Hu | r' s' u Hu | |]; subst.
      * inversion Hu as [| | r' s' u v H1 H2 | | | |]; subst.
        apply (Form.lang_cat r s (c :: u) v); [apply IHr, H1 | exact H2].
      * destruct (Form.nullable r) eqn:N; [| inversion Hu].
        apply (Form.lang_cat r s [] (c :: w)); [apply nullable_spec, N | apply IHs, Hu].
    + intros H. inversion H as [| | r' s' u v H1 H2 E1 E2 | | | |]; subst.
      destruct u as [| c' u].
      * cbn [app] in E2. subst v. apply Form.lang_alt_r.
        rewrite (proj2 (nullable_spec r) H1). apply IHs, H2.
      * cbn [app] in E2. injection E2 as -> <-.
        apply Form.lang_alt_l. apply Form.lang_cat; [apply IHr, H1 | exact H2].
  - split.
    + intros H. inversion H; subst;
        [apply Form.lang_alt_l, IHr | apply Form.lang_alt_r, IHs]; assumption.
    + intros H. inversion H; subst;
        [apply Form.lang_alt_l, IHr | apply Form.lang_alt_r, IHs]; assumption.
  - split.
    + intros H. inversion H as [| | r' s' u v H1 H2 | | | |]; subst.
      apply (Form.lang_star_cons r (c :: u) v); [discriminate | apply IHr, H1 | exact H2].
    + intros H. inversion H as [| | | | | | r' u v Hne H1 H2 E1 E2]; subst.
      destruct u as [| c' u]; [contradiction |].
      cbn [app] in E2. injection E2 as -> <-.
      apply Form.lang_cat; [apply IHr, H1 | exact H2].
Qed.

(** [test] decides the language. *)
Lemma test_spec (r : Form.Regex) (w : list N) :
  Form.test r w = true <-> Form.lang r w.
Proof.
  unfold Form.test. revert r. induction w as [| c w IH]; intros r; cbn [fold_left].
  - apply nullable_spec.
  - rewrite IH. apply deriv_spec.
Qed.

Lemma lang_class_inv (p : N -> bool) (w : list N) :
  Form.lang (Form.Class p) w <-> exists c : N, w = [c] /\ p c = true.
Proof.
  split.
  - intros H. inversion H; subst. eexists. split; [reflexivity | assumption].
  - intros (c & -> & H). constructor. exact H.
Qed.

Lemma lang_cat_inv (r s : Form.Regex) (w : list N) :
  Form.lang (Form.Cat r s) w <->
  exists u v : list N, w = u ++ v /\ Form.lang r u /\ Form.lang s v.
Proof.
  split.
  - intros H. inversion H; subst. eexists. eexists.
    split; [reflexivity | split; assumption].
  - intros (u & v & -> & H1 & H2). constructor; assumption.
Qed.

Lemma lang_star_class (p : N -> bool) (w : list N) :
  Form.lang (Form.Star (Form.Class p)) w <-> Forall (fun c => p c = true) w.
Proof.
  split.
  - remember (Form.Star (Form.Class p)) as r eqn:Er. intros H.
    induction H as [| | | | | r' | r' u v Hne H1 _ H2 IH2]; try discriminate Er.
    + constructor.
    + injection Er as ->. apply lang_class_inv in H1 as (c & -> & Hc).
      constructor; [exact Hc | apply IH2; reflexivity].
  - induction 1 as [| c w Hc _ IH]; [constructor |].
    apply (Form.lang_star_cons (Form.Class p) [c] w);
      [discriminate | constructor; exact Hc | exact IH].
Qed.

Lemma lang_plus_class (p : N -> bool) (w : list N) :
  Form.lang (Form.plus (Form.Class p)) w <->
  w <> [] /\ Forall (fun c => p c = true) w.
Proof.
  unfold Form.plus. rewrite lang_cat_inv. split.
  - intros (u & v & -> & H1 & H2).
    apply lang_class_inv in H1 as (c & -> & Hc). apply lang_star_class in H2.
    split; [discriminate | constructor; assumption].
  - intros [Hne H]. destruct H as [| c w Hc H]; [contradiction |].
    exists [c], w. split; [reflexivity |].
    split; [constructor; exact Hc | apply lang_star_class, H].
Qed.

Lemma lang_at_least_class (n : nat) (p : N -> bool) (w : list N) :
  Form.lang (Form.at_least n (Form.Class p)) w <->
  (n <= length w)%nat /\ Forall (fun c => p c = true) w.
Proof.
  revert w. induction n as [| n IH]; intros w.
  - change (Form.at_least 0 (Form.Class p)) with (Form.Star (Form.Class p)).
    rewrite lang_star_class.
    split; [intros H; split; [lia | exact H] | intros [_ H]; exact H].
  - change (Form.at_least (S n) (Form.Class p))
      with (Form.Cat (Form.Class p) (Form.at_least n (Form.Class p))).
    rewrite lang_cat_inv. split.
    + intros (u & v & -> & H1 & H2).
      apply lang_class_inv in H1 as (c & -> & Hc). apply IH in H2 as [L F].
      split; [cbn [app length]; lia | constructor; assumption].
    + intros [L F]. destruct F as [| c w Hc F]; [cbn [length] in L; lia |].
      exists [c], w. split; [reflexivity |].
      split; [constructor; exact Hc |]. apply IH.
      split; [cbn [length] in L; lia | exact F].
Qed.

(** X28.  What the expression for e-mail addresses accepts: a part, an at sign,
    a part, a dot, a part, where a part is one or more code units that are
    neither white space nor the at sign.  So the value holds exactly one at
    sign, and the dot is asked for only after it. *)
Theorem email_regex_language (v : list N) :
  Form.test Form.emailRegex v = true <->
  exists a b c : list N,
    v = a ++ [64%N] ++ b ++ [46%N] ++ c /\
    a <> [] /\ b <> [] /\ c <> [] /\
    Forall (fun x => Form.not_space_at x = true) a /\
    Forall (fun x => Form.not_space_at x = true) b /\
    Forall (fun x => Form.not_space_at x = true) c.
Proof.
  rewrite test_spec. unfold Form.emailRegex. split.
  - intros H.
    apply lang_cat_inv in H as (a & r1 & -> & Ha & H).
    apply lang_cat_inv in H as (x & r2 & -> & Hx & H).
    apply lang_cat_inv in H as (b & r3 & -> & Hb & H).
    apply lang_cat_inv in H as (y & c & -> & Hy & Hc).
    apply lang_class_inv in Hx as (x' & -> & Ex).
    apply lang_class_inv in Hy as (y' & -> & Ey).
    apply N.eqb_eq in Ex, Ey. subst x' y'.
    apply lang_plus_class in Ha as [Na Fa].
    apply lang_plus_class in Hb as [Nb Fb].
    apply lang_plus_class in Hc as [Nc Fc].
    exists a, b, c. repeat split; assumption.
  - intros (a & b & c & -> & Na & Nb & Nc & Fa & Fb & Fc).
    apply Form.lang_cat; [apply lang_plus_class; split; assumption |].
    apply Form.lang_cat; [constructor; reflexivity |].
    apply Form.lang_cat; [apply lang_plus_class; split; assumption |].
    apply Form.lang_cat; [constructor; reflexivity |].
    apply lang_plus_class; split; assumption.
Qed.

(** X29.  What the expression for telephone numbers accepts: ten or more code
    units, each a digit, white space or one of [-+()].  No digit is asked
    for. *)
Theorem phone_regex_language (v : list N) :
  Form.test Form.phoneRegex v = true <->
  (10 <= length v)%nat /\ Forall (fun c => Form.phone_char c = true) v.
Proof. rewrite test_spec. apply lang_at_least_class. Qed.

Lemma trimStart_shape (s : list N) :
  (Form.trimStart s = [] /\ Forall (fun c => Form.is_space c = true) s) \/
  (exists (c : N) (rest : list N),
     Form.trimStart s = c :: rest /\ Form.is_space c = false).
Proof.
  induction s as [| c s IH]; [left; split; [reflexivity | constructor] |].
  cbn [Form.trimStart]. destruct (Form.is_space c) eqn:E.
  - destruct IH as [[H F] | H]; [left | right; exact H].
    split; [exact H | constructor; assumption].
  - right. exists c, s. split; [reflexivity | exact E].
Qed.

Lemma trimStart_blank (s : list N) :
  Forall (fun c => Form.is_space c = true) s -> Form.trimStart s = [].
Proof.
  induction 1 as [| c s Hc _ IH]; [reflexivity |].
  cbn [Form.trimStart]. rewrite Hc. exact IH.
Qed.

(** [trim] leaves nothing exactly of the strings of white space. *)
Lemma trim_blank (s : list N) :
  Form.truthy (Form.trim s) = false <-> Forall (fun c => Form.is_space c = true) s.
Proof.
  unfold Form.trim. split.
  - intros H.
    destruct (rev (Form.trimStart (rev (Form.trimStart s)))) as [| x l] eqn:E;
      [| discriminate H].
    apply (f_equal (@rev N)) in E. rewrite rev_involutive in E. cbn [rev] in E.
    destruct (trimStart_shape s) as [[_ F] | (c & rest & Hs & Hc)]; [exact F |].
    exfalso. rewrite Hs in E.
    destruct (trimStart_shape (rev (c :: rest))) as [[_ F] | (c' & rest' & Hs' & _)].
    + apply Forall_rev in F. rewrite rev_involutive in F.
      inversion F as [| ? ? Hc' _]; subst. congruence.
    + rewrite Hs' in E. discriminate E.
  - intros F. rewrite (trimStart_blank s F). reflexivity.
Qed.

Lemma red_not_empty : Form.red <> EmptyString.
Proof. discriminate. Qed.

Lemma visit_unfold (isValid : bool) (input : Form.Input) :
  Form.visit isValid input =
  let bad :=
    negb (Form.truthy (Form.trim (Form.value input)))
    || bool_decide (Form.input_type input = "email") && Form.truthy (Form.value input)
       && negb (Form.test Form.emailRegex (Form.value input))
    || bool_decide (Form.input_type input = "tel") && Form.truthy (Form.value input)
       && negb (Form.test Form.phoneRegex (Form.value input)) in
  (if bad then false else isValid,
   Form.set_borderColor (if bad then Form.red else EmptyString) input).
Proof.
  unfold Form.visit.
  destruct (Form.truthy (Form.value input)) eqn:Hv;
    destruct (Form.truthy (Form.trim (Form.value input))); cbn [negb];
    cbn [Form.set_borderColor Form.input_type Form.value]; rewrite ?Hv;
    destruct (bool_decide (Form.input_type input = "email")); cbn [andb];
    destruct (Form.test Form.emailRegex (Form.value input));
    cbn [negb Form.set_borderColor Form.input_type Form.value]; rewrite ?Hv;
    destruct (bool_decide (Form.input_type input = "tel")); cbn [andb];
    destruct (Form.test Form.phoneRegex (Form.value input)); reflexivity.
Qed.

Lemma visit_bad (input : Form.Input) :
  negb (Form.truthy (Form.trim (Form.value input)))
  || bool_decide (Form.input_type input = "email") && Form.truthy (Form.value input)
     && negb (Form.test Form.emailRegex (Form.value input))
  || bool_decide (Form.input_type input = "tel") && Form.truthy (Form.value input)
     && negb (Form.test Form.phoneRegex (Form.value input)) = false
  <-> Form.acceptable input.
Proof.
  pose proof (trim_blank (Form.value input)) as Hb. unfold Form.acceptable.
  rewrite !orb_false_iff, !andb_false_iff, !negb_false_iff, !bool_decide_eq_false.
  split.
  - intros [[Ht He] Hp].
    assert (Hnb : ~ Forall (fun c => Form.is_space c = true) (Form.value input))
      by (intros F; apply Hb in F; congruence).
    assert (Hv : Form.truthy (Form.value input) = true).
    { destruct (Form.value input); [exfalso; apply Hnb; constructor | reflexivity]. }
    split; [exact Hnb |]. split.
    + intros E. destruct He as [[He | He] | He]; [contradiction | congruence | exact He].
    + intros E. destruct Hp as [[Hp | Hp] | Hp]; [contradiction | congruence | exact Hp].
  - intros (Hnb & He & Hp). split; [split |].
    + destruct (Form.truthy (Form.trim (Form.value input))) eqn:E; [reflexivity |].
      exfalso. apply Hnb, Hb. reflexivity.
    + destruct (decide (Form.input_type input = "email")) as [E | E];
        [right; apply He, E | left; left; exact E].
    + destruct (decide (Form.input_type input = "tel")) as [E | E];
        [right; apply Hp, E | left; left; exact E].
Qed.

Lemma visit_spec (isValid : bool) (input : Form.Input) :
  Form.input_type (snd (Form.visit isValid input)) = Form.input_type input /\
  Form.value (snd (Form.visit isValid input)) = Form.value input /\
  (Form.borderColor (snd (Form.visit isValid input)) = EmptyString \/
   Form.borderColor (snd (Form.visit isValid input)) = Form.red) /\
  (fst (Form.visit isValid input) = true <->
     isValid = true /\
     Form.borderColor (snd (Form.visit isValid input)) = EmptyString) /\
  (Form.borderColor (snd (Form.visit isValid input)) = EmptyString <->
     Form.acceptable input).
Proof.
  rewrite visit_unfold. cbv zeta. rewrite <- visit_bad.
  destruct (negb (Form.truthy (Form.trim (Form.value input)))
            || bool_decide (Form.input_type input = "email")
               && Form.truthy (Form.value input)
               && negb (Form.test Form.emailRegex (Form.value input))
            || bool_decide (Form.input_type input = "tel")
               && Form.truthy (Form.value input)
               && negb (Form.test Form.phoneRegex (Form.value input)));
    cbn [fst snd Form.set_borderColor Form.input_type Form.value Form.borderColor].
  - split; [reflexivity |]. split; [reflexivity |]. split; [right; reflexivity |].
    split; [split; [discriminate | intros [_ H]; discriminate H] |].
    split; intros H; discriminate H.
  - split; [reflexivity |]. split; [reflexivity |]. split; [left; reflexivity |].
    split; [tauto |]. split; reflexivity.
Qed.

Lemma forEach_spec (inputs : list Form.Input) (isValid : bool) :
  Forall2
    (fun i i' =>
       Form.input_type i' = Form.input_type i /\
       Form.value i' = Form.value i /\
       (Form.borderColor i' = EmptyString \/ Form.borderColor i' = Form.red) /\
       (Form.borderColor i' = EmptyString <-> Form.acceptable i))
    inputs (snd (Form.forEach isValid inputs)) /\
  (fst (Form.forEach isValid inputs) = true <->
     isValid = true /\
     Forall (fun i' => Form.borderColor i' = EmptyString)
            (snd (Form.forEach isValid inputs))).
Proof.
  revert isValid. induction inputs as [| input rest IH]; intros isValid.
  - cbn [Form.forEach fst snd]. split; [constructor |].
    split; [intros H; split; [exact H | constructor] | intros [H _]; exact H].
  - cbn [Form.forEach].
    pose proof (visit_spec isValid input) as (A & B & C & D & E).
    destruct (Form.visit isValid input) as [v i'] eqn:Ev. cbn [fst snd] in *.
    specialize (IH v).
    destruct (Form.forEach v rest) as [v' rest'] eqn:Ef. cbn [fst snd] in *.
    destruct IH as [F G].
    split.
    + constructor; [| exact F]. exact (conj A (conj B (conj C E))).
    + rewrite G, D. split.
      * intros [[H1 H2] H3]. split; [exact H1 | constructor; assumption].
      * intros [H1 H2]. inversion H2; subst. tauto.
Qed.

(** X30.  [validateForm] returns true exactly when it leaves no input with the
    red border, and that is exactly when every required input is
    acceptable: its value is not blank, and matches the expression for
    e-mail addresses or telephone numbers when the input is of that type.
    Every input ends with the red border or with none; types and values are
    not touched. *)
Theorem validateForm_agrees_with_borders (inputs : list Form.Input) :
  Forall2
    (fun i i' =>
       Form.input_type i' = Form.input_type i /\
       Form.value i' = Form.value i /\
       (Form.borderColor i' = EmptyString \/ Form.borderColor i' = Form.red) /\
       (Form.borderColor i' = EmptyString <-> Form.acceptable i))
    inputs (snd (Form.validateForm inputs)) /\
  (fst (Form.validateForm inputs) = true <->
     Forall (fun i' => Form.borderColor i' = EmptyString)
            (snd (Form.validateForm inputs))) /\
  (fst (Form.validateForm inputs) = true <-> Forall Form.acceptable inputs).
Proof.
  unfold Form.validateForm.
  destruct (forEach_spec inputs true) as [F G].
  split; [exact F |].
  assert (G' : fst (Form.forEach true inputs) = true <->
               Forall (fun i' => Form.borderColor i' = EmptyString)
                      (snd (Form.forEach true inputs))).
  { rewrite G. split; [intros [_ H]; exact H | intros H; split; [reflexivity | exact H]]. }
  split; [exact G' |]. rewrite G'.
  clear G G'. induction F as [| i i' l l' (_ & _ & _ & H) _ IH].
  - split; constructor.
  - split; intros H'; inversion H'; subst; constructor; tauto.
Qed.

End FormFacts.
